(** * Audio transcription service: job pipeline, speaker assignment, rate limiter

    A shallow embedding of the transcription repository:

    - [src/test.py]            [AudioTranscriber] (the transcription core:
                               fallback diarization, speaker assignment,
                               speaker statistics, result object);
    - [src/app/tasks.py]       [process_transcription],
                               [save_transcription_results];
    - [src/app/main.py]        [create_transcription_task],
                               [get_transcription_result];
    - [src/app/models.py]      the three tables;
    - [src/app/rate_limiter.py] [RateLimiter.check_rate_limit].

    Modelling conventions.

    - A Python [float] is the rational it stands for ([Q]).  The times of
      synthesized words and the midpoints of words are computed in binary64
      ([fl] after each operation); sums of durations are exact.
      [round(x, 2)] is rounding to the nearest hundredth, ties to the even
      hundredth.  Equality of numbers is [Qeq] ([==]).
    - A Python [str] is a [string] whose characters are code points below 256.
    - A [dict] that is iterated is an association list in insertion order;
      the Redis key space and its sorted sets are [gmap]s.
    - An external call that may raise returns an [outcome]. *)

From Stdlib Require Import ZArith QArith Qround Qabs Qpower List String Ascii Bool Lia Lqa.
From Stdlib Require Import Sorting.Sorted Sorting.Permutation.
From stdpp Require Import gmap strings pretty.
Import ListNotations.

Local Open Scope string_scope.

(** ** Numbers *)

Module Num.
Local Open Scope Q_scope.

Definition Qleb (x y : Q) : bool := Qle_bool x y.
Definition Qltb (x y : Q) : bool := negb (Qle_bool y x).

(** Python's [min(a, b)]: [b] when [b < a], otherwise [a]. *)
Definition py_min (a b : Q) : Q := if Qltb b a then b else a.
(** Python's [max(a, b)]: [b] when [b > a], otherwise [a]. *)
Definition py_max (a b : Q) : Q := if Qltb a b then b else a.

(** Nearest integer, ties to even. *)
Definition round_half_even (x : Q) : Z :=
  let f := Qfloor x in
  match Qcompare (x - inject_Z f) (1 # 2) with
  | Lt => f
  | Gt => (f + 1)%Z
  | Eq => if Z.even f then f else (f + 1)%Z
  end.

(** [round(x, 2)]. *)
Definition round2 (x : Q) : Q := inject_Z (round_half_even (x * 100)) / 100.

(** A number of hundredths. *)
Definition on_grid (x : Q) : Prop := exists k : Z, x == inject_Z k / 100.

Definition Qsum (l : list Q) : Q := fold_right Qplus 0 l.

(** *** Binary64 arithmetic

    A Python float is taken as the rational it stands for.  An operation on
    floats gives the float nearest to the exact result, ties to even: [x + y]
    is [fl (x + y)], and so on.  Infinities and NaN are not modelled: the
    results are to stay below the largest float. *)

(** [2 ** e]. *)
Definition pow2 (e : Z) : Q := Qpower 2 e.

(** The integer part of the binary logarithm of [x > 0]. *)
Definition ilog2 (x : Q) : Z :=
  let k := (Z.log2 (Qnum x) - Z.log2 (Zpos (Qden x)))%Z in
  if Qleb (pow2 k) x then k else (k - 1)%Z.

(** The binary64 number nearest to [x], ties to even: 53 significant bits,
    and multiples of [2 ** -1074] below [2 ** -1022]. *)
Definition fl (x : Q) : Q :=
  let x := Qred x in
  let e := Z.max (ilog2 (Qabs x) - 52) (-1074) in
  Qred (inject_Z (round_half_even (x / pow2 e)) * pow2 e).

(** Half the distance between neighbouring floats, relative to their size
    ([2 ** -53]) and at the bottom of the range ([2 ** -1075]). *)
Definition unit_roundoff : Q := 1 # 9007199254740992.
Definition eta : Q := pow2 (-1075).

End Num.

(** ** Strings *)

Module PyStr.

(** [str.isspace] on one code point below 256. *)
Definition isspace (c : ascii) : bool :=
  let n := nat_of_ascii c in
  (Nat.leb 9 n && Nat.leb n 13) || (Nat.leb 28 n && Nat.leb n 32)
  || Nat.eqb n 133 || Nat.eqb n 160.

Definition is_empty (s : string) : bool :=
  match s with EmptyString => true | _ => false end.

(** [s.split()]: the maximal runs of non-space characters, in order. *)
Fixpoint split_from (cur : string) (s : string) : list string :=
  match s with
  | EmptyString => if is_empty cur then [] else [cur]
  | String c rest =>
      if isspace c
      then (if is_empty cur then split_from "" rest
            else cur :: split_from "" rest)
      else split_from (cur ++ String c "") rest
  end.

Definition split (s : string) : list string := split_from "" s.

Fixpoint lstrip (s : string) : string :=
  match s with
  | EmptyString => ""
  | String c rest => if isspace c then lstrip rest else s
  end.

(** [s.rstrip()]: a character is kept when something non-space follows it
    or it is non-space itself. *)
Fixpoint rstrip (s : string) : string :=
  match s with
  | EmptyString => ""
  | String c rest =>
      match rstrip rest with
      | EmptyString => if isspace c then "" else String c ""
      | kept => String c kept
      end
  end.

(** [s.strip()]. *)
Definition strip (s : string) : string := rstrip (lstrip s).

Fixpoint all_space (s : string) : bool :=
  match s with
  | EmptyString => true
  | String c rest => isspace c && all_space rest
  end.

Fixpoint no_space (s : string) : bool :=
  match s with
  | EmptyString => true
  | String c rest => negb (isspace c) && no_space rest
  end.

Definition first_char (s : string) : option ascii :=
  match s with EmptyString => None | String c _ => Some c end.

Fixpoint last_char (s : string) : option ascii :=
  match s with
  | EmptyString => None
  | String c EmptyString => Some c
  | String _ rest => last_char rest
  end.

End PyStr.

(** ** Calls that may raise *)

(** The result of a call: a value, or an exception with the text [str(e)]. *)
Inductive outcome (A : Type) : Type :=
| Ok (a : A)
| Raise (msg : string).
Arguments Ok {A} a.
Arguments Raise {A} msg.

Definition bind {A B : Type} (c : outcome A) (k : A -> outcome B) : outcome B :=
  match c with
  | Ok a => k a
  | Raise msg => Raise msg
  end.

Notation "'do' x <- c ; k" := (bind c (fun x => k))
  (at level 10, x name, c at level 100, k at level 200).

(** ** Python lists and dicts *)

Module PyList.

(** [l.sort(key=...)] / [ORDER BY]: a stable insertion sort; [before a b]
    says that [a] may stand in front of [b]. *)
Section Sort.
Context {A : Type} (before : A -> A -> bool).

Fixpoint insert_sorted (x : A) (l : list A) : list A :=
  match l with
  | [] => [x]
  | y :: rest =>
      if before x y then x :: y :: rest else y :: insert_sorted x rest
  end.

Definition stable_sort (l : list A) : list A :=
  fold_right insert_sorted [] l.
End Sort.

(** [if k not in d: d[k] = init] followed by [d[k] = f(d[k])], on a dict in
    insertion order. *)
Fixpoint dict_update {V : Type} (d : list (string * V)) (k : string)
  (init : V) (f : V -> V) : list (string * V) :=
  match d with
  | [] => [(k, f init)]
  | (k', v) :: rest =>
      if String.eqb k' k then (k', f v) :: rest
      else (k', v) :: dict_update rest k init f
  end.

(** [d.get(k, default)]. *)
Fixpoint dict_get {V : Type} (d : list (string * V)) (k : string)
  (default : V) : V :=
  match d with
  | [] => default
  | (k', v) :: rest => if String.eqb k' k then v else dict_get rest k default
  end.

Definition keys {V : Type} (d : list (string * V)) : list string := map fst d.

End PyList.

(** ** The transcription core ([AudioTranscriber], src/test.py) *)

Module Core.
Import Num PyList.
Local Open Scope Q_scope.

(** One entry of a Whisper segment's ["words"] list. *)
Record WordInfo := mkWordInfo {
  wi_word : string;
  wi_start : Q;
  wi_end : Q
}.

(** One Whisper segment; ["words"] and ["avg_logprob"] may be absent. *)
Record Segment := mkSegment {
  seg_start : Q;
  seg_end : Q;
  seg_text : string;
  seg_words : option (list WordInfo);
  seg_avg_logprob : option Q
}.

Record WhisperResult := mkWhisperResult {
  wr_language : option string;
  wr_segments : option (list Segment)
}.

(** [speaker_segments]: speaker id to its [(start, end)] intervals, in the
    dict's insertion order. *)
Definition SpeakerSegments := list (string * list (Q * Q)).

(** One entry of [transcript_words]. *)
Record TranscriptEntry := mkEntry {
  word : string;
  start : Q;
  end_ : Q;
  speaker : string
}.

(** One entry of [speakers]. *)
Record SpeakerStat := mkStat {
  id : string;
  total_sec : Q
}.

(** The result object of [process_audio]. *)
Record Result := mkResult {
  language : string;
  duration_sec : Q;
  transcript : list TranscriptEntry;
  speakers : list SpeakerStat;
  confidence : Q
}.

Definition default_speaker : string := "speaker_1".

(** [whisper_result.get("segments", [])]. *)
Definition get_segments (wr : WhisperResult) : list Segment :=
  match wr_segments wr with Some l => l | None => [] end.

(** First loop of [assign_speakers_to_words]: the words of every segment
    that has a ["words"] entry. *)
Definition timestamped_words (segs : list Segment) : list WordInfo :=
  flat_map (fun seg => match seg_words seg with Some ws => ws | None => [] end)
           segs.

(** [enumerate(words)] with the body of the inner loop of lines 181-188. *)
Fixpoint spread (seg_start word_duration : Q) (i : Z) (words : list string)
  : list WordInfo :=
  match words with
  | [] => []
  | w :: rest =>
      mkWordInfo w (fl (seg_start + fl (inject_Z i * word_duration)))
                   (fl (seg_start + fl (inject_Z (i + 1) * word_duration)))
      :: spread seg_start word_duration (i + 1) rest
  end.

(** Lines 177-188 for one segment. *)
Definition synth_words (seg : Segment) : list WordInfo :=
  let words := PyStr.split (seg_text seg) in
  let segment_duration := fl (seg_end seg - seg_start seg) in
  let word_duration :=
    match words with
    | [] => 0
    | _ => fl (segment_duration / inject_Z (Z.of_nat (length words)))
    end in
  spread (seg_start seg) word_duration 0 words.

(** Lines 168-188: [all_words]. *)
Definition all_words (wr : WhisperResult) : list WordInfo :=
  match timestamped_words (get_segments wr) with
  | [] => flat_map synth_words (get_segments wr)
  | ws => ws
  end.

Definition contains (word_mid : Q) (iv : Q * Q) : bool :=
  Qleb (fst iv) word_mid && Qleb word_mid (snd iv).

(** The inner [for seg_start, seg_end in segments] with its [break]: the
    value of [assigned_speaker] when the loop is left. *)
Fixpoint scan_intervals (word_mid : Q) (speaker_id assigned : string)
  (segments : list (Q * Q)) : string :=
  match segments with
  | [] => assigned
  | iv :: rest =>
      if contains word_mid iv then speaker_id
      else scan_intervals word_mid speaker_id assigned rest
  end.

(** The outer [for speaker_id, segments in speaker_segments.items()] with
    its [if assigned_speaker != "speaker_1": break]. *)
Fixpoint scan_speakers (word_mid : Q) (assigned : string)
  (speaker_segments : SpeakerSegments) : string :=
  match speaker_segments with
  | [] => assigned
  | (speaker_id, segments) :: rest =>
      let assigned' := scan_intervals word_mid speaker_id assigned segments in
      if negb (String.eqb assigned' default_speaker) then assigned'
      else scan_speakers word_mid assigned' rest
  end.

(** [(word_start + word_end) / 2]. *)
Definition word_mid (w : WordInfo) : Q := fl (fl (wi_start w + wi_end w) / 2).

(** Lines 191-205: the label given to one word. *)
Definition assign_speaker (speaker_segments : SpeakerSegments) (w : WordInfo)
  : string :=
  scan_speakers (word_mid w) default_speaker speaker_segments.

(** Lines 207-212: the emitted entry. *)
Definition annotate (speaker_segments : SpeakerSegments) (w : WordInfo)
  : TranscriptEntry :=
  mkEntry (PyStr.strip (wi_word w)) (round2 (wi_start w)) (round2 (wi_end w))
          (assign_speaker speaker_segments w).

Definition assign_speakers_to_words (wr : WhisperResult)
  (speaker_segments : SpeakerSegments) : list TranscriptEntry :=
  map (annotate speaker_segments) (all_words wr).

(** What the double loop of [assign_speakers_to_words] returns for a list
    of owners in scan order: the first owner other than the default label. *)
Definition first_other_label (owners : list string) : string :=
  match List.find (fun o => negb (String.eqb o default_speaker)) owners with
  | Some o => o
  | None => default_speaker
  end.

(** *** [perform_diarization] *)

(** [f"speaker_{speaker_id}"]. *)
Definition speaker_label (speaker_id : Z) : string :=
  "speaker_" ++ pretty speaker_id.

Definition segment_length : Q := 30.

(** The [while current_time < duration] loop of lines 120-124; [None] when
    [fuel] iterations do not reach the end of the recording. *)
Fixpoint fallback_loop (fuel : nat) (duration current_time : Q)
  (speaker_id : Z) : option (list (string * Q * Q)) :=
  if Qltb current_time duration then
    match fuel with
    | O => None
    | S fuel' =>
        let end_time := py_min (current_time + segment_length) duration in
        option_map (cons (speaker_label speaker_id, current_time, end_time))
          (fallback_loop fuel' duration end_time
             (if Z.eqb speaker_id 1 then 2 else 1)%Z)
    end
  else Some [].

(** Enough iterations for a recording of [duration] seconds. *)
Definition fallback_fuel (duration : Q) : nat :=
  Z.to_nat (Qceiling (duration / segment_length)).

(** Lines 127-131: the dict built from the labelled windows. *)
Definition group_segments (segments : list (string * Q * Q)) : SpeakerSegments :=
  fold_left (fun d '(speaker, s, e) =>
               dict_update d speaker [] (fun l => (l ++ [(s, e)])%list))
            segments [].

(** [speaker.split('_')[-1]]: what follows the last underscore. *)
Fixpoint after_last_underscore (s : string) : string :=
  match s with
  | EmptyString => ""
  | String c rest =>
      if Ascii.eqb c "_"%char then after_last_underscore rest
      else if existsb (Ascii.eqb "_"%char) (list_ascii_of_string rest)
           then after_last_underscore rest
           else s
  end.

(** Line 141. *)
Definition speaker_id_of (speaker : string) : string :=
  "speaker_" ++ (if existsb (Ascii.eqb "_"%char) (list_ascii_of_string speaker)
                 then after_last_underscore speaker else speaker).

(** What the audio file and the two engines give for one [audio_path]. *)
Record Audio := mkAudio {
  (** the duration returned by [load_audio] *)
  load_audio : outcome Q;
  (** [transcribe_with_whisper] *)
  transcribe_with_whisper : outcome WhisperResult;
  (** [self.diarization_pipeline]: [None], or its tracks
      [(turn.start, turn.end, speaker)] or the exception it raises *)
  diarization_pipeline : option (outcome (list (Q * Q * string)))
}.

Definition single_speaker_fallback : SpeakerSegments :=
  [("speaker_1", [(0, 999999)])].

Definition fallback_windows (duration : Q) : list (string * Q * Q) :=
  match fallback_loop (fallback_fuel duration) duration 0 1 with
  | Some segments => segments
  | None => []
  end.

Definition perform_diarization (a : Audio) : outcome SpeakerSegments :=
  match diarization_pipeline a with
  | None =>
      do duration <- load_audio a;
      Ok (group_segments (fallback_windows duration))
  | Some (Ok tracks) =>
      Ok (group_segments
            (map (fun '(s, e, speaker) => (speaker_id_of speaker, s, e)) tracks))
  | Some (Raise _) => Ok single_speaker_fallback
  end.

(** *** [calculate_speaker_stats] *)

Definition add_word_time (speaker_times : list (string * Q)) (w : TranscriptEntry)
  : list (string * Q) :=
  dict_update speaker_times (speaker w) 0 (fun t => t + (end_ w - start w)).

Definition speaker_times (transcript_words : list TranscriptEntry)
  : list (string * Q) :=
  fold_left add_word_time transcript_words [].

(** [key=lambda x: x["total_sec"], reverse=True]. *)
Definition by_total_desc (a b : SpeakerStat) : bool :=
  Qleb (total_sec b) (total_sec a).

(** Lines 239-242: one entry of [speakers]. *)
Definition to_stat (e : string * Q) : SpeakerStat :=
  let '(speaker_id, total_time) := e in mkStat speaker_id (round2 total_time).

Definition calculate_speaker_stats (transcript_words : list TranscriptEntry)
  : list SpeakerStat :=
  stable_sort by_total_desc (map to_stat (speaker_times transcript_words)).

(** *** [calculate_confidence] and [process_audio] *)

Section Pipeline.
(** [np.exp]. *)
Variable np_exp : Q -> Q.

Definition default_confidence : Q := 85 # 100.

Definition segment_confidences (segs : list Segment) : list Q :=
  flat_map (fun seg =>
              match seg_avg_logprob seg with
              | Some lp => [py_max 0 (py_min 1 (np_exp lp))]
              | None => []
              end) segs.

Definition calculate_confidence (wr : WhisperResult) : Q :=
  match wr_segments wr with
  | None => default_confidence
  | Some segs =>
      match segment_confidences segs with
      | [] => default_confidence
      | cs => round2 (Qsum cs / inject_Z (Z.of_nat (length cs)))
      end
  end.

Definition process_audio (a : Audio) : outcome Result :=
  do duration <- load_audio a;
  do whisper_result <- transcribe_with_whisper a;
  do speaker_segments <- perform_diarization a;
  let transcript_words :=
    assign_speakers_to_words whisper_result speaker_segments in
  let speakers := calculate_speaker_stats transcript_words in
  let confidence := calculate_confidence whisper_result in
  let language :=
    match wr_language whisper_result with Some l => l | None => "en" end in
  Ok (mkResult language (round2 duration) transcript_words speakers
               confidence).
End Pipeline.

End Core.

(** ** The tables (src/app/models.py) and the result queries (src/app/main.py) *)

Module Store.
Import Num PyList Core.
Local Open Scope Q_scope.

(** The values written to the [status] column. *)
Inductive Status := pending | processing | completed | failed.

Definition Status_eqb (a b : Status) : bool :=
  match a, b with
  | pending, pending | processing, processing
  | completed, completed | failed, failed => true
  | _, _ => false
  end.

(** A row of [transcription_sessions]. *)
Record TranscriptionSession := mkSession {
  user_id : string;
  audio_source : string;
  source_type : string;
  status : Status;
  progress : Z;
  created_at : Z;
  started_at : option Z;
  completed_at : option Z;
  language : option string;
  duration_seconds : option Q;
  confidence_score : option Q;
  error_message : option string
}.

(** A row of [transcript_words]. *)
Record TranscriptWord := mkWordRow {
  tw_session_id : string;
  tw_word : string;
  start_time : Q;
  end_time : Q;
  speaker_label : string
}.

(** A row of [speakers]. *)
Record Speaker := mkSpeakerRow {
  sp_session_id : string;
  speaker_id : string;
  total_seconds : Q
}.

(** The database: sessions by primary key, child rows in insertion order. *)
Record Database := mkDatabase {
  sessions : gmap string TranscriptionSession;
  words : list TranscriptWord;
  speaker_rows : list Speaker
}.

(** The row written for one transcript entry (lines 136-142). *)
Definition word_row (task_id : string) (w : TranscriptEntry) : TranscriptWord :=
  mkWordRow task_id (word w) (start w) (end_ w) (speaker w).

(** The row written for one speaker entry (lines 147-151). *)
Definition speaker_row (task_id : string) (s : SpeakerStat) : Speaker :=
  mkSpeakerRow task_id (id s) (total_sec s).

(** [save_transcription_results] (src/app/tasks.py, lines 132-154). *)
Definition save_transcription_results (d : Database) (task_id : string)
  (result : Result) : Database :=
  mkDatabase (sessions d)
    (words d ++ map (word_row task_id) (transcript result))%list
    (speaker_rows d ++ map (speaker_row task_id) (speakers result))%list.

(** [x or default] on a nullable string column. *)
Definition str_or (x : option string) (default : string) : string :=
  match x with
  | Some s => if PyStr.is_empty s then default else s
  | None => default
  end.

(** [x or default] on a nullable float column: [0.0] is falsy. *)
Definition float_or (x : option Q) (default : Q) : Q :=
  match x with
  | Some q => if Qeq_bool q 0 then default else q
  | None => default
  end.

(** [.order_by(TranscriptWord.start_time)].  The database fixes no order
    among rows with equal keys; the model keeps them in insertion order, and
    what is stated about the order of a result read back holds for every
    order of such rows. *)
Definition by_start_time (a b : TranscriptWord) : bool :=
  Qleb (start_time a) (start_time b).

(** [.order_by(Speaker.total_seconds.desc())]. *)
Definition by_total_seconds_desc (a b : Speaker) : bool :=
  Qleb (total_seconds b) (total_seconds a).

(** [get_transcription_result] (src/app/main.py, lines 476-524); the
    exception is the 404 of line 481. *)
Definition get_transcription_result (task_id : string) (d : Database)
  : outcome Result :=
  match sessions d !! task_id with
  | None => Raise "Task not found"
  | Some session =>
      let words :=
        stable_sort by_start_time
          (List.filter (fun w => String.eqb (tw_session_id w) task_id) (words d)) in
      let speakers :=
        stable_sort by_total_seconds_desc
          (List.filter (fun s => String.eqb (sp_session_id s) task_id)
                  (speaker_rows d)) in
      Ok (mkResult
            (str_or (language session) "en")
            (float_or (duration_seconds session) 0)
            (map (fun w => mkEntry (tw_word w) (start_time w) (end_time w)
                                   (speaker_label w)) words)
            (map (fun s => mkStat (speaker_id s) (total_seconds s)) speakers)
            (float_or (confidence_score session) default_confidence))
  end.

(** No child rows are stored for [task_id] yet. *)
Definition no_rows_for (task_id : string) (d : Database) : Prop :=
  (forall w, In w (words d) -> tw_session_id w <> task_id) /\
  (forall s, In s (speaker_rows d) -> sp_session_id s <> task_id).

(** The transcript is in non-decreasing order of start time. *)
Definition sorted_by_start (es : list TranscriptEntry) : Prop :=
  Sorted (fun a b => start a <= start b) es.

(** The transcript is in increasing order of start time: no two words start
    together. *)
Definition strictly_by_start (es : list TranscriptEntry) : Prop :=
  Sorted (fun a b => start a < start b) es.

(** The totals go down from one speaker to the next: no two are equal. *)
Definition strictly_by_total (stats : list SpeakerStat) : Prop :=
  Sorted (fun a b => total_sec b < total_sec a) stats.

End Store.

(** ** The background task (src/app/tasks.py) and job creation (src/app/main.py) *)

Module Tasks.
Import Num PyList Core Store.

(** The states passed to [current_task.update_state]. *)
Inductive CeleryState := PROGRESS (p : Z) | SUCCESS | FAILURE.

(** What one worker process meets while it runs one task.  The commits of
    the [try] block are taken to succeed; every other external call may
    raise. *)
Record Worker := mkWorker {
  (** [get_transcriber()]: loading the models *)
  get_transcriber : outcome unit;
  (** the recording behind an [audio_source] *)
  open_audio : string -> Audio;
  (** the inserts and the commit of [save_transcription_results] *)
  persist : outcome unit;
  (** [current_task.update_state(state=...)] *)
  update_state : CeleryState -> outcome unit;
  (** the database access of the exception handler (lines 109-114), whose
      failure is swallowed by [except: pass] *)
  record_failure : outcome unit
}.

(** The database, the log of committed session rows (oldest first) and the
    clock read by [datetime.utcnow()]. *)
Record World := mkWorld {
  db : Database;
  history : list (string * TranscriptionSession);
  clock : Z
}.

(** Stateful code that may raise; the state written so far survives. *)
Definition M (A : Type) : Type := World -> outcome A * World.

Definition ret {A : Type} (a : A) : M A := fun w => (Ok a, w).
Definition raise {A : Type} (msg : string) : M A := fun w => (Raise msg, w).
Definition lift {A : Type} (c : outcome A) : M A := fun w => (c, w).

Definition mbind {A B : Type} (c : M A) (k : A -> M B) : M B :=
  fun w =>
    match c w with
    | (Ok a, w') => k a w'
    | (Raise msg, w') => (Raise msg, w')
    end.

(** [try: c except Exception as e: h(str(e))]. *)
Definition try_except {A : Type} (c : M A) (h : string -> M A) : M A :=
  fun w =>
    match c w with
    | (Ok a, w') => (Ok a, w')
    | (Raise msg, w') => h msg w'
    end.

Notation "x <~ c ;; k" := (mbind c (fun x => k))
  (at level 89, c at next level, right associativity).
Notation "c ;;; k" := (mbind c (fun _ => k))
  (at level 89, right associativity).

Definition utcnow : M Z :=
  fun w => (Ok (clock w), mkWorld (db w) (history w) (clock w + 1)).

(** [await db.get(TranscriptionSession, task_id)]. *)
Definition db_get (task_id : string) : M (option TranscriptionSession) :=
  fun w => (Ok (sessions (db w) !! task_id), w).

(** The attribute writes on [session] followed by [await db.commit()]. *)
Definition commit (task_id : string) (session : TranscriptionSession) : M unit :=
  fun w =>
    (Ok tt,
     mkWorld (mkDatabase (<[task_id := session]> (sessions (db w)))
                         (words (db w)) (speaker_rows (db w)))
             (history w ++ [(task_id, session)])
             (clock w)).

Definition set_processing (s : TranscriptionSession) (now : Z) : TranscriptionSession :=
  mkSession (user_id s) (audio_source s) (source_type s) processing 10
            (created_at s) (Some now) (completed_at s) (language s)
            (duration_seconds s) (confidence_score s) (error_message s).

Definition set_progress (s : TranscriptionSession) (p : Z) : TranscriptionSession :=
  mkSession (user_id s) (audio_source s) (source_type s) (status s) p
            (created_at s) (started_at s) (completed_at s) (language s)
            (duration_seconds s) (confidence_score s) (error_message s).

Definition set_completed (s : TranscriptionSession) (now : Z) (result : Result)
  : TranscriptionSession :=
  mkSession (user_id s) (audio_source s) (source_type s) completed 100
            (created_at s) (started_at s) (Some now)
            (Some (Core.language result)) (Some (duration_sec result))
            (Some (confidence result)) (error_message s).

Definition set_failed (s : TranscriptionSession) (e : string) (now : Z)
  : TranscriptionSession :=
  mkSession (user_id s) (audio_source s) (source_type s) failed (progress s)
            (created_at s) (started_at s) (Some now) (language s)
            (duration_seconds s) (confidence_score s) (Some e).

(** Lines 227-237 of src/app/main.py: the row of a new job.  [progress]
    takes the column default. *)
Definition create_session (task_id user audio_source source_type : string)
  : M unit :=
  now <~ utcnow ;;
  commit task_id
    (mkSession user audio_source source_type pending 0 now None None None None
               None None).

Section Task.
Variable np_exp : Q -> Q.

(** [await save_transcription_results(db, task_id, result)]. *)
Definition save (wk : Worker) (task_id : string) (result : Result) : M unit :=
  lift (persist wk) ;;;
  (fun w =>
     (Ok tt,
      mkWorld (save_transcription_results (db w) task_id result)
              (history w) (clock w))).

(** [run_transcription] (lines 46-122). *)
Definition process_transcription (wk : Worker) (task_id audio_source : string)
  : M Result :=
  try_except
    (found <~ db_get task_id ;;
     match found with
     | None => raise ("Session " ++ task_id ++ " not found")
     | Some session =>
         now <~ utcnow ;;
         let session := set_processing session now in
         commit task_id session ;;;
         lift (update_state wk (PROGRESS 10)) ;;;
         lift (get_transcriber wk) ;;;
         let session := set_progress session 20 in
         commit task_id session ;;;
         lift (update_state wk (PROGRESS 20)) ;;;
         result <~ lift (process_audio np_exp (open_audio wk audio_source)) ;;
         let session := set_progress session 80 in
         commit task_id session ;;;
         lift (update_state wk (PROGRESS 80)) ;;;
         save wk task_id result ;;;
         now <~ utcnow ;;
         let session := set_completed session now result in
         commit task_id session ;;;
         lift (update_state wk SUCCESS) ;;;
         ret result
     end)
    (fun e =>
       try_except
         (lift (record_failure wk) ;;;
          found <~ db_get task_id ;;
          match found with
          | Some session =>
              now <~ utcnow ;;
              commit task_id (set_failed session e now)
          | None => ret tt
          end)
         (fun _ => ret tt) ;;;
       lift (update_state wk FAILURE) ;;;
       raise e).

(** A job from submission to the end of its task. *)
Definition lifecycle (wk : Worker)
  (task_id user audio_source source_type : string) : M Result :=
  create_session task_id user audio_source source_type ;;;
  process_transcription wk task_id audio_source.
End Task.

(** The committed states of one job, oldest first. *)
Definition job_history (task_id : string) (w : World) : list TranscriptionSession :=
  map snd (List.filter (fun e => String.eqb (fst e) task_id) (history w)).

Definition empty_world : World := mkWorld (mkDatabase ∅ [] []) [] 0.

(** A run in which nothing raises and the audio pipeline returns [r]. *)
Definition all_ok (np_exp : Q -> Q) (wk : Worker) (audio_source : string)
  (r : Result) : Prop :=
  (forall s, update_state wk s = Ok tt) /\
  get_transcriber wk = Ok tt /\
  process_audio np_exp (open_audio wk audio_source) = Ok r /\
  persist wk = Ok tt.

End Tasks.

(** ** The job state machine, as specified *)

Module JobSpec.
Import Core Store Tasks.

(** The transitions of the job state machine:
    [pending -> processing -> {completed, failed}]. *)
Definition allowed (a b : Status) : bool :=
  match a, b with
  | pending, processing
  | processing, processing
  | processing, completed
  | processing, failed => true
  | _, _ => false
  end.

(** One observed change: an allowed transition, progress not going down. *)
Definition step_ok (a b : TranscriptionSession) : bool :=
  allowed (status a) (status b) && (progress a <=? progress b)%Z.

Fixpoint steps_ok (h : list TranscriptionSession) : bool :=
  match h with
  | a :: rest =>
      match rest with
      | b :: _ => step_ok a b && steps_ok rest
      | [] => true
      end
  | [] => true
  end.

(** "Progress is exactly 100 if and only if status is completed." *)
Definition progress_ok (s : TranscriptionSession) : bool :=
  Bool.eqb (progress s =? 100)%Z (Status_eqb (status s) completed).

Definition starts_pending (h : list TranscriptionSession) : bool :=
  match h with
  | s :: _ => Status_eqb (status s) pending
  | [] => false
  end.

(** The committed states of a job obey the state machine. *)
Definition follows_state_machine (h : list TranscriptionSession) : bool :=
  starts_pending h && steps_ok h && forallb progress_ok h.

(** The pipeline exceptions of a task: the first call that raises is the
    model loading, the audio processing (an adapter or the fusion), or the
    persistence step, and it raises [msg]. *)
Inductive pipeline_exception (np_exp : Q -> Q) (wk : Worker)
  (audio_source : string) (msg : string) : Prop :=
| loading_failure :
    update_state wk (PROGRESS 10) = Ok tt ->
    get_transcriber wk = Raise msg ->
    pipeline_exception np_exp wk audio_source msg
| processing_failure :
    update_state wk (PROGRESS 10) = Ok tt ->
    get_transcriber wk = Ok tt ->
    update_state wk (PROGRESS 20) = Ok tt ->
    process_audio np_exp (open_audio wk audio_source) = Raise msg ->
    pipeline_exception np_exp wk audio_source msg
| persistence_failure (result : Result) :
    update_state wk (PROGRESS 10) = Ok tt ->
    get_transcriber wk = Ok tt ->
    update_state wk (PROGRESS 20) = Ok tt ->
    process_audio np_exp (open_audio wk audio_source) = Ok result ->
    update_state wk (PROGRESS 80) = Ok tt ->
    persist wk = Raise msg ->
    pipeline_exception np_exp wk audio_source msg.


(** "The job's status is set to failed with error_message equal to the
    exception's text, and the result fields remain null." *)
Definition failure_recorded (task_id msg : string) (w : World) : Prop :=
  exists job,
    sessions (db w) !! task_id = Some job /\
    status job = failed /\
    error_message job = Some msg /\
    Store.language job = None /\
    duration_seconds job = None /\
    confidence_score job = None.

End JobSpec.

(** ** The rate limiter (src/app/rate_limiter.py) *)

Module RateLimiter.
Local Open Scope Z_scope.

(** A Redis sorted set (member to score) with the deadline set by [EXPIRE]. *)
Record SortedSet := mkSortedSet {
  members : gmap string Z;
  deadline : option Z
}.

(** The Redis key space. *)
Abbreviation Redis := (gmap string SortedSet).

(** The sorted set under [key] at time [now]: an expired or missing key is
    the empty set. *)
Definition live (now : Z) (r : Redis) (key : string) : gmap string Z :=
  match r !! key with
  | Some z =>
      match deadline z with
      | Some d => if d <=? now then ∅ else members z
      | None => members z
      end
  | None => ∅
  end.

(** [ZREMRANGEBYSCORE key lo hi] on the set's members. *)
Definition zremrangebyscore (lo hi : Z) (m : gmap string Z) : gmap string Z :=
  filter (fun e : string * Z => negb ((lo <=? e.2) && (e.2 <=? hi)) = true) m.

(** [ZCARD]. *)
Definition zcard (m : gmap string Z) : Z := Z.of_nat (size m).

(** [ZADD key {member: score}]. *)
Definition zadd (member : string) (score : Z) (m : gmap string Z) : gmap string Z :=
  <[member := score]> m.

Record RateLimiter := mkRateLimiter {
  max_requests : Z;
  window_seconds : Z
}.

(** [__init__]. *)
Definition init (max_requests window_minutes : Z) : RateLimiter :=
  mkRateLimiter max_requests (window_minutes * 60).

Inductive Verdict :=
| Allowed
| HTTPException (status_code : Z) (detail : string).

Definition detail (rl : RateLimiter) : string :=
  "Rate limit exceeded. Maximum " ++ pretty (max_requests rl)
  ++ " requests per " ++ pretty (window_seconds rl / 60) ++ " minute(s)".

(** The sorted set left under [key] by the pipeline of lines 31-45, run at
    the second [current_time]. *)
Definition pipeline_members (rl : RateLimiter) (key : string) (current_time : Z)
  (r : Redis) : gmap string Z :=
  let window_start := current_time - window_seconds rl in
  zadd (pretty current_time) current_time
       (zremrangebyscore 0 window_start (live current_time r key)).

(** [results[1]]: the reply of [ZCARD]. *)
Definition request_count (rl : RateLimiter) (key : string) (current_time : Z)
  (r : Redis) : Z :=
  let window_start := current_time - window_seconds rl in
  zcard (zremrangebyscore 0 window_start (live current_time r key)).

(** [check_rate_limit] at the second [current_time = int(time.time())].
    [redis_up = false] is a [redis.RedisError] from the pipeline. *)
Definition check_rate_limit (rl : RateLimiter) (redis_up : bool) (key : string)
  (current_time : Z) (r : Redis) : Verdict * Redis :=
  if redis_up then
    let r' := <[key := mkSortedSet (pipeline_members rl key current_time r)
                         (Some (current_time + window_seconds rl))]> r in
    if max_requests rl <=? request_count rl key current_time r
    then (HTTPException 429 (detail rl), r')
    else (Allowed, r')
  else (Allowed, r).

(** Successive calls for one key at the given seconds. *)
Fixpoint calls (rl : RateLimiter) (key : string) (times : list Z) (r : Redis)
  : list Verdict * Redis :=
  match times with
  | [] => ([], r)
  | t :: rest =>
      let first := check_rate_limit rl true key t r in
      let others := calls rl key rest (snd first) in
      (fst first :: fst others, snd others)
  end.

Definition is_allowed (v : Verdict) : bool :=
  match v with Allowed => true | HTTPException _ _ => false end.

End RateLimiter.

(** ** The rate limiter, as specified *)

Module LimiterSpec.
Import RateLimiter.
Local Open Scope Z_scope.

(** "Deny without recording the new attempt": after a denied call the set
    under the key is the set before it, less the evicted entries. *)
Definition denied_call_not_recorded (rl : RateLimiter) (key : string)
  (current_time : Z) (r : Redis) : Prop :=
  forall code why r',
    check_rate_limit rl true key current_time r = (HTTPException code why, r') ->
    live current_time r' key =
    zremrangebyscore 0 (current_time - window_seconds rl)
                     (live current_time r key).

End LimiterSpec.

(** ** The transcription core, as specified *)

Module CoreSpec.
Import Num PyList Core.
Local Open Scope Q_scope.

(** The owners of the intervals that contain [m], in scan order: speakers in
    the order of the mapping, each speaker's intervals in list order. *)
Definition containing (m : Q) (speaker_segments : SpeakerSegments)
  : list string :=
  flat_map (fun '(speaker_id, segments) =>
              map (fun _ => speaker_id) (List.filter (contains m) segments))
           speaker_segments.

(** "Assign the label of the first interval such that
    [interval.start <= m <= interval.end]; if no interval contains [m],
    assign the default label." *)
Definition first_interval_label (speaker_segments : SpeakerSegments)
  (w : WordInfo) : string :=
  match containing (word_mid w) speaker_segments with
  | owner :: _ => owner
  | [] => default_speaker
  end.

(** [end - start] of one annotated word. *)
Definition word_seconds (w : TranscriptEntry) : Q := end_ w - start w.

(** "Sum of [end - start]" over the words assigned the label [l]. *)
Definition label_time (ws : list TranscriptEntry) (l : string) : Q :=
  Qsum (map word_seconds
            (List.filter (fun w => String.eqb (speaker w) l) ws)).

(** "Sum of [end - start] over all annotated words". *)
Definition total_time (ws : list TranscriptEntry) : Q :=
  Qsum (map word_seconds ws).

Definition sorted_desc (stats : list SpeakerStat) : Prop :=
  Sorted (fun a b => total_sec b <= total_sec a) stats.

(** The speaker summary as the specification describes it: one entry per
    distinct label, each total the sum of the durations of the label's
    words, descending totals, and the totals adding up to the whole. *)
Definition summary_as_specified (ws : list TranscriptEntry)
  (stats : list SpeakerStat) : Prop :=
  List.NoDup (map id stats) /\
  (forall l, In l (map id stats) <-> In l (map speaker ws)) /\
  (forall s, In s stats -> total_sec s == label_time ws (id s)) /\
  sorted_desc stats /\
  Qsum (map total_sec stats) == total_time ws.

Definition other_speaker (speaker_id : Z) : Z :=
  if Z.eqb speaker_id 1 then 2%Z else 1%Z.

(** "A two-speaker alternation over fixed-length windows (30 seconds)
    spanning the whole recording": the windows follow one another from
    [from] to [duration], each is 30 seconds long or is cut at the end of the
    recording, and the labels alternate, starting with [speaker_id]. *)
Fixpoint alternation (from : Q) (speaker_id : Z)
  (windows : list (string * Q * Q)) (duration : Q) : Prop :=
  match windows with
  | [] => duration <= from
  | (label, s, e) :: rest =>
      label = speaker_label speaker_id /\
      s == from /\ s < e /\ e <= duration /\ e - s <= 30 /\
      (e - s == 30 \/ e == duration) /\
      alternation e (other_speaker speaker_id) rest duration
  end.

(** "Whitespace-delimited tokens": [text] is the tokens in order, each
    non-empty and free of white space, separated by non-empty runs of white
    space, with white space allowed at both ends. *)
Fixpoint whitespace_delimited (tokens : list string) (text : string) : Prop :=
  match tokens with
  | [] => PyStr.all_space text = true
  | tok :: rest =>
      exists pre post,
        text = (pre ++ tok ++ post)%string /\
        PyStr.all_space pre = true /\
        PyStr.is_empty tok = false /\ PyStr.no_space tok = true /\
        match post with
        | EmptyString => rest = []
        | String c post' =>
            PyStr.isspace c = true /\ whitespace_delimited rest post'
        end
  end.

(** How far the binary64 time of a synthesized word may be from
    [start + i * (d / n)]: [2 ** -50] of [|start| + |end|], and [2 ** -1075]
    for each of the roundings near zero. *)
Definition spread_tolerance (seg : Segment) (n : Z) : Q :=
  (Qabs (seg_start seg) + Qabs (seg_end seg)) * (1 # 1125899906842624)
  + inject_Z (4 * n + 11) * eta.

(** The mapping of the diarization-unavailable fallback, as specified. *)
Definition two_speaker_alternation (duration : Q) (mapping : SpeakerSegments)
  : Prop :=
  exists windows,
    alternation 0 1 windows duration /\ mapping = group_segments windows.

End CoreSpec.

(** ** Counting and ordering helpers for the transcription core *)

Module CoreShape.
Import PyList Core.

(** The number of entries of a segment's ["words"] list; 0 without one. *)
Definition timed_count (seg : Segment) : nat :=
  match seg_words seg with Some ws => length ws | None => 0%nat end.

(** The distinct labels of a list, in the order of their first appearance. *)
Definition first_appearances (labels : list string) : list string :=
  fold_left (fun seen l =>
               if existsb (String.eqb l) seen then seen else (seen ++ [l])%list)
            labels [].

(** The entry's total is [t]. *)
Definition has_total (t : Q) (s : SpeakerStat) : bool :=
  Qeq_bool (total_sec s) t.

(** ['_' in s]. *)
Definition has_underscore (s : string) : bool :=
  existsb (Ascii.eqb "_"%char) (list_ascii_of_string s).

End CoreShape.

(** ** The sliding window of the rate limiter, by seconds *)

Module SlidingWindow.
Import RateLimiter.
Local Open Scope Z_scope.

(** The distinct seconds, among those of the earlier attempts [seen], that
    are less than a window older than [t]. *)
Definition counted (rl : RateLimiter) (t : Z) (seen : list Z) : list Z :=
  remove_dups (filter (fun s => t - window_seconds rl < s) seen).

(** The verdicts ([true]: allowed) of the calls at [times] after attempts at
    the seconds [seen], when every attempt counts for its second. *)
Fixpoint verdicts_by_count (rl : RateLimiter) (seen times : list Z) : list bool :=
  match times with
  | [] => []
  | t :: rest =>
      negb (max_requests rl <=? Z.of_nat (length (counted rl t seen)))
      :: verdicts_by_count rl (t :: seen) rest
  end.

(** The seconds do not go back, and none is before [lo]. *)
Fixpoint ascending_from (lo : Z) (times : list Z) : Prop :=
  match times with
  | [] => True
  | t :: rest => lo <= t /\ ascending_from t rest
  end.

(** [n] consecutive seconds from [t]. *)
Fixpoint seconds_from (t : Z) (n : nat) : list Z :=
  match n with
  | O => []
  | S n' => t :: seconds_from (t + 1) n'
  end.

(** What the set under [key] holds for every later call: the seconds of the
    earlier attempts [seen], each under its decimal text. *)
Definition remembers (rl : RateLimiter) (key : string) (seen : list Z)
  (r : Redis) : Prop :=
  forall t, Forall (fun s => s <= t) seen ->
  forall k v,
    zremrangebyscore 0 (t - window_seconds rl) (live t r key) !! k = Some v <->
    k = pretty v /\ v ∈ seen /\ t - window_seconds rl < v.

End SlidingWindow.

(** ** The HTTP endpoints (src/app/main.py) and the credentials check
    (src/app/auth.py) *)

Module Api.
Import Core Store Tasks RateLimiter.
Local Open Scope Z_scope.

(** What an endpoint gives: its return value, or the [HTTPException] it
    raises. *)
Inductive response (A : Type) : Type :=
| Returns (a : A)
| Raises (status_code : Z) (detail : string).
Arguments Returns {A} a.
Arguments Raises {A} status_code detail.

(** *** Credentials *)

Definition SIMPLE_API_KEY : string := "transcription_api_key_123".

Definition verify_simple_api_key (api_key : string) : bool :=
  String.eqb api_key SIMPLE_API_KEY.

Section Auth.
(** [verify_jwt_token]: the ["sub"] claim of the decoded payload ([None]
    when the payload has none), or the exception raised. *)
Variable verify_jwt_token : string -> outcome (option string).

(** [get_current_user] (lines 136-146). *)
Definition get_current_user (credentials : string) : response string :=
  match verify_jwt_token credentials with
  | Ok (Some sub) => Returns sub
  | Ok None => Returns "anonymous"
  | Raise _ =>
      if verify_simple_api_key credentials then Returns "api_user"
      else Raises 401 "Invalid authentication token or API key"
  end.
End Auth.

(** *** Creating a job *)

Definition MAX_FILE_SIZE : Z := 500 * 1024 * 1024.

Definition ALLOWED_EXTENSIONS : list string := [".wav"; ".mp3"; ".flac"].

Definition file_too_large : string :=
  "File too large. Maximum size: " ++ pretty (MAX_FILE_SIZE / (1024 * 1024))
  ++ "MB".

(** [str.lower] on code points below 256. *)
Definition lower_char (c : ascii) : ascii :=
  let n := nat_of_ascii c in
  if (Nat.leb 65 n && Nat.leb n 90) || (Nat.leb 192 n && Nat.leb n 214)
     || (Nat.leb 216 n && Nat.leb n 222)
  then ascii_of_nat (n + 32) else c.

Fixpoint lower (s : string) : string :=
  match s with
  | EmptyString => EmptyString
  | String c rest => String (lower_char c) (lower rest)
  end.

(** An uploaded file, and what the file system does with it. *)
Record Upload := mkUpload {
  (** [Path(file.filename).suffix] *)
  suffix : string;
  (** [file.size] *)
  size : option Z;
  (** [str(UPLOAD_DIR / f"{task_id}_{file.filename}")] *)
  file_path : string;
  (** [aiofiles.open(file_path, 'wb')] *)
  opened : outcome unit;
  (** [len(await file.read())] *)
  content_length : outcome Z;
  (** [await f.write(content)] *)
  written : outcome unit;
  (** [file_path.unlink(missing_ok=True)] did not raise *)
  unlinked : bool
}.

(** The process-wide settings.  [redis_client] and [rate_limiter] are set
    together at start-up, so that one is [None] when the other is. *)
Record Server := mkServer {
  rate_limiter : option RateLimiter;
  (** [USE_CELERY] is ["true"] *)
  use_celery : bool;
  (** [', '.join(ALLOWED_EXTENSIONS)], in the iteration order of the set *)
  allowed_listing : string
}.

(** One call of [POST /api/v1/transcribe]. *)
Record Request := mkRequest {
  file : option Upload;
  url : option string;
  (** [request.client.host] *)
  client_host : string;
  (** the user returned by [get_current_user] *)
  current_user : string;
  (** [str(uuid.uuid4())] *)
  new_task_id : string;
  (** [int(time.time())], read by the rate limiter *)
  current_time : Z;
  (** the Redis pipeline does not raise *)
  redis_up : bool;
  (** handing the job to the background: [celery_app.send_task(...)], or
      building and starting the thread *)
  dispatch : outcome unit
}.

Inductive Via := celery | thread.

(** Redis, the database with its clock, the sizes of the files in the
    upload directory, and the jobs handed to the background, oldest first. *)
Record AppState := mkAppState {
  redis : Redis;
  world : World;
  files : gmap string Z;
  dispatched : list (Via * string * string)
}.

Record Created := mkCreated {
  c_task_id : string;
  c_status : string;
  c_message : string
}.

(** What the body of a [try] gives: a value, an [HTTPException] (re-raised
    as it is), or another exception (turned into a 500). *)
Inductive attempt (A : Type) : Type :=
| Done (a : A)
| Http (status_code : Z) (detail : string)
| Failed (e : string).
Arguments Done {A} a.
Arguments Http {A} status_code detail.
Arguments Failed {A} e.

(** [validate_audio_file] (lines 148-163). *)
Definition validate_audio_file (srv : Server) (f : Upload) : response unit :=
  if negb (existsb (String.eqb (lower (suffix f))) ALLOWED_EXTENSIONS)
  then Raises 400 ("Unsupported file format. Allowed: " ++ allowed_listing srv)
  else
    match size f with
    | Some n =>
        if (negb (n =? 0)) && (MAX_FILE_SIZE <? n)
        then Raises 400 file_too_large else Returns tt
    | None => Returns tt
    end.

(** Lines 203-218: the upload branch; the result is [audio_source]. *)
Definition save_upload (srv : Server) (f : Upload) (fs : gmap string Z)
  : attempt string * gmap string Z :=
  match validate_audio_file srv f with
  | Raises code why => (Http code why, fs)
  | Returns _ =>
      match opened f with
      | Raise e => (Failed e, fs)
      | Ok _ =>
          let fs := <[file_path f := 0]> fs in
          match content_length f with
          | Raise e => (Failed e, fs)
          | Ok n =>
              if MAX_FILE_SIZE <? n then (Http 400 file_too_large, fs)
              else
                match written f with
                | Raise e => (Failed e, fs)
                | Ok _ => (Done (file_path f), <[file_path f := n]> fs)
                end
          end
      end
  end.

(** The handler of lines 267-275: unlink the upload, if there is one. *)
Definition cleanup (rq : Request) (fs : gmap string Z) : gmap string Z :=
  match file rq with
  | Some f => if unlinked f then delete (file_path f) fs else fs
  | None => fs
  end.

(** [bool(url)]: [None] and the empty string are falsy. *)
Definition has_url (rq : Request) : bool :=
  match url rq with
  | Some u => negb (PyStr.is_empty u)
  | None => false
  end.

Definition has_file (rq : Request) : bool :=
  match file rq with Some _ => true | None => false end.

(** [f"user:{user_id}:{client_ip}"]. *)
Definition limit_key (rq : Request) : string :=
  "user:" ++ current_user rq ++ ":" ++ client_host rq.

(** [use_celery and redis_client] (line 242). *)
Definition via (srv : Server) : Via :=
  match rate_limiter srv with
  | Some _ => if use_celery srv then celery else thread
  | None => thread
  end.

(** Lines 181-183: the verdict of the rate limiter, and Redis after it;
    no limiter, no limit. *)
Definition limited (srv : Server) (rq : Request) (r : Redis) : Verdict * Redis :=
  match rate_limiter srv with
  | Some rl =>
      check_rate_limit rl (redis_up rq) (limit_key rq) (current_time rq) r
  | None => (Allowed, r)
  end.

(** Lines 202-224: [(audio_source, source_type)] when the [try] block comes
    to the new row, and the upload directory then. *)
Definition prepared (srv : Server) (rq : Request) (fs : gmap string Z)
  : attempt (string * string) * gmap string Z :=
  match file rq with
  | Some f =>
      (match fst (save_upload srv f fs) with
       | Done audio_source => Done (audio_source, "upload")
       | Http code why => Http code why
       | Failed e => Failed e
       end,
       snd (save_upload srv f fs))
  | None =>
      (Done (match url rq with Some u => u | None => "" end, "url"), fs)
  end.

(** [create_transcription_task] (lines 165-275).  The commit of the new row
    is taken to succeed. *)
Definition create_transcription_task (srv : Server) (rq : Request)
  (st0 : AppState) : response Created * AppState :=
  let st := mkAppState (snd (limited srv rq (redis st0))) (world st0)
                       (files st0) (dispatched st0) in
  match fst (limited srv rq (redis st0)) with
  | HTTPException code why => (Raises code why, st)
  | Allowed =>
      if negb (has_file rq) && negb (has_url rq)
      then (Raises 400 "Either 'file' upload or 'url' parameter is required", st)
      else if has_file rq && has_url rq
      then (Raises 400 "Provide either 'file' or 'url', not both", st)
      else
        let fs := snd (prepared srv rq (files st)) in
        match fst (prepared srv rq (files st)) with
        | Http code why =>
            (Raises code why,
             mkAppState (redis st) (world st) fs (dispatched st))
        | Failed e =>
            (Raises 500 ("Failed to create task: " ++ e),
             mkAppState (redis st) (world st) (cleanup rq fs) (dispatched st))
        | Done (audio_source, source_type) =>
            let world' :=
              snd (create_session (new_task_id rq) (current_user rq)
                                  audio_source source_type (world st)) in
            match dispatch rq with
            | Ok _ =>
                (Returns (mkCreated (new_task_id rq) "pending"
                            "Transcription task created successfully"),
                 mkAppState (redis st) world' fs
                   (dispatched st
                    ++ [(via srv, new_task_id rq, audio_source)])%list)
            | Raise e =>
                (Raises 500 ("Failed to create task: " ++ e),
                 mkAppState (redis st) world' (cleanup rq fs) (dispatched st))
            end
        end
  end.

(** The same request, with another outcome of the hand-over. *)
Definition with_dispatch (rq : Request) (o : outcome unit) : Request :=
  mkRequest (file rq) (url rq) (client_host rq) (current_user rq)
            (new_task_id rq) (current_time rq) (redis_up rq) o.

(** *** Reading a job *)

(** The response of [GET /api/v1/transcribe/{task_id}]; [error] is [None]
    when the key is absent and [Some None] when it is [null]. *)
Record StatusResponse := mkStatusResponse {
  r_task_id : string;
  r_status : Status;
  r_progress : Z;
  r_created_at : Z;
  r_result : option Result;
  r_error : option (option string)
}.

(** [get_transcription_status] (lines 446-474). *)
Definition get_transcription_status (task_id user : string) (d : Database)
  : response StatusResponse :=
  match sessions d !! task_id with
  | None => Raises 404 "Task not found"
  | Some session =>
      if negb (String.eqb (user_id session) user)
      then Raises 403 "Access denied"
      else
        match status session with
        | completed =>
            match get_transcription_result task_id d with
            | Ok result =>
                Returns (mkStatusResponse task_id completed (progress session)
                           (created_at session) (Some result) None)
            | Raise _ => Raises 404 "Task not found"
            end
        | failed =>
            Returns (mkStatusResponse task_id failed (progress session)
                       (created_at session) None
                       (Some (error_message session)))
        | other =>
            Returns (mkStatusResponse task_id other (progress session)
                       (created_at session) None None)
        end
  end.

(** One message of the event stream, without its timestamp. *)
Inductive Event :=
| progress_event (status : Status) (progress : Z) (error : option string)
| result_event (result : Result)
| error_event (error : string).

(** What one round of the polling loop meets: the row returned by [db.get],
    and what [get_transcription_result] would return. *)
Record Poll := mkPoll {
  observed : outcome (option TranscriptionSession);
  fetched : outcome Result
}.

(** [session.error_message], when the status is failed and the message is
    truthy. *)
Definition reported_error (session : TranscriptionSession) : option string :=
  match status session, error_message session with
  | failed, Some e => if PyStr.is_empty e then None else Some e
  | _, _ => None
  end.

Definition same_status (last : option Status) (s : Status) : bool :=
  match last with
  | Some l => Status_eqb l s
  | None => false
  end.

(** [event_generator] (lines 375-434) over the rounds of its loop: the
    events sent, and whether the generator has returned. *)
Fixpoint event_generator (last_status : option Status) (polls : list Poll)
  : list Event * bool :=
  match polls with
  | [] => ([], false)
  | p :: rest =>
      match observed p with
      | Raise e => ([error_event e], true)
      | Ok None => ([error_event "Task not found"], true)
      | Ok (Some session) =>
          if same_status last_status (status session)
          then event_generator last_status rest
          else
            let update := progress_event (status session) (progress session)
                                         (reported_error session) in
            match status session with
            | completed =>
                match fetched p with
                | Ok result => ([update; result_event result], true)
                | Raise e => ([update; error_event e], true)
                end
            | failed => ([update], true)
            | _ =>
                let later := event_generator (Some (status session)) rest in
                (update :: fst later, snd later)
            end
      end
  end.

Definition option_list {A : Type} (o : option A) : list A :=
  match o with Some a => [a] | None => [] end.

(** An update on a job that is still pending or processing. *)
Definition in_flight (e : Event) : Prop :=
  exists p, e = progress_event pending p None \/
            e = progress_event processing p None.

(** The statuses of the progress events of a stream, in order. *)
Definition statuses (events : list Event) : list Status :=
  flat_map (fun e => match e with
                     | progress_event s _ _ => [s]
                     | _ => []
                     end) events.

(** No two neighbours are the same status. *)
Fixpoint changes_only (l : list Status) : Prop :=
  match l with
  | a :: rest =>
      match rest with
      | b :: _ => a <> b /\ changes_only rest
      | [] => True
      end
  | [] => True
  end.

(** What a round of the loop meets when it reads the database [d]. *)
Definition poll_of (task_id : string) (d : Database) : Poll :=
  mkPoll (Ok (sessions d !! task_id)) (get_transcription_result task_id d).

(** The database [d] as the session of the request shows it while the object
    [session] is in its identity map: [db.get] answers with that object,
    whatever has been committed since (the session factory of
    src/app/database.py sets [expire_on_commit=False], and the request
    neither refreshes nor expires the object); the queries on the child rows
    read [d]. *)
Definition seen_through (task_id : string) (session : TranscriptionSession)
  (d : Database) : Database :=
  mkDatabase (<[task_id := session]> (sessions d)) (words d) (speaker_rows d).

(** The rounds of the loop, one for each database of [later].  The first
    round loads the row; from then on the variable [session] of the loop
    holds that object, so that [db.get] finds it in the identity map in every
    later round.  When the object loaded by the check of line 368 is still in
    the map at the first round, the first round meets the row of the check:
    that is the case of a first database that holds this row. *)
Definition rounds (task_id : string) (later : list Database) : list Poll :=
  match later with
  | [] => []
  | first :: rest =>
      poll_of task_id first ::
      match sessions first !! task_id with
      | Some session =>
          map (fun d => poll_of task_id (seen_through task_id session d)) rest
      | None => []
      end
  end.

(** [stream_transcription_progress] (lines 357-444): the check made before
    the stream starts on the database [d], then the events for the
    databases read by the rounds of the loop. *)
Definition stream_transcription_progress (task_id user : string)
  (d : Database) (later : list Database) : response (list Event * bool) :=
  match sessions d !! task_id with
  | None => Raises 404 "Task not found"
  | Some session =>
      if negb (String.eqb (user_id session) user)
      then Raises 403 "Access denied"
      else Returns (event_generator None (rounds task_id later))
  end.

End Api.

(** * Properties *)

(** ** Numbers *)

Module NumFacts.
Import Num.
Local Open Scope Q_scope.

Lemma Qleb_le (x y : Q) : Qleb x y = true <-> x <= y.
Proof. unfold Qleb. apply Qle_bool_iff. Qed.

Lemma Qleb_gt (x y : Q) : Qleb x y = false <-> y < x.
Proof.
  unfold Qleb. split; intros H.
  - apply Qnot_le_lt. intros Hle. apply Qle_bool_iff in Hle. congruence.
  - destruct (Qle_bool x y) eqn:E; [|reflexivity].
    apply Qle_bool_iff in E. exfalso. apply (Qlt_not_le _ _ H E).
Qed.

Lemma Qltb_lt (x y : Q) : Qltb x y = true <-> x < y.
Proof.
  unfold Qltb. rewrite negb_true_iff. apply (Qleb_gt y x).
Qed.

Lemma Qltb_ge (x y : Q) : Qltb x y = false <-> y <= x.
Proof.
  unfold Qltb. rewrite negb_false_iff. apply (Qleb_le y x).
Qed.

Lemma Qleb_total (x y : Q) : Qleb x y = false -> Qleb y x = true.
Proof.
  intros H. apply Qleb_gt in H. apply Qleb_le. apply Qlt_le_weak, H.
Qed.

(** The fractional part left by [Qfloor]. *)
Lemma floor_frac (x : Q) : 0 <= x - inject_Z (Qfloor x) /\ x - inject_Z (Qfloor x) < 1.
Proof.
  pose proof (Qfloor_le x) as Hl. pose proof (Qlt_floor x) as Hu.
  rewrite inject_Z_plus in Hu. change (inject_Z 1) with 1 in Hu.
  split; lra.
Qed.

Lemma round_half_even_close (x : Q) :
  Qabs (inject_Z (round_half_even x) - x) <= 1 # 2.
Proof.
  unfold round_half_even. destruct (floor_frac x) as [H0 H1].
  set (f := Qfloor x) in *.
  apply Qabs_Qle_condition.
  destruct (Qcompare (x - inject_Z f) (1 # 2)) eqn:E.
  - apply Qeq_alt in E.
    destruct (Z.even f); [|rewrite inject_Z_plus; change (inject_Z 1) with 1];
      split; lra.
  - apply Qlt_alt in E. split; lra.
  - apply Qgt_alt in E. rewrite inject_Z_plus. change (inject_Z 1) with 1.
    split; lra.
Qed.

Lemma round_half_even_Z (k : Z) : round_half_even (inject_Z k) = k.
Proof.
  unfold round_half_even. rewrite Qfloor_Z.
  assert (E : Qcompare (inject_Z k - inject_Z k) (1 # 2) = Lt).
  { apply (proj1 (Qlt_alt _ _)). lra. }
  rewrite E. reflexivity.
Qed.

#[export] Instance round_half_even_comp : Proper (Qeq ==> eq) round_half_even.
Proof.
  intros x y Hxy. unfold round_half_even.
  rewrite (Qfloor_comp _ _ Hxy).
  assert (E : x - inject_Z (Qfloor y) == y - inject_Z (Qfloor y)) by (rewrite Hxy; reflexivity).
  rewrite (Qcompare_comp _ _ E (1 # 2) (1 # 2) (Qeq_refl _)). reflexivity.
Qed.

#[export] Instance round2_comp : Proper (Qeq ==> Qeq) round2.
Proof.
  intros x y Hxy. unfold round2.
  assert (E : x * 100 == y * 100) by (rewrite Hxy; reflexivity).
  rewrite (round_half_even_comp _ _ E). reflexivity.
Qed.

Lemma round2_on_grid (x : Q) : on_grid (round2 x).
Proof. exists (round_half_even (x * 100)). reflexivity. Qed.

Lemma round2_close (x : Q) : Qabs (round2 x - x) <= 1 # 200.
Proof.
  unfold round2. pose proof (round_half_even_close (x * 100)) as H.
  apply Qabs_Qle_condition in H. apply Qabs_Qle_condition.
  set (k := inject_Z (round_half_even (x * 100))) in *.
  unfold Qdiv. change (/ 100) with (1 # 100). split; lra.
Qed.

Lemma round2_fixes_grid (x : Q) : on_grid x -> round2 x == x.
Proof.
  intros [k Hk]. unfold round2.
  assert (E : x * 100 == inject_Z k) by (rewrite Hk; field).
  rewrite (round_half_even_comp _ _ E), round_half_even_Z. symmetry. exact Hk.
Qed.

Lemma round_half_even_small (z : Q) :
  0 <= z -> z < 1 # 2 -> round_half_even z = 0%Z.
Proof.
  intros H0 H1. unfold round_half_even.
  assert (Hf : Qfloor z = 0%Z).
  { pose proof (Qfloor_le z) as Hl. pose proof (Qlt_floor z) as Hu.
    assert (Ha : inject_Z (Qfloor z) < inject_Z 1) by (change (inject_Z 1) with 1; lra).
    assert (Hb : inject_Z 0 < inject_Z (Qfloor z + 1)) by (change (inject_Z 0) with 0; lra).
    rewrite <- Zlt_Qlt in Ha, Hb. lia. }
  rewrite Hf.
  assert (E : Qcompare (z - inject_Z 0) (1 # 2) = Lt).
  { apply (proj1 (Qlt_alt _ _)). change (inject_Z 0) with 0. lra. }
  rewrite E. reflexivity.
Qed.

Lemma round2_small (x : Q) : 0 <= x -> x < 1 # 200 -> round2 x == 0.
Proof.
  intros H0 H1. unfold round2. rewrite round_half_even_small by lra.
  reflexivity.
Qed.

(** *** Binary64 rounding *)

Lemma pow2_pos (e : Z) : 0 < pow2 e.
Proof. apply Qpower_0_lt. reflexivity. Qed.

Lemma pow2_plus (a b : Z) : pow2 (a + b) == pow2 a * pow2 b.
Proof. apply Qpower_plus. discriminate. Qed.

Lemma pow2_inject (a : Z) : (0 <= a)%Z -> pow2 a == inject_Z (2 ^ a).
Proof. intros H. unfold pow2. rewrite (Zpower_Qpower 2 a H). reflexivity. Qed.

Lemma ilog2_spec (x : Q) :
  0 < x -> pow2 (ilog2 x) <= x /\ x < pow2 (ilog2 x + 1).
Proof.
  intros Hx. destruct x as [p q]. unfold ilog2. cbn [Qnum Qden].
  assert (Hp : (0 < p)%Z).
  { unfold Qlt in Hx. cbn in Hx. lia. }
  set (a := Z.log2 p). set (b := Z.log2 (Zpos q)).
  destruct (Z.log2_spec p Hp) as [Ha1 Ha2]. fold a in Ha1, Ha2.
  destruct (Z.log2_spec (Zpos q) eq_refl) as [Hb1 Hb2]. fold b in Hb1, Hb2.
  assert (Ha0 : (0 <= a)%Z) by apply Z.log2_nonneg.
  assert (Hb0 : (0 <= b)%Z) by apply Z.log2_nonneg.
  assert (Hx' : p # q == inject_Z p / inject_Z (Zpos q)) by apply Qmake_Qdiv.
  assert (Hq : 0 < inject_Z (Zpos q)) by reflexivity.
  assert (HA : 0 < pow2 a) by apply pow2_pos.
  assert (HB : 0 < pow2 b) by apply pow2_pos.
  assert (Hpa : pow2 a <= inject_Z p).
  { rewrite pow2_inject by exact Ha0. rewrite <- Zle_Qle. exact Ha1. }
  assert (Hpa' : inject_Z p < 2 * pow2 a).
  { rewrite pow2_inject by exact Ha0. change 2 with (inject_Z 2).
    rewrite <- inject_Z_mult, <- Zlt_Qlt.
    rewrite Z.pow_succ_r in Ha2 by exact Ha0. exact Ha2. }
  assert (Hqb : pow2 b <= inject_Z (Zpos q)).
  { rewrite pow2_inject by exact Hb0. rewrite <- Zle_Qle. exact Hb1. }
  assert (Hqb' : inject_Z (Zpos q) < 2 * pow2 b).
  { rewrite pow2_inject by exact Hb0. change 2 with (inject_Z 2).
    rewrite <- inject_Z_mult, <- Zlt_Qlt.
    rewrite Z.pow_succ_r in Hb2 by exact Hb0. exact Hb2. }
  assert (Hk : pow2 (a - b) * pow2 b == pow2 a).
  { rewrite <- pow2_plus. replace (a - b + b)%Z with a by lia. reflexivity. }
  assert (Hk1 : pow2 (a - b + 1) == 2 * pow2 (a - b)).
  { rewrite pow2_plus. change (pow2 1) with 2. ring. }
  assert (Hkm : 2 * pow2 (a - b - 1) == pow2 (a - b)).
  { replace (a - b)%Z with (a - b - 1 + 1)%Z at 2 by lia.
    rewrite pow2_plus. change (pow2 1) with 2. ring. }
  pose proof (pow2_pos (a - b)) as HK.
  pose proof (pow2_pos (a - b - 1)) as HKm.
  set (X := inject_Z p / inject_Z (Zpos q)) in *.
  assert (HX : X * inject_Z (Zpos q) == inject_Z p).
  { unfold X. field. lra. }
  (* bounds on X *)
  assert (Hup : X < 2 * pow2 (a - b)).
  { apply Qnot_le_lt. intros Hc.
    assert (2 * pow2 (a - b) * inject_Z (Zpos q) <= X * inject_Z (Zpos q)).
    { apply Qmult_le_compat_r; [exact Hc | lra]. }
    assert (2 * pow2 (a - b) * pow2 b <= 2 * pow2 (a - b) * inject_Z (Zpos q)).
    { apply Qmult_le_l; [lra | exact Hqb]. }
    nra. }
  assert (Hlo : pow2 (a - b - 1) < X).
  { apply Qnot_le_lt. intros Hc.
    assert (X * inject_Z (Zpos q) <= pow2 (a - b - 1) * inject_Z (Zpos q)).
    { apply Qmult_le_compat_r; [exact Hc | lra]. }
    assert (pow2 (a - b - 1) * inject_Z (Zpos q) < pow2 (a - b - 1) * (2 * pow2 b)).
    { apply Qmult_lt_l; [exact HKm | exact Hqb']. }
    nra. }
  destruct (Qleb (pow2 (a - b)) (p # q)) eqn:E.
  - apply Qleb_le in E. rewrite Hx' in *.
    split; [exact E|]. rewrite Hk1. exact Hup.
  - assert (E' : X < pow2 (a - b)).
    { apply Qnot_le_lt. intros Hc. rewrite <- Hx' in Hc.
      apply Qleb_le in Hc. congruence. }
    replace (a - b - 1 + 1)%Z with (a - b)%Z by lia.
    rewrite Hx'. split; [apply Qlt_le_weak, Hlo | exact E'].
Qed.

Lemma fl_comp (x y : Q) : x == y -> fl x = fl y.
Proof. intros H. unfold fl. rewrite (Qred_complete x y H). reflexivity. Qed.

#[export] Instance fl_proper : Proper (Qeq ==> Qeq) fl.
Proof. intros x y H. rewrite (fl_comp x y H). reflexivity. Qed.

Lemma fl_close (x : Q) :
  Qabs (fl x - x) <= Qabs x * unit_roundoff + eta.
Proof.
  unfold fl. cbv zeta. rewrite Qred_correct.
  pose proof (Qred_correct x) as Hred. set (x' := Qred x) in *.
  set (e := Z.max (ilog2 (Qabs x') - 52) (-1074)).
  pose proof (pow2_pos e) as HP. set (P := pow2 e) in *.
  pose proof (round_half_even_close (x' / P)) as Hr.
  set (m := inject_Z (round_half_even (x' / P))) in *.
  assert (Herr : Qabs (m * P - x) <= P * (1 # 2)).
  { assert (E : m * P - x == (m - x' / P) * P) by (rewrite <- Hred; field; lra).
    rewrite E, Qabs_Qmult, (Qabs_pos P) by lra.
    rewrite (Qmult_comm P). apply Qmult_le_compat_r; [exact Hr | lra]. }
  assert (Heta : 0 < eta) by apply pow2_pos.
  pose proof (Qabs_nonneg x) as Hx0.
  destruct (Qeq_dec x 0) as [Hz|Hnz].
  - assert (Hm : m == 0).
    { unfold m. assert (E : x' / P == 0) by (rewrite Hred, Hz; field; lra).
      rewrite E. reflexivity. }
    assert (E : m * P - x == 0) by (rewrite Hm, Hz; ring).
    rewrite E. change (Qabs 0) with 0. unfold unit_roundoff. nra.
  - assert (Hpos : 0 < Qabs x').
    { rewrite Hred. destruct (Qlt_le_dec 0 (Qabs x)) as [H|H]; [exact H|].
      exfalso. apply Hnz. apply Qabs_Qle_condition in H. lra. }
    destruct (ilog2_spec (Qabs x') Hpos) as [Hk _].
    assert (Habs : Qabs x' == Qabs x) by (rewrite Hred; reflexivity).
    assert (Hk' : pow2 (ilog2 (Qabs x')) <= Qabs x) by (rewrite <- Habs; exact Hk).
    clear Hk Hpos.
    eapply Qle_trans; [exact Herr|].
    unfold P, e. destruct (Z.max_spec (ilog2 (Qabs x') - 52) (-1074))
      as [[_ ->]|[_ ->]].
    + change (pow2 (-1074) * (1 # 2)) with (pow2 (-1074) * pow2 (-1)).
      rewrite <- pow2_plus. change (-1074 + -1)%Z with (-1075)%Z.
      fold eta. unfold unit_roundoff. nra.
    + replace (ilog2 (Qabs x') - 52)%Z with (ilog2 (Qabs x') + -52)%Z by lia.
      rewrite pow2_plus.
      change (pow2 (-52)) with (1 # 4503599627370496).
      unfold unit_roundoff.
      set (K := pow2 (ilog2 (Qabs x'))) in *. set (A := Qabs x) in *.
      assert (K * (1 # 4503599627370496) * (1 # 2) ==
              K * (1 # 9007199254740992)) by (field).
      nra.
Qed.

(** Two-sided form of [fl_close]. *)
Lemma fl_close_by (x a : Q) :
  - a <= x <= a ->
  - (unit_roundoff * a + eta) <= fl x - x <= unit_roundoff * a + eta.
Proof.
  intros Hx. pose proof (fl_close x) as H.
  apply Qabs_Qle_condition in H.
  assert (Ha : Qabs x <= a) by (apply Qabs_Qle_condition; exact Hx).
  assert (Hm : Qabs x * unit_roundoff <= unit_roundoff * a).
  { rewrite (Qmult_comm (Qabs x)). apply Qmult_le_l; [reflexivity | exact Ha]. }
  split; lra.
Qed.

Lemma scale_within (x r b : Q) :
  0 <= r -> r <= 1 -> - b <= x <= b -> - b <= x * r <= b.
Proof. intros H0 H1 [Hl Hu]. split; nra. Qed.

Lemma mult_within (c x b : Q) :
  0 <= c -> - b <= x <= b -> - (c * b) <= c * x <= c * b.
Proof. intros H0 [Hl Hu]. split; nra. Qed.

Section RoundingChain.
(** A rounding [f] of relative error [u] and absolute error [h]. *)
Variables (u h : Q) (f : Q -> Q).
Hypothesis u_nonneg : 0 <= u.
Hypothesis u_small : u <= 1 # 8.
Hypothesis h_pos : 0 < h.
Hypothesis f_close : forall x a,
  - a <= x <= a -> - (u * a + h) <= f x - x <= u * a + h.

Lemma shrink (x : Q) : 0 <= x -> u * x <= x * (1 # 8).
Proof. intros H. nra. Qed.

Lemma chain_close (s e N I M : Q) :
  1 <= N -> 0 <= I -> I <= N ->
  - M <= s <= M -> - M <= e - s <= M ->
  - (8 * (u * M) + (4 * N + 11) * h)
  <= f (s + f (I * f (f (e - s) / N))) - (s + I * ((e - s) / N))
  <= 8 * (u * M) + (4 * N + 11) * h.
Proof.
  intros HN HI0 HIN Hs HM.
  assert (HM0 : 0 <= M) by lra.
  set (U := u * M). set (E := N * h).
  assert (HU0 : 0 <= U) by (unfold U; apply Qmult_le_0_compat; assumption).
  assert (HE : h <= E).
  { unfold E. assert (0 <= (N - 1) * h)
      by (apply Qmult_le_0_compat; lra). lra. }
  assert (HE0 : 0 <= E) by lra.
  pose proof (shrink U HU0) as HuU.
  pose proof (shrink h (Qlt_le_weak _ _ h_pos)) as Huh.
  pose proof (shrink E HE0) as HuE.
  set (r := I / N).
  assert (Hr0 : 0 <= r) by (unfold r; apply Qle_shift_div_l; lra).
  assert (Hr1 : r <= 1) by (unfold r; apply Qle_shift_div_r; lra).
  assert (Hinv : 0 <= / N) by (apply Qlt_le_weak, Qinv_lt_0_compat; lra).
  (* the duration *)
  pose proof (f_close (e - s) M HM) as H1. fold U in H1.
  set (d1 := f (e - s)) in *. clearbody d1.
  assert (Hd1 : - (M + U + h) <= d1 <= M + U + h) by (split; lra).
  (* the quotient *)
  assert (Hq : - ((M + U + h) * / N) <= d1 / N <= (M + U + h) * / N).
  { unfold Qdiv. rewrite !(Qmult_comm _ (/ N)).
    apply mult_within; [exact Hinv | exact Hd1]. }
  pose proof (f_close (d1 / N) _ Hq) as H2.
  set (q := d1 / N) in *. set (wd := f q) in *. clearbody wd.
  pose proof (mult_within I (wd - q) _ HI0 H2) as H2'.
  assert (Hexp : I * (u * ((M + U + h) * / N) + h) ==
                 (U + u * U + u * h) * r + I * h)
    by (unfold r, U; field; lra).
  rewrite Hexp in H2'.
  assert (Hscale : (U + u * U + u * h) * r <= U + u * U + u * h).
  { assert (Hnn : 0 <= U + u * U + u * h).
    { assert (0 <= u * U) by (apply Qmult_le_0_compat; lra).
      assert (0 <= u * h) by (apply Qmult_le_0_compat; lra).
      lra. }
    assert (Hx : - (U + u * U + u * h) <= U + u * U + u * h
                 <= U + u * U + u * h) by (split; lra).
    exact (proj2 (scale_within _ r _ Hr0 Hr1 Hx)). }
  assert (HIh : I * h <= E).
  { unfold E. apply Qmult_le_compat_r; lra. }
  assert (Ha : - (2 * U + 2 * E) <= I * (wd - q) <= 2 * U + 2 * E)
    by (split; lra).
  pose proof (scale_within (d1 - (e - s)) r _ Hr0 Hr1 H1) as Hb.
  assert (Hsplit : I * wd - (e - s) * r ==
                   I * (wd - q) + (d1 - (e - s)) * r)
    by (unfold q, r; field; lra).
  assert (HB2 : - (3 * U + 3 * E) <= I * wd - (e - s) * r <= 3 * U + 3 * E)
    by (rewrite Hsplit; split; lra).
  pose proof (scale_within (e - s) r _ Hr0 Hr1 HM) as HJb.
  assert (Hp : - (M + 3 * U + 3 * E) <= I * wd <= M + 3 * U + 3 * E)
    by (split; lra).
  pose proof (f_close (I * wd) _ Hp) as H3.
  set (p1 := f (I * wd)) in *. clearbody p1.
  assert (Hexp3 : u * (M + 3 * U + 3 * E) == U + 3 * (u * U) + 3 * (u * E))
    by (unfold U; ring).
  rewrite Hexp3 in H3.
  assert (HB3 : - (2 * U + 2 * E) <= p1 - I * wd <= 2 * U + 2 * E)
    by (split; lra).
  assert (Ht : - (2 * M + 5 * U + 5 * E) <= s + p1 <= 2 * M + 5 * U + 5 * E)
    by (split; lra).
  pose proof (f_close (s + p1) _ Ht) as H4.
  set (t := f (s + p1)) in *. clearbody t.
  assert (Hexp4 : u * (2 * M + 5 * U + 5 * E) ==
                  2 * U + 5 * (u * U) + 5 * (u * E))
    by (unfold U; ring).
  rewrite Hexp4 in H4.
  assert (HB4 : - (3 * U + 2 * E) <= t - (s + p1) <= 3 * U + 2 * E)
    by (split; lra).
  assert (HJ : I * ((e - s) / N) == (e - s) * r) by (unfold r; field; lra).
  rewrite HJ. fold U.
  assert (HE' : (4 * N + 11) * h == 4 * E + 11 * h) by (unfold E; ring).
  rewrite HE'. split; lra.
Qed.
End RoundingChain.

End NumFacts.

(** ** Strings *)

Module PyStrFacts.
Import PyStr.

Lemma lstrip_decompose (s : string) :
  exists pre, s = pre ++ lstrip s /\ all_space pre = true.
Proof.
  induction s as [|c s IH]; simpl.
  - exists "". split; reflexivity.
  - destruct (isspace c) eqn:Hc.
    + destruct IH as [pre [Hs Hpre]]. exists (String c pre). simpl.
      rewrite Hc, Hpre. split; [exact (f_equal (String c) Hs) | reflexivity].
    + exists "". split; reflexivity.
Qed.

Lemma lstrip_first (s : string) (c : ascii) :
  first_char (lstrip s) = Some c -> isspace c = false.
Proof.
  induction s as [|a s IH]; simpl; [discriminate|].
  destruct (isspace a) eqn:Ha; [exact IH|].
  simpl. intros [= <-]. exact Ha.
Qed.

Lemma rstrip_decompose (s : string) :
  exists post, s = rstrip s ++ post /\ all_space post = true.
Proof.
  induction s as [|c s IH]; simpl.
  - exists "". split; reflexivity.
  - destruct IH as [post [Hs Hpost]].
    destruct (rstrip s) as [|k ks] eqn:Hr.
    + change (s = post) in Hs. subst post. destruct (isspace c) eqn:Hc.
      * exists (String c s). simpl. rewrite Hc, Hpost. split; reflexivity.
      * exists s. split; [reflexivity | exact Hpost].
    + exists post. split; [|exact Hpost]. exact (f_equal (String c) Hs).
Qed.

Lemma rstrip_last (s : string) (c : ascii) :
  last_char (rstrip s) = Some c -> isspace c = false.
Proof.
  induction s as [|a s IH]; simpl; [discriminate|].
  destruct (rstrip s) as [|k ks] eqn:Hr.
  - destruct (isspace a) eqn:Ha; simpl; [discriminate|].
    intros [= <-]. exact Ha.
  - intros H. apply IH. exact H.
Qed.

Lemma rstrip_first (s : string) (c : ascii) :
  first_char (rstrip s) = Some c -> first_char s = Some c.
Proof.
  destruct s as [|a s]; simpl; [discriminate|].
  destruct (rstrip s); [destruct (isspace a)|]; simpl; congruence.
Qed.

(** [strip] removes a run of spaces at each end and nothing else. *)
Lemma strip_decompose (s : string) :
  exists pre post,
    s = pre ++ strip s ++ post /\ all_space pre = true /\ all_space post = true.
Proof.
  destruct (lstrip_decompose s) as [pre [Hs Hpre]].
  destruct (rstrip_decompose (lstrip s)) as [post [Hl Hpost]].
  exists pre, post. unfold strip. rewrite <- Hl. auto.
Qed.

Lemma strip_first (s : string) (c : ascii) :
  first_char (strip s) = Some c -> isspace c = false.
Proof.
  unfold strip. intros H. apply rstrip_first in H.
  apply (lstrip_first s c H).
Qed.

Lemma strip_last (s : string) (c : ascii) :
  last_char (strip s) = Some c -> isspace c = false.
Proof. unfold strip. apply rstrip_last. Qed.

(** Tokens of [split]: non-empty, free of spaces. *)
Lemma no_space_app (a b : string) :
  no_space (a ++ b) = no_space a && no_space b.
Proof.
  induction a as [|c a IH]; simpl; [reflexivity|].
  rewrite IH. apply andb_assoc.
Qed.

Lemma is_empty_app_char (a : string) (c : ascii) :
  is_empty (a ++ String c "") = false.
Proof. destruct a; reflexivity. Qed.

Lemma split_from_tokens (s cur tok : string) :
  no_space cur = true ->
  In tok (split_from cur s) ->
  is_empty tok = false /\ no_space tok = true.
Proof.
  revert cur. induction s as [|c s IH]; simpl; intros cur Hcur Hin.
  - destruct (is_empty cur) eqn:Hc; simpl in Hin; [tauto|].
    destruct Hin as [<-|[]]. auto.
  - destruct (isspace c) eqn:Hsp.
    + destruct (is_empty cur) eqn:Hc.
      * apply (IH ""); auto.
      * destruct Hin as [<-|Hin]; [auto|]. apply (IH ""); auto.
    + apply (IH (cur ++ String c "")); [|exact Hin].
      rewrite no_space_app, Hcur. simpl. rewrite Hsp. reflexivity.
Qed.

Lemma split_tokens (s tok : string) :
  In tok (split s) -> is_empty tok = false /\ no_space tok = true.
Proof. apply split_from_tokens. reflexivity. Qed.

End PyStrFacts.

(** ** Sorting and dicts *)

Module PyListFacts.
Import PyList.

Section SortFacts.
Context {A : Type} (before : A -> A -> bool).
Hypothesis before_total : forall a b, before a b = false -> before b a = true.

Let R (a b : A) : Prop := before a b = true.

Lemma insert_sorted_perm (x : A) (l : list A) :
  Permutation (insert_sorted before x l) (x :: l).
Proof.
  induction l as [|y l IH]; simpl; [reflexivity|].
  destruct (before x y); [reflexivity|].
  rewrite IH. apply perm_swap.
Qed.

Lemma stable_sort_perm (l : list A) : Permutation (stable_sort before l) l.
Proof.
  induction l as [|x l IH]; simpl; [reflexivity|].
  rewrite insert_sorted_perm. apply perm_skip, IH.
Qed.

Lemma insert_sorted_hd (x a : A) (l : list A) :
  before a x = true -> HdRel R a l -> HdRel R a (insert_sorted before x l).
Proof.
  intros Hax Hl. destruct l as [|y l]; simpl.
  - constructor. exact Hax.
  - destruct (before x y); constructor; [exact Hax|].
    inversion Hl; assumption.
Qed.

Lemma insert_sorted_sorted (x : A) (l : list A) :
  Sorted R l -> Sorted R (insert_sorted before x l).
Proof.
  induction l as [|y l IH]; simpl; intros Hs.
  - repeat constructor.
  - destruct (before x y) eqn:Hxy.
    + constructor; [exact Hs|]. constructor. exact Hxy.
    + inversion Hs as [|? ? Hl Hhd]; subst. constructor; [apply IH, Hl|].
      apply insert_sorted_hd; [apply before_total, Hxy | exact Hhd].
Qed.

Lemma stable_sort_sorted (l : list A) : Sorted R (stable_sort before l).
Proof.
  induction l as [|x l IH]; simpl; [constructor|].
  apply insert_sorted_sorted, IH.
Qed.

(** Sorting a sorted list changes nothing. *)
Lemma stable_sort_id (l : list A) : Sorted R l -> stable_sort before l = l.
Proof.
  induction l as [|x l IH]; simpl; intros Hs; [reflexivity|].
  inversion Hs as [|? ? Hl Hhd]; subst. rewrite (IH Hl).
  destruct l as [|y l]; simpl; [reflexivity|].
  inversion Hhd as [|? ? Hxy]; subst. unfold R in Hxy. rewrite Hxy. reflexivity.
Qed.
End SortFacts.

Section DictFacts.
Context {V : Type}.
Implicit Types (d : list (string * V)) (k l : string) (f : V -> V).

Lemma keys_dict_update d k (init : V) f (l : string) :
  In l (keys (dict_update d k init f)) <-> In l (keys d) \/ l = k.
Proof.
  induction d as [|[k' v] d IH]; simpl.
  - split; [intros [->|[]]; right; reflexivity
           | intros [[]| ->]; left; reflexivity].
  - destruct (String.eqb k' k) eqn:E; simpl.
    + apply String.eqb_eq in E. subst k'.
      split; [intros H; left; exact H
             | intros [H| ->]; [exact H | left; reflexivity]].
    + rewrite IH. tauto.
Qed.

Lemma keys_dict_update_nodup d k (init : V) f :
  List.NoDup (keys d) -> List.NoDup (keys (dict_update d k init f)).
Proof.
  induction d as [|[k' v] d IH]; simpl; intros Hnd.
  - constructor; [intros [] | constructor].
  - inversion Hnd as [|? ? Hnotin Hnd']; subst.
    destruct (String.eqb k' k) eqn:E; simpl.
    + constructor; assumption.
    + constructor; [|apply IH, Hnd'].
      intros Hin. apply keys_dict_update in Hin. destruct Hin as [Hin | ->].
      * contradiction.
      * rewrite String.eqb_refl in E. discriminate.
Qed.

Lemma dict_get_update_same d k (init : V) f :
  dict_get (dict_update d k init f) k init = f (dict_get d k init).
Proof.
  induction d as [|[k' v] d IH]; simpl.
  - rewrite String.eqb_refl. reflexivity.
  - destruct (String.eqb k' k) eqn:E; simpl; rewrite E; [reflexivity|exact IH].
Qed.

Lemma dict_get_update_other d k l (init default : V) f :
  l <> k ->
  dict_get (dict_update d k init f) l default = dict_get d l default.
Proof.
  intros Hne. induction d as [|[k' v] d IH]; simpl.
  - destruct (String.eqb k l) eqn:E; [|reflexivity].
    apply String.eqb_eq in E. congruence.
  - destruct (String.eqb k' k) eqn:E; simpl.
    + apply String.eqb_eq in E. subst k'.
      destruct (String.eqb k l) eqn:E'; [|reflexivity].
      apply String.eqb_eq in E'. congruence.
    + rewrite IH. reflexivity.
Qed.

Lemma dict_get_in d k (v default : V) :
  List.NoDup (keys d) -> In (k, v) d -> dict_get d k default = v.
Proof.
  induction d as [|[k' v'] d IH]; simpl; intros Hnd Hin; [contradiction|].
  inversion Hnd as [|? ? Hnotin Hnd']; subst.
  destruct Hin as [[= -> ->]|Hin].
  - rewrite String.eqb_refl. reflexivity.
  - destruct (String.eqb k' k) eqn:E; [|apply IH; assumption].
    apply String.eqb_eq in E. subst k'. exfalso. apply Hnotin.
    change k with (fst (k, v)). apply in_map, Hin.
Qed.
End DictFacts.

End PyListFacts.

(** ** Speaker assignment *)

Module AssignFacts.
Import Num NumFacts PyList Core CoreSpec.
Local Open Scope Q_scope.

Lemma contains_spec (m : Q) (iv : Q * Q) :
  contains m iv = true <-> fst iv <= m /\ m <= snd iv.
Proof.
  unfold contains. rewrite andb_true_iff, !Qleb_le. reflexivity.
Qed.

Lemma scan_intervals_spec (m : Q) (speaker_id assigned : string)
  (segments : list (Q * Q)) :
  scan_intervals m speaker_id assigned segments =
  match List.filter (contains m) segments with
  | [] => assigned
  | _ :: _ => speaker_id
  end.
Proof.
  induction segments as [|iv rest IH]; simpl; [reflexivity|].
  destruct (contains m iv); [reflexivity | exact IH].
Qed.

Lemma first_other_label_skip (n : nat) (owners : list string) :
  first_other_label (repeat default_speaker n ++ owners) =
  first_other_label owners.
Proof. induction n as [|n IH]; simpl; [reflexivity | exact IH]. Qed.

Lemma map_const_repeat {A : Type} (x : string) (l : list A) :
  map (fun _ => x) l = repeat x (length l).
Proof. induction l as [|a l IH]; simpl; [reflexivity | now rewrite IH]. Qed.

(** The label the code assigns: the owner of the first containing interval
    that does not belong to ["speaker_1"], and ["speaker_1"] otherwise. *)
Lemma scan_speakers_spec (m : Q) (speaker_segments : SpeakerSegments) :
  scan_speakers m default_speaker speaker_segments =
  first_other_label (containing m speaker_segments).
Proof.
  induction speaker_segments as [|[speaker_id segments] rest IH];
    [reflexivity|].
  cbn [scan_speakers containing flat_map]. fold (containing m rest).
  rewrite scan_intervals_spec.
  destruct (List.filter (contains m) segments) as [|iv ivs] eqn:Hf.
  - simpl. exact IH.
  - destruct (String.eqb speaker_id default_speaker) eqn:He; simpl.
    + apply String.eqb_eq in He. subst speaker_id. rewrite IH.
      rewrite map_const_repeat.
      change (first_other_label (containing m rest) =
              first_other_label
                (repeat default_speaker (S (length ivs)) ++ containing m rest)).
      symmetry. apply first_other_label_skip.
    + unfold first_other_label. simpl. rewrite He. reflexivity.
Qed.

(** No interval contains the midpoint: the default label. *)
Lemma assign_speaker_none (speaker_segments : SpeakerSegments) (w : WordInfo) :
  containing (word_mid w) speaker_segments = [] ->
  assign_speaker speaker_segments w = default_speaker.
Proof.
  intros H. unfold assign_speaker. rewrite scan_speakers_spec, H. reflexivity.
Qed.

(** Exactly one interval contains the midpoint: its owner. *)
Lemma assign_speaker_unique (speaker_segments : SpeakerSegments) (w : WordInfo)
  (owner : string) :
  containing (word_mid w) speaker_segments = [owner] ->
  assign_speaker speaker_segments w = owner.
Proof.
  intros H. unfold assign_speaker. rewrite scan_speakers_spec, H.
  unfold first_other_label. simpl.
  destruct (String.eqb owner default_speaker) eqn:He; simpl; [|reflexivity].
  apply String.eqb_eq in He. congruence.
Qed.

(** The first containing interval wins when its owner is not ["speaker_1"]. *)
Lemma assign_speaker_first (speaker_segments : SpeakerSegments) (w : WordInfo)
  (owner : string) (others : list string) :
  containing (word_mid w) speaker_segments = owner :: others ->
  owner <> default_speaker ->
  assign_speaker speaker_segments w = owner.
Proof.
  intros H Hne. unfold assign_speaker. rewrite scan_speakers_spec, H.
  unfold first_other_label. simpl.
  destruct (String.eqb owner default_speaker) eqn:He; simpl; [|reflexivity].
  apply String.eqb_eq in He. contradiction.
Qed.

(** C1.  Specified: every word gets the label of the first interval, in scan
    order, that contains its midpoint, and ["speaker_1"] when there is none.
    The code gives every word the owner of the first containing interval
    that is not ["speaker_1"]'s, and ["speaker_1"] when there is none.  The
    two differ when the first containing interval belongs to ["speaker_1"]
    and a later speaker has a containing interval too.  The fallback
    segmentation of a 60-second recording, speaker_1: [(0, 30)],
    speaker_2: [(30, 60)], is such a mapping for a word from 29.5 to 30.5
    (midpoint 30): the first containing interval is speaker_1's, and the code
    assigns speaker_2.  So are overlapping turns, speaker_1: [(0, 10)],
    speaker_2: [(5, 15)], for a word from 6 to 8. *)
Theorem first_match_overridden_by_later_speaker :
  (forall speaker_segments w,
      assign_speaker speaker_segments w =
      first_other_label (containing (word_mid w) speaker_segments)) /\
  (let speaker_segments := group_segments (fallback_windows 60) in
   let w := mkWordInfo " so" (59 # 2) (61 # 2) in
   speaker_segments = [("speaker_1", [(0, 30)]); ("speaker_2", [(30, 60)])] /\
   containing (word_mid w) speaker_segments = ["speaker_1"; "speaker_2"] /\
   first_interval_label speaker_segments w = "speaker_1" /\
   map speaker
       (assign_speakers_to_words
          (mkWhisperResult (Some "en")
             (Some [mkSegment 29 31 " so" (Some [w]) None]))
          speaker_segments) = ["speaker_2"]) /\
  (let speaker_segments :=
     [("speaker_1", [(0, 10)]); ("speaker_2", [(5, 15)])] in
   let w := mkWordInfo "hello" 6 8 in
   containing (word_mid w) speaker_segments = ["speaker_1"; "speaker_2"] /\
   first_interval_label speaker_segments w = "speaker_1" /\
   assign_speaker speaker_segments w = "speaker_2").
Proof.
  split; [|split].
  - intros speaker_segments w. apply scan_speakers_spec.
  - vm_compute. repeat split; reflexivity.
  - vm_compute. repeat split; reflexivity.
Qed.

End AssignFacts.

(** ** Synthesized words and emitted entries *)

Module WordFacts.
Import Num NumFacts PyList Core CoreSpec.
Local Open Scope Q_scope.

Lemma timestamped_words_nil (segs : list Segment) :
  (forall seg, In seg segs -> seg_words seg = None \/ seg_words seg = Some []) ->
  timestamped_words segs = [].
Proof.
  induction segs as [|seg segs IH]; intros H; [reflexivity|].
  unfold timestamped_words. simpl. fold (timestamped_words segs).
  rewrite IH by (intros s Hs; apply H; right; exact Hs).
  destruct (H seg (or_introl eq_refl)) as [-> | ->]; reflexivity.
Qed.

Lemma spread_length (s wd : Q) (i : Z) (words : list string) :
  length (spread s wd i words) = length words.
Proof.
  revert i. induction words as [|w words IH]; intros i; simpl;
    [reflexivity | now rewrite IH].
Qed.

Lemma spread_nth (s wd : Q) (words : list string) :
  forall (i0 : Z) (i : nat) (tok : string),
    nth_error words i = Some tok ->
    nth_error (spread s wd i0 words) i =
    Some (mkWordInfo tok
            (fl (s + fl (inject_Z (i0 + Z.of_nat i) * wd)))
            (fl (s + fl (inject_Z (i0 + Z.of_nat i + 1) * wd)))).
Proof.
  induction words as [|w words IH]; intros i0 i tok H.
  - destruct i; discriminate.
  - destruct i as [|i]; simpl in *.
    + injection H as ->. rewrite Z.add_0_r. reflexivity.
    + rewrite (IH (i0 + 1)%Z i tok H).
      replace (i0 + 1 + Z.of_nat i)%Z with (i0 + Z.pos (Pos.of_succ_nat i))%Z
        by lia.
      reflexivity.
Qed.

Lemma append_nil_r (s : string) : (s ++ "")%string = s.
Proof.
  induction s as [|c s IH]; [reflexivity|].
  exact (f_equal (String c) IH).
Qed.

Lemma append_assoc (a b c : string) :
  ((a ++ b) ++ c)%string = (a ++ (b ++ c))%string.
Proof.
  induction a as [|x a IH]; [reflexivity|].
  exact (f_equal (String x) IH).
Qed.

(** White space in front of a text changes nothing to its tokens. *)
Lemma whitespace_delimited_lead (tokens : list string) (c : ascii)
  (text : string) :
  PyStr.isspace c = true ->
  whitespace_delimited tokens text ->
  whitespace_delimited tokens (String c text).
Proof.
  intros Hc. destruct tokens as [|tok rest]; cbn [whitespace_delimited].
  - intros H. cbn [PyStr.all_space]. rewrite Hc, H. reflexivity.
  - intros (pre & post & -> & Hpre & Htok). exists (String c pre), post.
    split; [reflexivity|]. split; [|exact Htok].
    cbn [PyStr.all_space]. rewrite Hc, Hpre. reflexivity.
Qed.

(** [split_from] with the token under construction [cur]: nothing pending,
    the tokens of the rest; otherwise [cur] is completed by the non-space
    characters that follow. *)
Lemma split_from_delimited (s : string) :
  forall cur,
    PyStr.no_space cur = true ->
    (PyStr.is_empty cur = true ->
     whitespace_delimited (PyStr.split_from cur s) s) /\
    (PyStr.is_empty cur = false ->
     exists tail post rest,
       s = (tail ++ post)%string /\ PyStr.no_space tail = true /\
       PyStr.split_from cur s = (cur ++ tail)%string :: rest /\
       match post with
       | EmptyString => rest = []
       | String c post' =>
           PyStr.isspace c = true /\ whitespace_delimited rest post'
       end).
Proof.
  induction s as [|c s IH]; intros cur Hcur.
  - cbn [PyStr.split_from]. split; intros Hc; rewrite Hc.
    + reflexivity.
    + exists "", "", []. rewrite (append_nil_r cur). repeat split; reflexivity.
  - cbn [PyStr.split_from]. destruct (PyStr.isspace c) eqn:Hsp.
    + destruct (IH "" eq_refl) as [IH0 _]. specialize (IH0 eq_refl).
      split; intros Hc; rewrite Hc.
      * apply whitespace_delimited_lead; assumption.
      * exists "", (String c s), (PyStr.split_from "" s).
        rewrite (append_nil_r cur). repeat split; [exact Hsp | exact IH0].
    + assert (Hcur' : PyStr.no_space (cur ++ String c "") = true).
      { rewrite PyStrFacts.no_space_app, Hcur. cbn [PyStr.no_space].
        rewrite Hsp. reflexivity. }
      destruct (IH _ Hcur') as [_ IH1].
      destruct (IH1 (PyStrFacts.is_empty_app_char cur c))
        as (tail & post & rest & -> & Htail & Hsplit & Hpost).
      rewrite Hsplit, append_assoc.
      change (String c "" ++ tail)%string with (String c tail).
      assert (Hctail : PyStr.no_space (String c tail) = true).
      { cbn [PyStr.no_space]. rewrite Hsp, Htail. reflexivity. }
      split; intros Hc.
      * destruct cur; [|discriminate Hc].
        change ("" ++ String c tail)%string with (String c tail).
        cbn [whitespace_delimited]. exists "", post.
        repeat split; [exact Hctail | exact Hpost].
      * exists (String c tail), post, rest.
        repeat split; [exact Hctail | exact Hpost].
Qed.

(** [str.split()] gives the whitespace-delimited tokens. *)
Lemma split_delimited (text : string) :
  whitespace_delimited (PyStr.split text) text.
Proof.
  exact (proj1 (split_from_delimited text "" eq_refl) eq_refl).
Qed.

(** A synthesized time is [start + i * (d / n)] up to binary64 rounding. *)
Lemma spread_time_close (seg : Segment) (n i : Z) :
  (0 < n)%Z -> (0 <= i <= n)%Z ->
  Qabs (fl (seg_start seg
            + fl (inject_Z i
                  * fl (fl (seg_end seg - seg_start seg) / inject_Z n)))
        - (seg_start seg
           + inject_Z i * ((seg_end seg - seg_start seg) / inject_Z n)))
  <= spread_tolerance seg n.
Proof.
  intros Hn Hi. unfold spread_tolerance.
  set (s := seg_start seg). set (e := seg_end seg).
  assert (HN : 1 <= inject_Z n).
  { change 1 with (inject_Z 1). rewrite <- Zle_Qle. lia. }
  assert (HI0 : 0 <= inject_Z i).
  { change 0 with (inject_Z 0). rewrite <- Zle_Qle. lia. }
  assert (HIN : inject_Z i <= inject_Z n) by (rewrite <- Zle_Qle; lia).
  assert (HM : - (Qabs s + Qabs e) <= e - s <= Qabs s + Qabs e).
  { pose proof (Qle_Qabs s). pose proof (Qle_Qabs e).
    pose proof (Qle_Qabs (- s)) as Hs2. pose proof (Qle_Qabs (- e)) as He2.
    rewrite Qabs_opp in Hs2, He2. split; lra. }
  assert (Hs : - (Qabs s + Qabs e) <= s <= Qabs s + Qabs e).
  { pose proof (Qle_Qabs s). pose proof (Qabs_nonneg e).
    pose proof (Qle_Qabs (- s)) as Hs2. rewrite Qabs_opp in Hs2. split; lra. }
  pose proof (chain_close unit_roundoff eta fl ltac:(discriminate)
                ltac:(discriminate) (pow2_pos _) fl_close_by
                s e (inject_Z n) (inject_Z i) (Qabs s + Qabs e)
                HN HI0 HIN Hs HM) as H.
  apply Qabs_Qle_condition.
  rewrite inject_Z_plus, inject_Z_mult.
  change (inject_Z 4) with 4. change (inject_Z 11) with 11.
  assert (HU : (Qabs s + Qabs e) * (1 # 1125899906842624) ==
               8 * (unit_roundoff * (Qabs s + Qabs e))).
  { unfold unit_roundoff. ring. }
  rewrite HU. exact H.
Qed.

(** The words synthesized for a segment, one by one. *)
Lemma synth_words_nth (seg : Segment) (i : nat) (tok : string) :
  nth_error (PyStr.split (seg_text seg)) i = Some tok ->
  let n := inject_Z (Z.of_nat (length (PyStr.split (seg_text seg)))) in
  let wd := fl (fl (seg_end seg - seg_start seg) / n) in
  nth_error (synth_words seg) i =
  Some (mkWordInfo tok
          (fl (seg_start seg + fl (inject_Z (Z.of_nat i) * wd)))
          (fl (seg_start seg + fl (inject_Z (Z.of_nat i + 1) * wd)))).
Proof.
  intros Hi. cbv zeta. unfold synth_words. cbv zeta.
  set (tokens := PyStr.split (seg_text seg)) in *.
  set (wd := fl (fl (seg_end seg - seg_start seg)
                 / inject_Z (Z.of_nat (length tokens)))).
  assert (Hwd : match tokens with [] => 0 | _ :: _ => wd end = wd).
  { destruct tokens; [destruct i; discriminate | reflexivity]. }
  rewrite Hwd, (spread_nth _ _ _ 0%Z i tok Hi), !Z.add_0_l. reflexivity.
Qed.

(** C9.  When no segment carries word-level timestamps, the words that are
    given speakers are the synthesized ones.  The tokens of a segment are
    the whitespace-delimited ones; a segment with [n] tokens and duration
    [d = end - start] yields [n] words, token [i] (0-based) running from
    [start + i * (d / n)] to [start + (i + 1) * (d / n)], each computed in
    binary64 in the order the code computes it and hence within the rounding
    tolerance of the exact value; and every synthesized word is annotated by
    the same midpoint rule as any other word. *)
Theorem words_synthesized_evenly (wr : WhisperResult)
  (speaker_segments : SpeakerSegments) :
  (forall seg, In seg (get_segments wr) ->
               seg_words seg = None \/ seg_words seg = Some []) ->
  assign_speakers_to_words wr speaker_segments =
    map (annotate speaker_segments) (flat_map synth_words (get_segments wr))
  /\ forall seg, In seg (get_segments wr) ->
       let tokens := PyStr.split (seg_text seg) in
       let n := Z.of_nat (length tokens) in
       let d := seg_end seg - seg_start seg in
       let word_duration := fl (fl d / inject_Z n) in
       whitespace_delimited tokens (seg_text seg) /\
       length (synth_words seg) = length tokens /\
       forall (i : nat) (tok : string),
         nth_error tokens i = Some tok ->
         exists w,
           nth_error (synth_words seg) i = Some w /\
           wi_word w = tok /\
           wi_start w =
             fl (seg_start seg + fl (inject_Z (Z.of_nat i) * word_duration)) /\
           wi_end w =
             fl (seg_start seg
                 + fl (inject_Z (Z.of_nat i + 1) * word_duration)) /\
           Qabs (wi_start w
                 - (seg_start seg + inject_Z (Z.of_nat i) * (d / inject_Z n)))
             <= spread_tolerance seg n /\
           Qabs (wi_end w
                 - (seg_start seg
                    + (inject_Z (Z.of_nat i) + 1) * (d / inject_Z n)))
             <= spread_tolerance seg n /\
           speaker (annotate speaker_segments w) =
             scan_speakers (fl (fl (wi_start w + wi_end w) / 2)) "speaker_1"
                           speaker_segments.
Proof.
  intros Hnone. split.
  - unfold assign_speakers_to_words, all_words.
    rewrite (timestamped_words_nil _ Hnone). reflexivity.
  - intros seg _. cbv zeta.
    split; [apply split_delimited|].
    split; [unfold synth_words; apply spread_length|].
    intros i tok Hi.
    assert (Hlt : (i < length (PyStr.split (seg_text seg)))%nat).
    { apply nth_error_Some. congruence. }
    eexists. split; [exact (synth_words_nth seg i tok Hi)|].
    cbn [wi_word wi_start wi_end].
    split; [reflexivity|]. split; [reflexivity|]. split; [reflexivity|].
    split; [apply spread_time_close; lia|].
    split; [|reflexivity].
    assert (E : inject_Z (Z.of_nat i) + 1 == inject_Z (Z.of_nat i + 1))
      by (rewrite inject_Z_plus; reflexivity).
    rewrite E. apply spread_time_close; lia.
Qed.

(** A segment from 0.25 s to 0.75 s, without words, and a sentence of three
    tokens: the second word ends up just before the interval that starts at
    0.5 s. *)
Lemma words_synthesized_evenly_witness :
  let wr := mkWhisperResult (Some "en")
              (Some [mkSegment (1 # 4) (3 # 4) " a  b c " None None]) in
  let speaker_segments := [("speaker_2", [(1 # 2, 1)])] in
  (forall seg, In seg (get_segments wr) ->
               seg_words seg = None \/ seg_words seg = Some []) /\
  assign_speakers_to_words wr speaker_segments =
    [mkEntry "a" (25 # 100) (42 # 100) "speaker_1";
     mkEntry "b" (42 # 100) (58 # 100) "speaker_1";
     mkEntry "c" (58 # 100) (75 # 100) "speaker_2"].
Proof.
  intros wr speaker_segments.
  assert (H : forall seg, In seg (get_segments wr) ->
                          seg_words seg = None \/ seg_words seg = Some [])
    by (intros seg [<-|[]]; left; reflexivity).
  split; [exact H|].
  rewrite (proj1 (words_synthesized_evenly wr speaker_segments H)).
  vm_compute. reflexivity.
Defined.

(** Entry by entry: the text is the word's without the spaces around it,
    the times are the word's rounded to hundredths. *)
Lemma annotate_strips_and_rounds (wr : WhisperResult)
  (speaker_segments : SpeakerSegments) :
  Forall2
    (fun w e =>
       (exists pre post,
           wi_word w = (pre ++ word e ++ post)%string /\
           PyStr.all_space pre = true /\ PyStr.all_space post = true) /\
       (forall c, PyStr.first_char (word e) = Some c -> PyStr.isspace c = false) /\
       (forall c, PyStr.last_char (word e) = Some c -> PyStr.isspace c = false) /\
       start e = round2 (wi_start w) /\ end_ e = round2 (wi_end w) /\
       on_grid (start e) /\ on_grid (end_ e) /\
       Qabs (start e - wi_start w) <= 1 # 200 /\
       Qabs (end_ e - wi_end w) <= 1 # 200)
    (all_words wr) (assign_speakers_to_words wr speaker_segments).
Proof.
  unfold assign_speakers_to_words.
  induction (all_words wr) as [|w ws IH]; cbn [map]; constructor; [|exact IH].
  unfold annotate. cbn [word start end_].
  split; [apply PyStrFacts.strip_decompose|].
  split; [apply PyStrFacts.strip_first|].
  split; [apply PyStrFacts.strip_last|].
  repeat split; solve [apply round2_on_grid | apply round2_close].
Qed.

End WordFacts.

(** ** Speaker statistics *)

Module StatsFacts.
Import Num NumFacts PyList PyListFacts Core CoreSpec.
Local Open Scope Q_scope.

Lemma Qsum_app (a b : list Q) : Qsum (a ++ b) == Qsum a + Qsum b.
Proof.
  induction a as [|x a IH]; simpl; [lra|]. rewrite IH. lra.
Qed.

Lemma Qsum_perm (a b : list Q) : Permutation a b -> Qsum a == Qsum b.
Proof.
  induction 1 as [|x a b _ IH|x y a|a b c _ IH1 _ IH2]; simpl.
  - reflexivity.
  - rewrite IH. reflexivity.
  - lra.
  - rewrite IH1. exact IH2.
Qed.

Lemma on_grid_comp (x y : Q) : x == y -> on_grid x -> on_grid y.
Proof. intros Hxy [k Hk]. exists k. rewrite <- Hxy. exact Hk. Qed.

Lemma on_grid_0 : on_grid 0.
Proof. exists 0%Z. reflexivity. Qed.

Lemma on_grid_plus (x y : Q) : on_grid x -> on_grid y -> on_grid (x + y).
Proof.
  intros [a Ha] [b Hb]. exists (a + b)%Z.
  rewrite Ha, Hb, inject_Z_plus. field.
Qed.

Lemma on_grid_minus (x y : Q) : on_grid x -> on_grid y -> on_grid (x - y).
Proof.
  intros [a Ha] [b Hb]. exists (a - b)%Z.
  rewrite Ha, Hb. unfold Z.sub. rewrite inject_Z_plus, inject_Z_opp. field.
Qed.

Lemma on_grid_Qsum (l : list Q) : Forall on_grid l -> on_grid (Qsum l).
Proof.
  induction 1 as [|x l Hx _ IH]; simpl; [apply on_grid_0|].
  apply on_grid_plus; assumption.
Qed.

Lemma speaker_times_snoc (ws : list TranscriptEntry) (w : TranscriptEntry) :
  speaker_times (ws ++ [w]) = add_word_time (speaker_times ws) w.
Proof. unfold speaker_times. rewrite fold_left_app. reflexivity. Qed.

Lemma label_time_snoc (ws : list TranscriptEntry) (w : TranscriptEntry)
  (l : string) :
  label_time (ws ++ [w]) l ==
  label_time ws l + (if String.eqb (speaker w) l then word_seconds w else 0).
Proof.
  unfold label_time. rewrite List.filter_app, map_app, Qsum_app. simpl.
  destruct (String.eqb (speaker w) l); simpl; lra.
Qed.

Lemma Qsum_dict_update (d : list (string * Q)) (k : string) (dur : Q) :
  Qsum (map snd (dict_update d k 0 (fun t => t + dur))) ==
  Qsum (map snd d) + dur.
Proof.
  induction d as [|[k' v] d IH]; simpl; [lra|].
  destruct (String.eqb k' k); simpl; [lra|]. rewrite IH. lra.
Qed.

Lemma speaker_times_nodup (ws : list TranscriptEntry) :
  List.NoDup (keys (speaker_times ws)).
Proof.
  induction ws as [|w ws IH] using rev_ind; [constructor|].
  rewrite speaker_times_snoc. apply keys_dict_update_nodup, IH.
Qed.

Lemma speaker_times_keys (ws : list TranscriptEntry) (l : string) :
  In l (keys (speaker_times ws)) <-> In l (map speaker ws).
Proof.
  induction ws as [|w ws IH] using rev_ind; [reflexivity|].
  rewrite speaker_times_snoc. unfold add_word_time.
  rewrite keys_dict_update, IH, map_app, in_app_iff. simpl.
  split; intros [H|H].
  - left; exact H.
  - right; left; symmetry; exact H.
  - left; exact H.
  - right. destruct H as [H|[]]. symmetry; exact H.
Qed.

Lemma speaker_times_get (ws : list TranscriptEntry) (l : string) :
  dict_get (speaker_times ws) l 0 == label_time ws l.
Proof.
  induction ws as [|w ws IH] using rev_ind; [reflexivity|].
  rewrite speaker_times_snoc, label_time_snoc. unfold add_word_time.
  destruct (String.eqb (speaker w) l) eqn:E.
  - apply String.eqb_eq in E. subst l.
    rewrite dict_get_update_same, IH. reflexivity.
  - rewrite dict_get_update_other, IH; [lra|].
    intros ->. rewrite String.eqb_refl in E. discriminate.
Qed.

Lemma speaker_times_sum (ws : list TranscriptEntry) :
  Qsum (map snd (speaker_times ws)) == total_time ws.
Proof.
  induction ws as [|w ws IH] using rev_ind; [reflexivity|].
  rewrite speaker_times_snoc. unfold add_word_time, total_time.
  rewrite Qsum_dict_update, IH, map_app, Qsum_app. unfold total_time.
  simpl. unfold word_seconds. lra.
Qed.

Lemma stats_perm (ws : list TranscriptEntry) :
  Permutation (calculate_speaker_stats ws) (map to_stat (speaker_times ws)).
Proof. apply stable_sort_perm. Qed.

Lemma stats_ids (ws : list TranscriptEntry) :
  Permutation (map id (calculate_speaker_stats ws)) (keys (speaker_times ws)).
Proof.
  rewrite (Permutation_map id (stats_perm ws)), map_map. unfold keys.
  erewrite map_ext; [reflexivity|]. intros [k v]. reflexivity.
Qed.

Lemma stats_entry (ws : list TranscriptEntry) (s : SpeakerStat) :
  In s (calculate_speaker_stats ws) ->
  total_sec s == round2 (label_time ws (id s)).
Proof.
  intros Hin. apply (Permutation_in _ (stats_perm ws)) in Hin.
  apply in_map_iff in Hin. destruct Hin as [[k v] [<- Hin]]. simpl.
  apply round2_comp. rewrite <- speaker_times_get.
  rewrite (dict_get_in _ k v 0 (speaker_times_nodup ws) Hin). reflexivity.
Qed.

Lemma stats_sorted (ws : list TranscriptEntry) :
  sorted_desc (calculate_speaker_stats ws).
Proof.
  unfold sorted_desc, calculate_speaker_stats.
  assert (Htot : forall a b, by_total_desc a b = false -> by_total_desc b a = true).
  { intros a b. apply Qleb_total. }
  pose proof (stable_sort_sorted by_total_desc Htot
                (map to_stat (speaker_times ws))) as Hs.
  induction Hs as [|a l _ IH Hhd]; constructor; [exact IH|].
  destruct Hhd as [|b l Hab]; constructor. apply Qleb_le, Hab.
Qed.

Lemma rounded_sum_close (vs : list Q) :
  Qabs (Qsum (map round2 vs) - Qsum vs) <=
  inject_Z (Z.of_nat (length vs)) * (1 # 200).
Proof.
  induction vs as [|v vs IH].
  - vm_compute. discriminate.
  - cbn [map Qsum fold_right length]. fold (Qsum (map round2 vs)). fold (Qsum vs).
    rewrite Nat2Z.inj_succ, <- Z.add_1_r, inject_Z_plus.
    change (inject_Z 1) with 1.
    pose proof (round2_close v) as Hv.
    apply Qabs_Qle_condition in IH. apply Qabs_Qle_condition in Hv.
    apply Qabs_Qle_condition. split; lra.
Qed.

Lemma rounded_sum_exact (vs : list Q) :
  Forall on_grid vs -> Qsum (map round2 vs) == Qsum vs.
Proof.
  induction 1 as [|v vs Hv _ IH]; simpl; [reflexivity|].
  rewrite IH, (round2_fixes_grid v Hv). reflexivity.
Qed.

Lemma stats_totals (ws : list TranscriptEntry) :
  Qsum (map total_sec (calculate_speaker_stats ws)) ==
  Qsum (map round2 (map snd (speaker_times ws))).
Proof.
  rewrite (Qsum_perm _ _ (Permutation_map total_sec (stats_perm ws))).
  rewrite !map_map. erewrite map_ext; [reflexivity|]. intros [k v]. reflexivity.
Qed.

Lemma stats_length (ws : list TranscriptEntry) :
  length (calculate_speaker_stats ws) = length (speaker_times ws).
Proof.
  rewrite (Permutation_length (stats_perm ws)). apply length_map.
Qed.

Lemma label_time_on_grid (ws : list TranscriptEntry) (l : string) :
  Forall (fun w => on_grid (start w) /\ on_grid (end_ w)) ws ->
  on_grid (label_time ws l).
Proof.
  intros H. unfold label_time. apply on_grid_Qsum.
  apply List.Forall_map. apply List.Forall_forall. intros w Hw.
  apply List.filter_In in Hw. destruct Hw as [Hw _].
  rewrite List.Forall_forall in H. destruct (H w Hw) as [Hs He].
  apply on_grid_minus; assumption.
Qed.

Lemma stats_nodup (ws : list TranscriptEntry) :
  List.NoDup (map id (calculate_speaker_stats ws)).
Proof.
  apply (Permutation.Permutation_NoDup (Permutation_sym (stats_ids ws))).
  apply speaker_times_nodup.
Qed.

Lemma stats_labels (ws : list TranscriptEntry) (l : string) :
  In l (map id (calculate_speaker_stats ws)) <-> In l (map speaker ws).
Proof.
  rewrite <- speaker_times_keys. split; apply Permutation_in;
    [apply stats_ids | apply Permutation_sym, stats_ids].
Qed.

(** Words on the hundredths grid: the summary is as specified. *)
Lemma summary_exact_on_grid (ws : list TranscriptEntry) :
  Forall (fun w => on_grid (start w) /\ on_grid (end_ w)) ws ->
  summary_as_specified ws (calculate_speaker_stats ws).
Proof.
  intros Hgrid. split; [apply stats_nodup|]. split; [apply stats_labels|].
  split; [|split; [apply stats_sorted|]].
  - intros s Hs. rewrite (stats_entry ws s Hs).
    apply round2_fixes_grid, label_time_on_grid, Hgrid.
  - rewrite stats_totals, <- speaker_times_sum. apply rounded_sum_exact.
    apply List.Forall_forall. intros v Hv. apply in_map_iff in Hv.
    destruct Hv as [[k v'] [<- Hin]]. simpl.
    apply (on_grid_comp (label_time ws k)); [|apply label_time_on_grid, Hgrid].
    rewrite <- speaker_times_get.
    rewrite (dict_get_in _ k v' 0 (speaker_times_nodup ws) Hin). reflexivity.
Qed.

Lemma engine_words_on_grid (wr : WhisperResult)
  (speaker_segments : SpeakerSegments) :
  Forall (fun w => on_grid (start w) /\ on_grid (end_ w))
         (assign_speakers_to_words wr speaker_segments).
Proof.
  unfold assign_speakers_to_words. apply List.Forall_forall. intros e He.
  apply in_map_iff in He. destruct He as [w [<- _]].
  split; apply round2_on_grid.
Qed.

(** Called on a list that is not on the grid of hundredths, the function
    rounds the remainder away: one word of four milliseconds gives its
    speaker a total of 0.0, not 0.004.  [assign_speakers_to_words], the only
    caller's source of words, never produces such a list. *)
Lemma summary_not_exact_off_grid :
  let ws := [mkEntry "um" 0 (1 # 250) "speaker_1"] in
  ~ summary_as_specified ws (calculate_speaker_stats ws).
Proof.
  intros ws (_ & _ & Hexact & _).
  specialize (Hexact (mkStat "speaker_1" (round2 (1 # 250)))
                     (or_introl eq_refl)).
  vm_compute in Hexact. discriminate.
Qed.

(** On any list of words: one entry per distinct label, each total the sum
    of the label's durations rounded to two decimals, descending totals, and
    the totals adding up to the whole within 0.005 seconds per speaker. *)
Lemma speaker_stats_rounded_summary (ws : list TranscriptEntry) :
  let stats := calculate_speaker_stats ws in
  List.NoDup (map id stats) /\
  (forall l, In l (map id stats) <-> In l (map speaker ws)) /\
  (forall s, In s stats -> total_sec s == round2 (label_time ws (id s))) /\
  sorted_desc stats /\
  Qabs (Qsum (map total_sec stats) - total_time ws) <=
    inject_Z (Z.of_nat (length stats)) * (1 # 200).
Proof.
  intros stats. subst stats.
  split; [apply stats_nodup|]. split; [apply stats_labels|].
  split; [apply stats_entry|]. split; [apply stats_sorted|].
  rewrite stats_totals, stats_length, <- speaker_times_sum.
  rewrite <- (length_map snd (speaker_times ws)).
  apply rounded_sum_close.
Qed.

(** C6.  For the annotated words, [calculate_speaker_stats] returns one
    entry per distinct speaker label, an entry's [total_sec] is the sum of
    [end - start] over the words assigned that label, the entries are in
    descending order of [total_sec], and the totals add up to the sum of
    [end - start] over all annotated words.  Annotated words start and end
    on whole hundredths of a second: this holds for every such list, for
    every list [assign_speakers_to_words] returns, and for the transcript
    and the speakers of every result of [process_audio]. *)
Theorem annotated_words_summary_as_specified :
  (forall ws,
      Forall (fun w => on_grid (start w) /\ on_grid (end_ w)) ws ->
      summary_as_specified ws (calculate_speaker_stats ws)) /\
  (forall wr speaker_segments,
      let ws := assign_speakers_to_words wr speaker_segments in
      summary_as_specified ws (calculate_speaker_stats ws)) /\
  (forall np_exp a r,
      process_audio np_exp a = Ok r ->
      summary_as_specified (transcript r) (speakers r)).
Proof.
  split; [exact summary_exact_on_grid|]. split.
  - intros wr speaker_segments ws.
    apply summary_exact_on_grid, engine_words_on_grid.
  - intros np_exp a r Hr. unfold process_audio in Hr.
    destruct (load_audio a); [|discriminate].
    destruct (transcribe_with_whisper a) as [wr|]; [|discriminate].
    destruct (perform_diarization a) as [speaker_segments|]; [|discriminate].
    cbn [bind] in Hr. injection Hr as <-. cbn [transcript speakers].
    apply summary_exact_on_grid, engine_words_on_grid.
Qed.

Lemma annotated_words_summary_as_specified_witness :
  let wr := mkWhisperResult (Some "en")
              (Some [mkSegment 0 2 " um ok"
                       (Some [mkWordInfo " um" 0 (1 # 250);
                              mkWordInfo " ok" 1 (3 # 2)])
                       None]) in
  let ws := assign_speakers_to_words wr [("speaker_2", [(1, 2)])] in
  summary_as_specified ws (calculate_speaker_stats ws).
Proof.
  intros wr ws.
  exact (proj1 (proj2 annotated_words_summary_as_specified) wr
           [("speaker_2", [(1, 2)])]).
Defined.

End StatsFacts.

(** ** Diarization fallbacks *)

Module DiarizationFacts.
Import Num NumFacts PyList PyListFacts Core CoreSpec.
Local Open Scope Q_scope.

Lemma py_min_cases (a b : Q) :
  (py_min a b = b /\ b < a) \/ (py_min a b = a /\ a <= b).
Proof.
  unfold py_min. destruct (Qltb b a) eqn:E.
  - left. split; [reflexivity | apply Qltb_lt, E].
  - right. split; [reflexivity | apply Qltb_ge, E].
Qed.

(** The loop ends within [fuel] iterations when at most [30 * fuel]
    seconds remain. *)
Lemma fallback_loop_terminates (duration : Q) (fuel : nat) :
  forall (current_time : Q) (speaker_id : Z),
    duration - current_time <= 30 * inject_Z (Z.of_nat fuel) ->
    exists windows,
      fallback_loop fuel duration current_time speaker_id = Some windows.
Proof.
  induction fuel as [|fuel IH]; intros t sid Hrem; simpl.
  - destruct (Qltb t duration) eqn:E; [|eexists; reflexivity].
    apply Qltb_lt in E. change (inject_Z (Z.of_nat 0)) with 0 in Hrem. lra.
  - destruct (Qltb t duration) eqn:E; [|eexists; reflexivity].
    apply Qltb_lt in E.
    rewrite Nat2Z.inj_succ, <- Z.add_1_r, inject_Z_plus in Hrem.
    change (inject_Z 1) with 1 in Hrem.
    destruct (IH (py_min (t + segment_length) duration)
                 (if (sid =? 1)%Z then 2%Z else 1%Z)) as [ws Hws].
    + unfold segment_length.
      assert (Hf : 0 <= inject_Z (Z.of_nat fuel)).
      { change 0 with (inject_Z 0). rewrite <- Zle_Qle. lia. }
      destruct (py_min_cases (t + 30) duration) as [[-> H]|[-> H]]; lra.
    + rewrite Hws. eexists. reflexivity.
Qed.

Lemma fallback_fuel_enough (duration : Q) :
  duration - 0 <= 30 * inject_Z (Z.of_nat (fallback_fuel duration)).
Proof.
  unfold fallback_fuel, segment_length.
  pose proof (Qle_ceiling (duration / 30)) as Hc.
  assert (Hz : (Qceiling (duration / 30) <=
                Z.of_nat (Z.to_nat (Qceiling (duration / 30))))%Z) by lia.
  rewrite Zle_Qle in Hz.
  assert (Hd : duration == 30 * (duration / 30)) by field.
  lra.
Qed.

Lemma fallback_loop_alternation (duration : Q) (fuel : nat) :
  forall (current_time : Q) (speaker_id : Z) windows,
    fallback_loop fuel duration current_time speaker_id = Some windows ->
    alternation current_time speaker_id windows duration.
Proof.
  induction fuel as [|fuel IH]; intros t sid ws; simpl.
  - destruct (Qltb t duration) eqn:E; [discriminate|].
    intros [= <-]. simpl. apply Qltb_ge, E.
  - destruct (Qltb t duration) eqn:E.
    + apply Qltb_lt in E.
      destruct (fallback_loop fuel duration (py_min (t + segment_length) duration)
                  (if (sid =? 1)%Z then 2%Z else 1%Z)) as [ws'|] eqn:Hl;
        [|discriminate].
      intros [= <-]. apply IH in Hl. simpl.
      split; [reflexivity|]. split; [reflexivity|].
      unfold segment_length in *.
      destruct (py_min_cases (t + 30) duration) as [[Hm H]|[Hm H]];
        rewrite Hm in *; (repeat split; [lra | lra | lra | | exact Hl]).
      * right. reflexivity.
      * left. lra.
    + intros [= <-]. simpl. apply Qltb_ge, E.
Qed.

Lemma group_segments_snoc (ws : list (string * Q * Q)) (l : string) (s e : Q) :
  group_segments (ws ++ [(l, s, e)]) =
  dict_update (group_segments ws) l [] (fun ivs => (ivs ++ [(s, e)])%list).
Proof. unfold group_segments. rewrite fold_left_app. reflexivity. Qed.

(** The dict holds, under each label, the label's windows in order. *)
Lemma group_segments_get (ws : list (string * Q * Q)) (l : string) :
  dict_get (group_segments ws) l [] =
  map (fun w => (snd (fst w), snd w))
      (List.filter (fun w => String.eqb (fst (fst w)) l) ws).
Proof.
  induction ws as [|[[l' s] e] ws IH] using rev_ind; [reflexivity|].
  rewrite group_segments_snoc, List.filter_app, map_app. simpl.
  destruct (String.eqb l' l) eqn:E.
  - apply String.eqb_eq in E. subst l'.
    rewrite dict_get_update_same, IH. reflexivity.
  - rewrite dict_get_update_other, IH, app_nil_r; [reflexivity|].
    intros ->. rewrite String.eqb_refl in E. discriminate.
Qed.

Lemma group_segments_keys (ws : list (string * Q * Q)) (l : string) :
  In l (keys (group_segments ws)) <-> In l (map (fun w => fst (fst w)) ws).
Proof.
  induction ws as [|[[l' s] e] ws IH] using rev_ind; [reflexivity|].
  rewrite group_segments_snoc, keys_dict_update, IH, map_app, in_app_iff.
  simpl. split; intros [H|H].
  - left; exact H.
  - right; left; symmetry; exact H.
  - left; exact H.
  - right. destruct H as [H|[]]. symmetry; exact H.
Qed.

(** C4 does not hold as specified: when the pipeline raises on a 60-second
    recording, the mapping returned is one [speaker_1] interval from 0 to
    999999, not an alternation of 30-second windows over [0, 60]. *)
Lemma exception_fallback_is_not_alternation :
  let a := mkAudio (Ok 60) (Ok (mkWhisperResult None None))
                   (Some (Raise "diarization failed")) in
  ~ exists mapping,
      perform_diarization a = Ok mapping /\ two_speaker_alternation 60 mapping.
Proof.
  intros a [mapping [Hm [ws [Halt Hg]]]].
  injection Hm as <-.
  destruct ws as [|[[l1 s1] e1] ws].
  - simpl in Halt. revert Halt. vm_compute. intros H. apply H. reflexivity.
  - destruct Halt as (_ & Hs & _ & _ & Hlen & _ & Hrest).
    destruct ws as [|[[l2 s2] e2] ws].
    + simpl in Hrest. lra.
    + destruct Hrest as (Hl2 & _).
      assert (Hin : In l2 (keys single_speaker_fallback)).
      { rewrite Hg. apply group_segments_keys. simpl. right. left. reflexivity. }
      rewrite Hl2 in Hin. destruct Hin as [Hin|[]]. discriminate Hin.
Qed.

(** C4, amended.  [perform_diarization] returns a mapping, never an error,
    when diarization is missing.  With no pipeline loaded the mapping is the
    alternation of [speaker_1] and [speaker_2] over 30-second windows that
    tile the recording from 0 to its duration (the loop ends, and each
    label maps to its windows in order).  When the pipeline raises, the
    mapping is the single interval from 0 to 999999 owned by [speaker_1].
    In both cases [process_audio] returns a result once the audio is loaded
    and transcribed, so the job does not fail for want of diarization. *)
Theorem diarization_fallbacks (a : Audio) :
  (diarization_pipeline a = None ->
   forall duration, load_audio a = Ok duration ->
   exists windows,
     fallback_loop (fallback_fuel duration) duration 0 1 = Some windows /\
     alternation 0 1 windows duration /\
     perform_diarization a = Ok (group_segments windows) /\
     forall l, dict_get (group_segments windows) l [] =
               map (fun w => (snd (fst w), snd w))
                   (List.filter (fun w => String.eqb (fst (fst w)) l) windows)) /\
  (forall msg, diarization_pipeline a = Some (Raise msg) ->
               perform_diarization a = Ok [("speaker_1", [(0, 999999)])]) /\
  (forall np_exp duration whisper_result,
      load_audio a = Ok duration ->
      transcribe_with_whisper a = Ok whisper_result ->
      diarization_pipeline a = None \/
      (exists msg, diarization_pipeline a = Some (Raise msg)) ->
      exists result, process_audio np_exp a = Ok result).
Proof.
  split; [|split].
  - intros Hnone duration Hload.
    destruct (fallback_loop_terminates duration (fallback_fuel duration) 0 1
                (fallback_fuel_enough duration)) as [ws Hws].
    exists ws. split; [exact Hws|].
    split; [apply (fallback_loop_alternation _ _ _ _ _ Hws)|].
    split; [|apply group_segments_get].
    unfold perform_diarization, fallback_windows.
    rewrite Hnone, Hload. simpl. rewrite Hws. reflexivity.
  - intros msg Hraise. unfold perform_diarization. rewrite Hraise. reflexivity.
  - intros np_exp duration wr Hload Hwhisper Hmissing.
    unfold process_audio, perform_diarization.
    rewrite Hload, Hwhisper. cbn [bind].
    destruct Hmissing as [-> | [msg ->]]; cbn [bind]; eexists; reflexivity.
Qed.

(** A recording of 70 seconds without a pipeline, and one whose pipeline
    raises. *)
Lemma diarization_fallbacks_witness :
  (exists windows,
      perform_diarization (mkAudio (Ok 70) (Ok (mkWhisperResult None None)) None)
        = Ok (group_segments windows) /\
      alternation 0 1 windows 70) /\
  perform_diarization
    (mkAudio (Ok 70) (Ok (mkWhisperResult None None)) (Some (Raise "no model")))
    = Ok [("speaker_1", [(0, 999999)])].
Proof.
  split.
  - destruct (proj1 (diarization_fallbacks
                       (mkAudio (Ok 70) (Ok (mkWhisperResult None None)) None))
                eq_refl 70 eq_refl) as [ws [_ [Halt [Hd _]]]].
    exists ws. split; [exact Hd | exact Halt].
  - exact (proj1 (proj2 (diarization_fallbacks
                           (mkAudio (Ok 70) (Ok (mkWhisperResult None None))
                                    (Some (Raise "no model")))))
                 "no model" eq_refl).
Defined.

End DiarizationFacts.

(** ** Storing a result and reading it back *)

Module StoreFacts.
Import Num NumFacts PyList PyListFacts Core CoreSpec Store.
Local Open Scope Q_scope.

Lemma filter_none {A : Type} (f : A -> bool) (l : list A) :
  (forall x, In x l -> f x = false) -> List.filter f l = [].
Proof.
  induction l as [|x l IH]; intros H; simpl; [reflexivity|].
  rewrite (H x (or_introl eq_refl)). apply IH. intros y Hy. apply H. right. exact Hy.
Qed.

Lemma filter_all {A : Type} (f : A -> bool) (l : list A) :
  (forall x, In x l -> f x = true) -> List.filter f l = l.
Proof.
  induction l as [|x l IH]; intros H; simpl; [reflexivity|].
  rewrite (H x (or_introl eq_refl)). f_equal. apply IH. intros y Hy. apply H. right. exact Hy.
Qed.

(** The word rows of a task after its result is saved: the saved entries,
    in the order of the transcript. *)
Lemma saved_word_rows (d : Database) (task_id : string) (r : Result) :
  no_rows_for task_id d ->
  List.filter (fun w => String.eqb (tw_session_id w) task_id)
              (words (save_transcription_results d task_id r))
  = map (word_row task_id) (transcript r).
Proof.
  intros [Hw _]. simpl. rewrite List.filter_app, filter_none, filter_all.
  - reflexivity.
  - intros x Hx. apply in_map_iff in Hx. destruct Hx as [e [<- _]].
    apply String.eqb_refl.
  - intros x Hx. apply String.eqb_neq, Hw, Hx.
Qed.

Lemma saved_speaker_rows (d : Database) (task_id : string) (r : Result) :
  no_rows_for task_id d ->
  List.filter (fun s => String.eqb (sp_session_id s) task_id)
              (speaker_rows (save_transcription_results d task_id r))
  = map (speaker_row task_id) (speakers r).
Proof.
  intros [_ Hs]. simpl. rewrite List.filter_app, filter_none, filter_all.
  - reflexivity.
  - intros x Hx. apply in_map_iff in Hx. destruct Hx as [e [<- _]].
    apply String.eqb_refl.
  - intros x Hx. apply String.eqb_neq, Hs, Hx.
Qed.

Lemma by_start_time_total (a b : TranscriptWord) :
  by_start_time a b = false -> by_start_time b a = true.
Proof. apply Qleb_total. Qed.

Lemma by_total_seconds_desc_total (a b : Speaker) :
  by_total_seconds_desc a b = false -> by_total_seconds_desc b a = true.
Proof. apply Qleb_total. Qed.

Lemma word_rows_sorted (task_id : string) (es : list TranscriptEntry) :
  sorted_by_start es ->
  Sorted (fun a b => by_start_time a b = true) (map (word_row task_id) es).
Proof.
  induction 1 as [|e es _ IH Hhd]; simpl; constructor; [exact IH|].
  destruct Hhd as [|e' es Hle]; simpl; constructor. apply Qleb_le, Hle.
Qed.

Lemma speaker_rows_sorted (task_id : string) (stats : list SpeakerStat) :
  sorted_desc stats ->
  Sorted (fun a b => by_total_seconds_desc a b = true)
         (map (speaker_row task_id) stats).
Proof.
  induction 1 as [|e es _ IH Hhd]; simpl; constructor; [exact IH|].
  destruct Hhd as [|e' es Hle]; simpl; constructor. apply Qleb_le, Hle.
Qed.

Lemma entries_of_word_rows (task_id : string) (es : list TranscriptEntry) :
  map (fun w => mkEntry (tw_word w) (start_time w) (end_time w) (speaker_label w))
      (map (word_row task_id) es) = es.
Proof.
  rewrite map_map. rewrite <- (map_id es) at 2. apply map_ext.
  intros [w s e l]. reflexivity.
Qed.

Lemma stats_of_speaker_rows (task_id : string) (stats : list SpeakerStat) :
  map (fun s => mkStat (speaker_id s) (total_seconds s))
      (map (speaker_row task_id) stats) = stats.
Proof.
  rewrite map_map. rewrite <- (map_id stats) at 2. apply map_ext.
  intros [i t]. reflexivity.
Qed.

(** What [get_transcription_result] returns for a task whose result [r] has
    just been saved and whose session row is [session]: the transcript is
    [r]'s when that is in start order, the speakers are [r]'s when they are
    in descending order, and the three scalar fields go through [or]. *)
Lemma read_back (d : Database) (task_id : string) (r : Result)
  (session : TranscriptionSession) :
  no_rows_for task_id d ->
  sessions d !! task_id = Some session ->
  sorted_by_start (transcript r) ->
  sorted_desc (speakers r) ->
  get_transcription_result task_id (save_transcription_results d task_id r) =
  Ok (mkResult (str_or (language session) "en")
               (float_or (duration_seconds session) 0)
               (transcript r) (speakers r)
               (float_or (confidence_score session) default_confidence)).
Proof.
  intros Hnone Hsession Hwords Hspeakers. unfold get_transcription_result.
  cbn [sessions save_transcription_results]. rewrite Hsession.
  rewrite (saved_word_rows d task_id r Hnone).
  rewrite (saved_speaker_rows d task_id r Hnone).
  rewrite (stable_sort_id by_start_time _ (word_rows_sorted task_id _ Hwords)).
  rewrite (stable_sort_id by_total_seconds_desc _
             (speaker_rows_sorted task_id _ Hspeakers)).
  rewrite entries_of_word_rows, stats_of_speaker_rows. reflexivity.
Qed.

Lemma float_or_nonzero (q default : Q) :
  ~ q == 0 -> float_or (Some q) default = q.
Proof.
  intros H. simpl. destruct (Qeq_bool q 0) eqn:E; [|reflexivity].
  apply Qeq_bool_iff in E. contradiction.
Qed.

Lemma float_or_zero (q default : Q) :
  q == 0 -> float_or (Some q) default = default.
Proof.
  intros H. simpl. apply Qeq_bool_iff in H. rewrite H. reflexivity.
Qed.

(** Without any order on the fresh transcript, the transcript read back
    holds the saved entries, possibly in another order. *)
Lemma read_back_transcript (d : Database) (task_id : string) (r : Result)
  (session : TranscriptionSession) :
  no_rows_for task_id d ->
  sessions d !! task_id = Some session ->
  exists stored,
    get_transcription_result task_id (save_transcription_results d task_id r)
      = Ok stored /\
    Permutation (transcript stored) (transcript r).
Proof.
  intros Hnone Hsession. unfold get_transcription_result.
  cbn [sessions save_transcription_results]. rewrite Hsession.
  eexists. split; [reflexivity|]. cbn [transcript].
  change (words (save_transcription_results d task_id r))
    with (words d ++ map (word_row task_id) (transcript r))%list.
  pose proof (saved_word_rows d task_id r Hnone) as Hrows.
  cbn [words save_transcription_results] in Hrows. rewrite Hrows.
  rewrite <- (entries_of_word_rows task_id (transcript r)) at 2.
  apply Permutation_map, stable_sort_perm.
Qed.

(** C10.  Every emitted entry carries the word's text without leading and
    trailing whitespace and its start and end rounded to hundredths of a
    second; once the result is saved, every entry that
    [get_transcription_result] returns to a client is one of these entries,
    so its timestamps are the rounded values. *)
Theorem entries_stripped_and_rounded (wr : WhisperResult)
  (speaker_segments : SpeakerSegments) :
  Forall2
    (fun w e =>
       (exists pre post,
           wi_word w = (pre ++ word e ++ post)%string /\
           PyStr.all_space pre = true /\ PyStr.all_space post = true) /\
       (forall c, PyStr.first_char (word e) = Some c -> PyStr.isspace c = false) /\
       (forall c, PyStr.last_char (word e) = Some c -> PyStr.isspace c = false) /\
       start e = round2 (wi_start w) /\ end_ e = round2 (wi_end w) /\
       on_grid (start e) /\ on_grid (end_ e) /\
       Qabs (start e - wi_start w) <= 1 # 200 /\
       Qabs (end_ e - wi_end w) <= 1 # 200)
    (all_words wr) (assign_speakers_to_words wr speaker_segments) /\
  forall (d : Database) (task_id : string) (r : Result)
         (session : TranscriptionSession),
    transcript r = assign_speakers_to_words wr speaker_segments ->
    no_rows_for task_id d ->
    sessions d !! task_id = Some session ->
    exists stored,
      get_transcription_result task_id (save_transcription_results d task_id r)
        = Ok stored /\
      forall e, In e (transcript stored) ->
        exists w, In w (all_words wr) /\
                  word e = PyStr.strip (wi_word w) /\
                  start e = round2 (wi_start w) /\
                  end_ e = round2 (wi_end w).
Proof.
  split; [apply WordFacts.annotate_strips_and_rounds|].
  intros d task_id r session Hr Hnone Hsession.
  destruct (read_back_transcript d task_id r session Hnone Hsession)
    as [stored [Hget Hperm]].
  exists stored. split; [exact Hget|]. intros e He.
  apply (Permutation_in _ Hperm) in He. rewrite Hr in He.
  unfold assign_speakers_to_words in He. apply in_map_iff in He.
  destruct He as [w [<- Hw]]. exists w. repeat split; [exact Hw].
Qed.

End StoreFacts.

(** ** The job state machine *)

Module TaskFacts.
Import Num NumFacts PyList PyListFacts Core CoreSpec Store StoreFacts Tasks JobSpec.
Local Open Scope Q_scope.

Ltac red_world := cbn [fst snd db history clock sessions words speaker_rows].

Ltac run_step :=
  unfold lifecycle, process_transcription, create_session, save, try_except,
    mbind, lift, ret, raise, utcnow, db_get, commit;
  red_world.

(** The end of a run that raised before completion and whose handler could
    write: whatever the FAILURE notification does, the last two commits are
    the checkpoint and the failed row. *)
Ltac failed_run wk Hrec :=
  red_world; rewrite Hrec; red_world; rewrite ?lookup_insert_eq; red_world;
  destruct (update_state wk FAILURE);
  red_world;
  eexists _, _, _;
  (split; [rewrite <- app_assoc; reflexivity|]);
  rewrite lookup_insert_eq; repeat split; reflexivity.

(** The end of such a run when the handler could not write: the last commit
    is the checkpoint. *)
Ltac stuck_run wk Hrec :=
  red_world; rewrite Hrec; red_world;
  destruct (update_state wk FAILURE);
  red_world;
  eexists _, _;
  (split; [reflexivity|]);
  rewrite lookup_insert_eq; repeat split; reflexivity.

Lemma job_history_snoc (task_id : string) (d : Database) (c : Z)
  (h : list (string * TranscriptionSession)) (s : TranscriptionSession) :
  job_history task_id (mkWorld d (h ++ [(task_id, s)]) c) =
  (job_history task_id (mkWorld d h c) ++ [s])%list.
Proof.
  unfold job_history. cbn [history]. rewrite List.filter_app, map_app.
  cbn [List.filter fst]. rewrite String.eqb_refl. reflexivity.
Qed.

Lemma job_history_world (task_id : string) (w : World) (d : Database) (c : Z) :
  job_history task_id (mkWorld d (history w) c) = job_history task_id w.
Proof. reflexivity. Qed.

(** Every run in which the final SUCCESS notification does not raise obeys
    the state machine, whatever else raises. *)
Lemma runs_follow_state_machine (np_exp : Q -> Q) (wk : Worker)
  (task_id user audio_source source_type : string) (w0 : World) :
  update_state wk SUCCESS = Ok tt ->
  job_history task_id w0 = [] ->
  follows_state_machine
    (job_history task_id
       (snd (lifecycle np_exp wk task_id user audio_source source_type w0)))
  = true.
Proof.
  intros Hsuccess Hfresh. run_step. rewrite !lookup_insert_eq. red_world.
  rewrite Hsuccess.
  repeat match goal with
  | |- context [match ?o with Ok _ => _ | Raise _ => _ end] =>
      destruct o; red_world
  end;
  rewrite ?lookup_insert_eq; red_world;
  rewrite ?job_history_snoc, job_history_world, Hfresh; reflexivity.
Qed.

(** A run in which nothing raises: the result is returned, the session row
    is completed with the result fields set, the child rows are saved, and
    the commits are pending, 10, 20, 80 and completed at 100. *)
Lemma lifecycle_success (np_exp : Q -> Q) (wk : Worker)
  (task_id user audio_source source_type : string) (w0 : World) (r : Result) :
  all_ok np_exp wk audio_source r ->
  let run := lifecycle np_exp wk task_id user audio_source source_type w0 in
  fst run = Ok r /\
  (exists session,
      db (snd run) =
      save_transcription_results
        (mkDatabase (<[task_id := session]> (sessions (db w0)))
                    (words (db w0)) (speaker_rows (db w0)))
        task_id r /\
      status session = completed /\
      progress session = 100%Z /\
      Store.language session = Some (Core.language r) /\
      duration_seconds session = Some (duration_sec r) /\
      confidence_score session = Some (confidence r) /\
      error_message session = None) /\
  (job_history task_id w0 = [] ->
   map (fun s => (status s, progress s)) (job_history task_id (snd run)) =
   [(pending, 0); (processing, 10); (processing, 20); (processing, 80);
    (completed, 100)]%Z).
Proof.
  intros (Hnotify & Hload & Haudio & Hsave). run_step.
  rewrite !lookup_insert_eq. red_world.
  rewrite !Hnotify, Hload, Haudio, Hsave. red_world.
  split; [reflexivity|]. split.
  - eexists. split;
      [unfold save_transcription_results; cbn [sessions words speaker_rows];
       f_equal; rewrite !insert_insert_eq; reflexivity
      | repeat split; reflexivity].
  - intros Hfresh.
    rewrite ?job_history_snoc, job_history_world, Hfresh. reflexivity.
Qed.

Lemma process_audio_speakers (np_exp : Q -> Q) (a : Audio) (r : Result) :
  process_audio np_exp a = Ok r ->
  speakers r = calculate_speaker_stats (transcript r).
Proof.
  unfold process_audio, bind.
  destruct (load_audio a); [|discriminate].
  destruct (transcribe_with_whisper a); [|discriminate].
  destruct (perform_diarization a); [|discriminate].
  intros [= <-]. reflexivity.
Qed.

(** What a client reads back for a job that completed: the fresh
    transcript and speakers, and the three scalar fields passed through
    [or], provided the fresh transcript is in start order. *)
Lemma completed_job_read_back (np_exp : Q -> Q) (wk : Worker)
  (task_id user audio_source source_type : string) (w0 : World) (r : Result) :
  all_ok np_exp wk audio_source r ->
  no_rows_for task_id (db w0) ->
  sorted_by_start (transcript r) ->
  get_transcription_result task_id
    (db (snd (lifecycle np_exp wk task_id user audio_source source_type w0)))
  = Ok (mkResult (str_or (Some (Core.language r)) "en")
                 (float_or (Some (duration_sec r)) 0)
                 (transcript r) (speakers r)
                 (float_or (Some (confidence r)) default_confidence)).
Proof.
  intros Hok Hnone Hsorted.
  destruct (lifecycle_success np_exp wk task_id user audio_source source_type
              w0 r Hok) as (_ & (session & Hdb & _ & _ & Hl & Hd & Hc & _) & _).
  rewrite Hdb, <- Hl, <- Hd, <- Hc. apply read_back.
  - exact Hnone.
  - cbn [sessions]. apply lookup_insert_eq.
  - exact Hsorted.
  - destruct Hok as (_ & _ & Haudio & _).
    rewrite (process_audio_speakers _ _ _ Haudio). apply StatsFacts.stats_sorted.
Qed.

(** The two paths agree when the fresh transcript is in start order, the
    language is not empty and neither the duration nor the confidence is
    zero. *)
Lemma completed_job_read_back_same (np_exp : Q -> Q) (wk : Worker)
  (task_id user audio_source source_type : string) (w0 : World) (r : Result) :
  all_ok np_exp wk audio_source r ->
  no_rows_for task_id (db w0) ->
  sorted_by_start (transcript r) ->
  Core.language r <> "" ->
  ~ duration_sec r == 0 ->
  ~ confidence r == 0 ->
  get_transcription_result task_id
    (db (snd (lifecycle np_exp wk task_id user audio_source source_type w0)))
  = Ok r.
Proof.
  intros Hok Hnone Hsorted Hlang Hdur Hconf.
  rewrite (completed_job_read_back _ _ _ _ _ _ _ _ Hok Hnone Hsorted).
  rewrite (float_or_nonzero _ _ Hdur), (float_or_nonzero _ _ Hconf).
  destruct r as [l d t s c]. simpl in *.
  destruct l; [contradiction|reflexivity].
Qed.

(** C3 does not hold as specified: Whisper raises, and the handler's own
    database access raises too; [except: pass] swallows that, and the job
    stays in processing with no error message. *)
Lemma swallowed_failure_leaves_job_processing :
  let wk := mkWorker (Ok tt)
              (fun _ => mkAudio (Ok 12) (Raise "whisper: out of memory") None)
              (Ok tt) (fun _ => Ok tt) (Raise "connection lost") in
  pipeline_exception (fun _ => 1) wk "call.wav" "whisper: out of memory" /\
  ~ failure_recorded "job-1" "whisper: out of memory"
      (snd (lifecycle (fun _ => 1) wk "job-1" "alice" "call.wav" "upload"
                      empty_world)).
Proof.
  intros wk. split; [apply processing_failure; reflexivity|].
  intros [job [Hjob [Hstatus _]]].
  vm_compute in Hjob. injection Hjob as <-. discriminate Hstatus.
Qed.

(** C3, amended.  When the model loading, the audio processing or the
    persistence step raises [msg] and the handler can write to the database,
    the task commits the job as failed right after its last checkpoint: the
    status is failed, the error message is [msg], the progress is the one of
    the last checkpoint, and language, duration and confidence are still
    null.  When the handler's write raises, the error is swallowed and the
    job stays as its last checkpoint left it: processing, no error message. *)
Theorem pipeline_exception_marks_failed (np_exp : Q -> Q) (wk : Worker)
  (task_id user audio_source source_type msg : string) (w0 : World) :
  pipeline_exception np_exp wk audio_source msg ->
  let w1 := snd (lifecycle np_exp wk task_id user audio_source source_type w0) in
  (record_failure wk = Ok tt ->
   exists older prev job,
     history w1 = (older ++ [(task_id, prev); (task_id, job)])%list /\
     sessions (db w1) !! task_id = Some job /\
     status prev = processing /\
     status job = failed /\
     error_message job = Some msg /\
     progress job = progress prev /\
     Store.language job = None /\
     duration_seconds job = None /\
     confidence_score job = None) /\
  (forall e, record_failure wk = Raise e ->
   exists older prev,
     history w1 = (older ++ [(task_id, prev)])%list /\
     sessions (db w1) !! task_id = Some prev /\
     status prev = processing /\
     error_message prev = None).
Proof.
  intros Hexc w1. subst w1.
  split; [intros Hrec | intros e Hrec];
  destruct Hexc
    as [H10 Hload | H10 Hload H20 Haudio | r H10 Hload H20 Haudio H80 Hsave];
    run_step; rewrite lookup_insert_eq; rewrite H10; red_world; rewrite Hload.
  - failed_run wk Hrec.
  - red_world. rewrite H20. red_world. rewrite Haudio. failed_run wk Hrec.
  - red_world. rewrite H20. red_world. rewrite Haudio.
    red_world. rewrite H80. red_world. rewrite Hsave. failed_run wk Hrec.
  - stuck_run wk Hrec.
  - red_world. rewrite H20. red_world. rewrite Haudio. stuck_run wk Hrec.
  - red_world. rewrite H20. red_world. rewrite Haudio.
    red_world. rewrite H80. red_world. rewrite Hsave. stuck_run wk Hrec.
Qed.

(** The transcription of a recording fails in Whisper; the handler writes. *)
Lemma pipeline_exception_marks_failed_witness :
  let wk := mkWorker (Ok tt)
              (fun _ => mkAudio (Ok 12) (Raise "whisper: out of memory") None)
              (Ok tt) (fun _ => Ok tt) (Ok tt) in
  let w1 := snd (lifecycle (fun _ => 1) wk "job-1" "alice" "call.wav" "upload"
                           empty_world) in
  pipeline_exception (fun _ => 1) wk "call.wav" "whisper: out of memory" /\
  exists older prev job,
    history w1 = (older ++ [("job-1", prev); ("job-1", job)])%list /\
    sessions (db w1) !! "job-1" = Some job /\
    status prev = processing /\
    status job = failed /\
    error_message job = Some "whisper: out of memory" /\
    progress job = progress prev /\
    Store.language job = None /\
    duration_seconds job = None /\
    confidence_score job = None.
Proof.
  intros wk.
  assert (Hexc : pipeline_exception (fun _ => 1) wk "call.wav"
                                    "whisper: out of memory")
    by (apply processing_failure; reflexivity).
  split; [exact Hexc|].
  exact (proj1 (pipeline_exception_marks_failed (fun _ => 1) wk "job-1" "alice"
                  "call.wav" "upload" "whisper: out of memory" empty_world Hexc)
               eq_refl).
Defined.

(** C2.  Specified: the status of a job only moves along
    pending, processing, then completed or failed, and progress is 100
    exactly when the job is completed.  Every run whose SUCCESS notification
    does not raise obeys this, whatever else raises.  The code breaks it when
    the SUCCESS notification that follows the completed commit raises: the
    exception handler then commits the completed job as failed, with its
    progress still 100. *)
Theorem completed_job_marked_failed (np_exp : Q -> Q) :
  (forall wk task_id user audio_source source_type w0,
      update_state wk SUCCESS = Ok tt ->
      job_history task_id w0 = [] ->
      follows_state_machine
        (job_history task_id
           (snd (lifecycle np_exp wk task_id user audio_source source_type w0)))
      = true) /\
  let wr := mkWhisperResult (Some "en")
              (Some [mkSegment 0 2 " hello world"
                       (Some [mkWordInfo " hello" 0 (9 # 10);
                              mkWordInfo " world" 1 (19 # 10)]) None]) in
  let wk := mkWorker (Ok tt) (fun _ => mkAudio (Ok 2) (Ok wr) None) (Ok tt)
              (fun s => match s with
                        | SUCCESS => Raise "result backend unreachable"
                        | _ => Ok tt
                        end)
              (Ok tt) in
  let w1 := snd (lifecycle np_exp wk "job-1" "alice" "call.wav" "upload"
                           empty_world) in
  map (fun s => (status s, progress s, error_message s))
      (job_history "job-1" w1)
  = [(pending, 0%Z, None); (processing, 10%Z, None); (processing, 20%Z, None);
     (processing, 80%Z, None); (completed, 100%Z, None);
     (failed, 100%Z, Some "result backend unreachable")] /\
  follows_state_machine (job_history "job-1" w1) = false.
Proof.
  split.
  - intros wk task_id user audio_source source_type w0.
    apply runs_follow_state_machine.
  - vm_compute. split; reflexivity.
Qed.

Lemma small_confidence (np_exp : Q -> Q) (language : option string)
  (seg : Segment) (lp : Q) :
  seg_avg_logprob seg = Some lp ->
  0 <= np_exp lp -> np_exp lp < 1 # 200 ->
  calculate_confidence np_exp (mkWhisperResult language (Some [seg])) == 0.
Proof.
  intros Hlp H0 H1. unfold calculate_confidence, segment_confidences.
  cbn [wr_segments flat_map]. rewrite Hlp. cbn [app length Qsum fold_right].
  apply round2_small.
  - unfold py_max, py_min.
    destruct (Qltb (np_exp lp) 1) eqn:E1;
      [|apply Qltb_ge in E1; lra].
    destruct (Qltb 0 (np_exp lp)) eqn:E2; field_simplify; lra.
  - unfold py_max, py_min.
    destruct (Qltb (np_exp lp) 1) eqn:E1;
      [|apply Qltb_ge in E1; lra].
    destruct (Qltb 0 (np_exp lp)) eqn:E2; field_simplify; lra.
Qed.

(** A list in strict order has one arrangement in order. *)
Lemma sorted_arrangement_unique {A : Type} (lt le : A -> A -> Prop)
  (l l' : list A) :
  Transitive lt -> Transitive le ->
  (forall a b, lt a b -> le b a -> False) ->
  Sorted lt l -> Sorted le l' -> Permutation l' l -> l' = l.
Proof.
  intros Tlt Tle Hex Hl Hl'.
  apply (Sorted_StronglySorted Tlt) in Hl.
  apply (Sorted_StronglySorted Tle) in Hl'.
  revert l' Hl'. induction Hl as [|a l Hl IH Ha]; intros l' Hl' Hp.
  - symmetry in Hp. apply Permutation_nil in Hp. exact Hp.
  - destruct Hl' as [|b l' Hl' Hb].
    + apply Permutation_nil in Hp. discriminate.
    + assert (Hab : b = a).
      { assert (Hin : In b (a :: l))
          by (apply (Permutation_in _ Hp); left; reflexivity).
        destruct Hin as [->|Hin]; [reflexivity|].
        assert (Hin' : In a (b :: l'))
          by (apply (Permutation_in _ (Permutation_sym Hp)); left; reflexivity).
        destruct Hin' as [->|Hin']; [reflexivity|].
        exfalso. apply (Hex a b).
        - exact (proj1 (List.Forall_forall _ _) Ha b Hin).
        - exact (proj1 (List.Forall_forall _ _) Hb a Hin'). }
      subst b. f_equal. apply IH; [exact Hl'|].
      exact (Permutation_cons_inv Hp).
Qed.

Lemma strictly_sorted_by_start (es : list TranscriptEntry) :
  strictly_by_start es -> sorted_by_start es.
Proof.
  unfold strictly_by_start, sorted_by_start.
  induction 1 as [|a l Hs IH Hhd]; constructor; [exact IH|].
  destruct Hhd as [|b l' Hab]; constructor. apply Qlt_le_weak, Hab.
Qed.

Lemma start_order_unique (es es' : list TranscriptEntry) :
  strictly_by_start es -> Permutation es' es -> sorted_by_start es' ->
  es' = es.
Proof.
  intros Hs Hp Hs'.
  apply (sorted_arrangement_unique (fun a b => start a < start b)
           (fun a b => start a <= start b)); try assumption.
  - intros a b c Hab Hbc. exact (Qlt_trans _ _ _ Hab Hbc).
  - intros a b c Hab Hbc. exact (Qle_trans _ _ _ Hab Hbc).
  - intros a b Hab Hba. exact (Qlt_not_le _ _ Hab Hba).
Qed.

Lemma total_order_unique (stats stats' : list SpeakerStat) :
  strictly_by_total stats -> Permutation stats' stats -> sorted_desc stats' ->
  stats' = stats.
Proof.
  intros Hs Hp Hs'.
  apply (sorted_arrangement_unique (fun a b => total_sec b < total_sec a)
           (fun a b => total_sec b <= total_sec a)); try assumption.
  - intros a b c Hab Hbc. exact (Qlt_trans _ _ _ Hbc Hab).
  - intros a b c Hab Hbc. exact (Qle_trans _ _ _ Hbc Hab).
  - intros a b Hab Hba. exact (Qlt_not_le _ _ Hab Hba).
Qed.

(** C5.  Specified: the result read back by [get_transcription_result] is the
    result [process_audio] computed.  The code does this for a completed job
    in which no two words start together and no two speakers have the same
    total (the fresh lists are then the only arrangement in order, whatever
    the database does with equal keys), whose language is not empty and
    whose duration and confidence are not zero.  It breaks it for a job whose
    confidence is 0.0: [session.confidence_score or 0.85] reads the stored
    0.0 back as 0.85.  Here the only segment has [avg_logprob = -6], and
    [exp(-6)] is below 0.005, so the fresh confidence rounds to 0.0. *)
Theorem zero_confidence_read_back_as_default (np_exp : Q -> Q) :
  (forall wk task_id user audio_source source_type w0 r,
      all_ok np_exp wk audio_source r ->
      no_rows_for task_id (db w0) ->
      strictly_by_start (transcript r) ->
      strictly_by_total (speakers r) ->
      Core.language r <> "" ->
      ~ duration_sec r == 0 ->
      ~ confidence r == 0 ->
      get_transcription_result task_id
        (db (snd (lifecycle np_exp wk task_id user audio_source source_type w0)))
      = Ok r /\
      (forall es, Permutation es (transcript r) -> sorted_by_start es ->
                  es = transcript r) /\
      (forall stats, Permutation stats (speakers r) -> sorted_desc stats ->
                     stats = speakers r)) /\
  (0 <= np_exp (-6) -> np_exp (-6) < 1 # 200 ->
   let wr := mkWhisperResult (Some "en")
               (Some [mkSegment 0 2 " hello world"
                        (Some [mkWordInfo " hello" 0 (9 # 10);
                               mkWordInfo " world" 1 (19 # 10)])
                        (Some (-6))]) in
   let wk := mkWorker (Ok tt) (fun _ => mkAudio (Ok 2) (Ok wr) None) (Ok tt)
               (fun _ => Ok tt) (Ok tt) in
   let run := lifecycle np_exp wk "job-1" "alice" "call.wav" "upload"
                        empty_world in
   exists fresh stored,
     fst run = Ok fresh /\
     get_transcription_result "job-1" (db (snd run)) = Ok stored /\
     strictly_by_start (transcript fresh) /\
     strictly_by_total (speakers fresh) /\
     confidence fresh == 0 /\
     confidence stored == 85 # 100 /\
     Core.language stored = Core.language fresh /\
     duration_sec stored == duration_sec fresh /\
     transcript stored = transcript fresh /\
     speakers stored = speakers fresh).
Proof.
  split.
  { intros wk task_id user audio_source source_type w0 r
           Hok Hnone Hstart Htotal Hlang Hdur Hconf.
    split; [|split].
    - apply completed_job_read_back_same; try assumption.
      apply strictly_sorted_by_start, Hstart.
    - intros es Hp Hs. exact (start_order_unique _ _ Hstart Hp Hs).
    - intros stats Hp Hs. exact (total_order_unique _ _ Htotal Hp Hs). }
  intros H0 H1 wr wk run.
  set (words := assign_speakers_to_words wr
                  (group_segments (fallback_windows 2))).
  set (fresh := mkResult "en" (round2 2) words (calculate_speaker_stats words)
                         (calculate_confidence np_exp wr)).
  assert (Hok : all_ok np_exp wk "call.wav" fresh)
    by (repeat split; reflexivity).
  assert (Hconf : confidence fresh == 0)
    by (apply (small_confidence np_exp (Some "en") _ (-6));
        [reflexivity | exact H0 | exact H1]).
  assert (Hstrict : strictly_by_start (transcript fresh)).
  { repeat constructor. }
  assert (Htotals : strictly_by_total (speakers fresh)).
  { unfold strictly_by_total. cbn [speakers fresh].
    assert (E : calculate_speaker_stats words =
                [mkStat "speaker_1" (round2 (0 + ((90 # 100) - (0 # 100))
                                             + ((190 # 100) - (100 # 100))))])
      by (vm_compute; reflexivity).
    rewrite E. repeat constructor. }
  assert (Hnone : no_rows_for "job-1" (db empty_world))
    by (split; intros x []).
  exists fresh. eexists. split; [apply (lifecycle_success _ _ _ _ _ _ _ _ Hok)|].
  split; [apply (completed_job_read_back _ _ _ _ _ _ _ _ Hok Hnone
                   (strictly_sorted_by_start _ Hstrict))|].
  split; [exact Hstrict|]. split; [exact Htotals|].
  split; [exact Hconf|].
  cbn [confidence Core.language duration_sec transcript speakers].
  rewrite (float_or_zero _ _ Hconf).
  repeat split; reflexivity.
Qed.

(** Any function that is small enough at [-6] will do for [np.exp]. *)
Lemma zero_confidence_read_back_as_default_witness :
  let wr := mkWhisperResult (Some "en")
              (Some [mkSegment 0 2 " hello world"
                       (Some [mkWordInfo " hello" 0 (9 # 10);
                              mkWordInfo " world" 1 (19 # 10)])
                       (Some (-6))]) in
  let wk := mkWorker (Ok tt) (fun _ => mkAudio (Ok 2) (Ok wr) None) (Ok tt)
              (fun _ => Ok tt) (Ok tt) in
  let run := lifecycle (fun _ => 1 # 400) wk "job-1" "alice" "call.wav"
                       "upload" empty_world in
  exists fresh stored,
    fst run = Ok fresh /\
    get_transcription_result "job-1" (db (snd run)) = Ok stored /\
    strictly_by_start (transcript fresh) /\
    strictly_by_total (speakers fresh) /\
    confidence fresh == 0 /\
    confidence stored == 85 # 100 /\
    Core.language stored = Core.language fresh /\
    duration_sec stored == duration_sec fresh /\
    transcript stored = transcript fresh /\
    speakers stored = speakers fresh.
Proof.
  apply (proj2 (zero_confidence_read_back_as_default (fun _ => 1 # 400)));
    vm_compute; [discriminate | reflexivity].
Defined.

End TaskFacts.

(** ** The rate limiter *)

Module RateLimiterFacts.
Import RateLimiter LimiterSpec.
Local Open Scope Z_scope.

(** Eviction keeps exactly the entries whose score is outside [lo, hi]. *)
Lemma zremrangebyscore_lookup (lo hi : Z) (m : gmap string Z)
  (member : string) (score : Z) :
  zremrangebyscore lo hi m !! member = Some score <->
  m !! member = Some score /\ ~ (lo <= score <= hi).
Proof.
  unfold zremrangebyscore. rewrite map_lookup_filter_Some. cbn [snd].
  rewrite negb_true_iff, andb_false_iff, !Z.leb_gt.
  split; intros [H1 H2]; (split; [exact H1 | lia]).
Qed.

(** C7 does not hold as specified: with three requests in the window, the
    fourth is denied and its timestamp is in the set afterwards. *)
Lemma denied_call_leaves_its_timestamp :
  let rl := init 3 1 in
  let r := snd (calls rl "user:alice:10.0.0.7" [1000; 1010; 1020] ∅) in
  ~ denied_call_not_recorded rl "user:alice:10.0.0.7" 1030 r.
Proof.
  intros rl r H.
  specialize (H 429 (detail rl)
                (snd (check_rate_limit rl true "user:alice:10.0.0.7" 1030 r))
                eq_refl).
  apply (f_equal (fun m : gmap string Z => m !! "1030")) in H.
  vm_compute in H. discriminate H.
Qed.

(** C7, amended.  A call is denied exactly when the entries that survive
    the eviction already number [max_requests]; denied or not, the call is
    recorded: afterwards the set under the key is the surviving entries
    plus the current second, the key expires one window later, and no other
    key is touched. *)
Theorem every_call_is_recorded (rl : RateLimiter) (key : string)
  (current_time : Z) (r : Redis) :
  let survivors :=
    zremrangebyscore 0 (current_time - window_seconds rl)
                     (live current_time r key) in
  let outcome := check_rate_limit rl true key current_time r in
  (is_allowed (fst outcome) = false <->
   max_requests rl <= Z.of_nat (size survivors)) /\
  (exists after,
      snd outcome !! key =
        Some (mkSortedSet after (Some (current_time + window_seconds rl))) /\
      after !! pretty current_time = Some current_time /\
      forall member, member <> pretty current_time ->
                     after !! member = survivors !! member) /\
  (forall other, other <> key -> snd outcome !! other = r !! other) /\
  (forall member score,
      survivors !! member = Some score <->
      live current_time r key !! member = Some score /\
      ~ (0 <= score <= current_time - window_seconds rl)).
Proof.
  intros survivors outcome.
  assert (Hsurv : forall member score,
      survivors !! member = Some score <->
      live current_time r key !! member = Some score /\
      ~ (0 <= score <= current_time - window_seconds rl))
    by (intros; apply zremrangebyscore_lookup).
  cut ((is_allowed (fst outcome) = false <->
        max_requests rl <= Z.of_nat (size survivors)) /\
       (exists after,
           snd outcome !! key =
             Some (mkSortedSet after (Some (current_time + window_seconds rl))) /\
           after !! pretty current_time = Some current_time /\
           forall member, member <> pretty current_time ->
                          after !! member = survivors !! member) /\
       (forall other, other <> key -> snd outcome !! other = r !! other));
    [tauto|].
  subst outcome. unfold check_rate_limit.
  unfold request_count, zcard. fold survivors.
  destruct (max_requests rl <=? Z.of_nat (size survivors)) eqn:E;
    cbn [fst snd is_allowed].
  - apply Z.leb_le in E. split; [tauto|]. split.
    + eexists. split; [apply lookup_insert_eq|]. unfold pipeline_members, zadd.
      fold survivors. split; [apply lookup_insert_eq|].
      intros member Hne. apply lookup_insert_ne. congruence.
    + intros other Hne. apply lookup_insert_ne. congruence.
  - apply Z.leb_gt in E. split; [split; [discriminate | lia]|]. split.
    + eexists. split; [apply lookup_insert_eq|]. unfold pipeline_members, zadd.
      fold survivors. split; [apply lookup_insert_eq|].
      intros member Hne. apply lookup_insert_ne. congruence.
    + intros other Hne. apply lookup_insert_ne. congruence.
Qed.

(** The verdict and the key space after one call. *)
Lemma check_rate_limit_eq (rl : RateLimiter) (key : string) (t : Z) (r : Redis) :
  check_rate_limit rl true key t r =
  (let survivors := zremrangebyscore 0 (t - window_seconds rl) (live t r key) in
   (if max_requests rl <=? Z.of_nat (size survivors)
    then HTTPException 429 (detail rl) else Allowed,
    <[key := mkSortedSet (<[pretty t := t]> survivors)
                         (Some (t + window_seconds rl))]> r)).
Proof.
  unfold check_rate_limit, request_count, pipeline_members, zadd, zcard. cbv zeta.
  destruct (max_requests rl <=? _); reflexivity.
Qed.

Lemma live_after_call (key : string) (m : gmap string Z) (d now : Z) (r : Redis) :
  live now (<[key := mkSortedSet m (Some d)]> r) key =
  if d <=? now then ∅ else m.
Proof. unfold live. rewrite lookup_insert_eq. reflexivity. Qed.

Lemma nothing_evicted (hi : Z) (m : gmap string Z) :
  (forall member score, m !! member = Some score -> hi < score) ->
  zremrangebyscore 0 hi m = m.
Proof.
  intros H. unfold zremrangebyscore. apply map_filter_id.
  intros member score Hm. cbn [snd]. apply H in Hm.
  rewrite negb_true_iff, andb_false_iff, !Z.leb_gt. lia.
Qed.

(** Four calls in four different seconds of one window: allow, allow,
    allow, deny. *)
Lemma distinct_seconds_fourth_denied (key : string) (t1 t2 t3 t4 : Z) (r : Redis) :
  r !! key = None ->
  t1 < t2 -> t2 < t3 -> t3 < t4 -> t4 < t1 + 60 ->
  map is_allowed (fst (calls (init 3 1) key [t1; t2; t3; t4] r))
  = [true; true; true; false].
Proof.
  intros Hnew H12 H23 H34 Hwin.
  assert (Hp12 : pretty t1 <> pretty t2) by (intros E; apply (inj pretty) in E; lia).
  assert (Hp13 : pretty t1 <> pretty t3) by (intros E; apply (inj pretty) in E; lia).
  assert (Hp23 : pretty t2 <> pretty t3) by (intros E; apply (inj pretty) in E; lia).
  cbn [calls]. rewrite !check_rate_limit_eq. cbv zeta.
  cbn [fst snd map init window_seconds max_requests].
  change (1 * 60) with 60.
  assert (Hlive1 : live t1 r key = ∅) by (unfold live; rewrite Hnew; reflexivity).
  rewrite Hlive1.
  assert (E0 : zremrangebyscore 0 (t1 - 60) (∅ : gmap string Z) = ∅)
    by apply map_filter_empty.
  rewrite E0.
  rewrite !live_after_call.
  assert (L12 : (t1 + 60 <=? t2) = false) by (apply Z.leb_gt; lia).
  assert (L23 : (t2 + 60 <=? t3) = false) by (apply Z.leb_gt; lia).
  assert (L34 : (t3 + 60 <=? t4) = false) by (apply Z.leb_gt; lia).
  rewrite L12, L23, L34.
  set (m1 := <[pretty t1 := t1]> (∅ : gmap string Z)).
  assert (Hm1 : forall member score, m1 !! member = Some score -> score = t1).
  { intros k s. unfold m1. rewrite lookup_insert_Some, lookup_empty.
    intros [[_ <-]|[_ ?]]; [reflexivity | discriminate]. }
  rewrite (nothing_evicted (t2 - 60) m1)
    by (intros k s Hk; apply Hm1 in Hk; lia).
  set (m2 := <[pretty t2 := t2]> m1).
  assert (Hm2 : forall member score,
             m2 !! member = Some score -> score = t1 \/ score = t2).
  { intros k s. unfold m2. rewrite lookup_insert_Some.
    intros [[_ <-]|[_ Hk]]; [right; reflexivity | left; apply (Hm1 _ _ Hk)]. }
  rewrite (nothing_evicted (t3 - 60) m2)
    by (intros k s Hk; apply Hm2 in Hk; lia).
  set (m3 := <[pretty t3 := t3]> m2).
  assert (Hm3 : forall member score,
             m3 !! member = Some score -> t1 <= score).
  { intros k s. unfold m3. rewrite lookup_insert_Some.
    intros [[_ <-]|[_ Hk]]; [lia | apply Hm2 in Hk; lia]. }
  rewrite (nothing_evicted (t4 - 60) m3)
    by (intros k s Hk; apply Hm3 in Hk; lia).
  assert (S1 : size m1 = 1%nat).
  { unfold m1. rewrite map_size_insert_None by apply lookup_empty.
    rewrite map_size_empty. reflexivity. }
  assert (S2 : size m2 = 2%nat).
  { unfold m2. rewrite map_size_insert_None, S1; [reflexivity|].
    unfold m1. rewrite lookup_insert_ne by exact Hp12. apply lookup_empty. }
  assert (S3 : size m3 = 3%nat).
  { unfold m3. rewrite map_size_insert_None, S2; [reflexivity|].
    unfold m2. rewrite lookup_insert_ne by exact Hp23.
    unfold m1. rewrite lookup_insert_ne by exact Hp13. apply lookup_empty. }
  rewrite S1, S2, S3, map_size_empty. reflexivity.
Qed.

(** Once a window has passed since the last call, the key has expired and
    the next call is allowed. *)
Lemma allowed_after_quiet_window (rl : RateLimiter) (key : string)
  (last now : Z) (m : gmap string Z) (r : Redis) :
  0 < max_requests rl ->
  last + window_seconds rl <= now ->
  fst (check_rate_limit rl true key now
         (<[key := mkSortedSet m (Some (last + window_seconds rl))]> r))
  = Allowed.
Proof.
  intros Hmax Hquiet. rewrite check_rate_limit_eq. cbv zeta. cbn [fst].
  rewrite live_after_call.
  assert (E : (last + window_seconds rl <=? now) = true) by (apply Z.leb_le; lia).
  rewrite E.
  assert (E0 : zremrangebyscore 0 (now - window_seconds rl)
                 (∅ : gmap string Z) = ∅) by apply map_filter_empty.
  rewrite E0, map_size_empty.
  assert (E1 : (max_requests rl <=? Z.of_nat 0) = false) by (apply Z.leb_gt; lia).
  rewrite E1. reflexivity.
Qed.
(** C8.  Specified: with at most 3 requests per 60 seconds, four calls in
    the window give allow, allow, allow, deny, and a call after the window is
    allowed again.  The code does this for calls in four different seconds,
    and allows a call once a window has passed since the last call.  It
    breaks the first part when calls fall in the same second: the member
    added to the sorted set is [str(current_time)], so four calls in one
    second leave one entry and all four are allowed.  (The denied call is
    recorded, so a call 61 seconds after the first one is still denied.) *)
Theorem same_second_calls_all_allowed :
  (forall key t1 t2 t3 t4 (r : Redis),
      r !! key = None ->
      t1 < t2 -> t2 < t3 -> t3 < t4 -> t4 < t1 + 60 ->
      map is_allowed (fst (calls (init 3 1) key [t1; t2; t3; t4] r))
      = [true; true; true; false]) /\
  (forall key last now m (r : Redis),
      last + 60 <= now ->
      fst (check_rate_limit (init 3 1) true key now
             (<[key := mkSortedSet m (Some (last + 60))]> r))
      = Allowed) /\
  let rl := init 3 1 in
  map is_allowed
      (fst (calls rl "user:alice:10.0.0.7" [1000; 1000; 1000; 1000] ∅))
  = [true; true; true; true] /\
  size (live 1000
             (snd (calls rl "user:alice:10.0.0.7" [1000; 1000; 1000; 1000] ∅))
             "user:alice:10.0.0.7") = 1%nat /\
  map is_allowed
      (fst (calls rl "user:alice:10.0.0.7"
                  [1000; 1010; 1020; 1030; 1061; 1091] ∅))
  = [true; true; true; false; false; true].
Proof.
  split; [|split].
  - intros key t1 t2 t3 t4 r. apply distinct_seconds_fourth_denied.
  - intros key last now m r Hquiet.
    apply (allowed_after_quiet_window (init 3 1) key last now m r);
      [reflexivity | exact Hquiet].
  - vm_compute. repeat split; reflexivity.
Qed.

End RateLimiterFacts.

(** * Further properties of the transcription core *)

Module CoreMore.
Import Num NumFacts PyList PyListFacts Core CoreSpec CoreShape AssignFacts WordFacts
       StatsFacts DiarizationFacts.
Local Open Scope Q_scope.

(** Rounding to the nearest integer stays on the side of an integer bound. *)
Lemma round_half_even_ge (k : Z) (y : Q) :
  inject_Z k <= y -> (k <= round_half_even y)%Z.
Proof.
  intros H. unfold round_half_even.
  assert (Hf : (k <= Qfloor y)%Z).
  { rewrite <- (Qfloor_Z k). apply Qfloor_resp_le, H. }
  destruct (Qcompare (y - inject_Z (Qfloor y)) (1 # 2));
    [destruct (Z.even (Qfloor y))| |]; lia.
Qed.

Lemma round_half_even_le (k : Z) (y : Q) :
  y <= inject_Z k -> (round_half_even y <= k)%Z.
Proof.
  intros H. unfold round_half_even.
  assert (Hf : (Qfloor y <= k)%Z).
  { rewrite <- (Qfloor_Z k). apply Qfloor_resp_le, H. }
  destruct (Z.eq_dec (Qfloor y) k) as [E|E].
  - assert (Hc : Qcompare (y - inject_Z (Qfloor y)) (1 # 2) = Lt).
    { apply (proj1 (Qlt_alt _ _)). rewrite E. lra. }
    rewrite Hc. lia.
  - destruct (Qcompare (y - inject_Z (Qfloor y)) (1 # 2));
      [destruct (Z.even (Qfloor y))| |]; lia.
Qed.

Lemma round2_unit (x : Q) : 0 <= x -> x <= 1 -> 0 <= round2 x /\ round2 x <= 1.
Proof.
  intros H0 H1. unfold round2.
  assert (Ha : (0 <= round_half_even (x * 100))%Z)
    by (apply round_half_even_ge; change (inject_Z 0) with 0; lra).
  assert (Hb : (round_half_even (x * 100) <= 100)%Z)
    by (apply round_half_even_le; change (inject_Z 100) with 100; lra).
  rewrite Zle_Qle in Ha, Hb.
  change (inject_Z 0) with 0 in Ha. change (inject_Z 100) with 100 in Hb.
  unfold Qdiv. change (/ 100) with (1 # 100). split; lra.
Qed.

Lemma clamp_unit (v : Q) :
  0 <= py_max 0 (py_min 1 v) /\ py_max 0 (py_min 1 v) <= 1.
Proof.
  unfold py_max, py_min.
  destruct (Qltb v 1) eqn:E1; [apply Qltb_lt in E1 | apply Qltb_ge in E1].
  - destruct (Qltb 0 v) eqn:E2; [apply Qltb_lt in E2 | apply Qltb_ge in E2];
      split; lra.
  - destruct (Qltb 0 1) eqn:E2; split; lra.
Qed.

Lemma segment_confidences_unit (np_exp : Q -> Q) (segs : list Segment) :
  Forall (fun c => 0 <= c /\ c <= 1) (segment_confidences np_exp segs).
Proof.
  induction segs as [|seg segs IH]; [constructor|].
  unfold segment_confidences. cbn [flat_map].
  destruct (seg_avg_logprob seg); [|exact IH].
  constructor; [apply clamp_unit | exact IH].
Qed.

Lemma Qsum_unit (cs : list Q) :
  Forall (fun c => 0 <= c /\ c <= 1) cs ->
  0 <= Qsum cs /\ Qsum cs <= inject_Z (Z.of_nat (length cs)).
Proof.
  induction 1 as [|c cs [Hc0 Hc1] _ [IH0 IH1]].
  - split; vm_compute; discriminate.
  - cbn [Qsum fold_right length]. fold (Qsum cs).
    rewrite Nat2Z.inj_succ, <- Z.add_1_r, inject_Z_plus.
    change (inject_Z 1) with 1. split; lra.
Qed.

Lemma mean_unit (cs : list Q) :
  cs <> [] ->
  Forall (fun c => 0 <= c /\ c <= 1) cs ->
  0 <= Qsum cs / inject_Z (Z.of_nat (length cs)) /\
  Qsum cs / inject_Z (Z.of_nat (length cs)) <= 1.
Proof.
  intros Hne Hcs. destruct (Qsum_unit cs Hcs) as [H0 H1].
  assert (Hn : 0 < inject_Z (Z.of_nat (length cs))).
  { change 0 with (inject_Z 0). rewrite <- Zlt_Qlt.
    destruct cs; [contradiction | cbn [length]; lia]. }
  split.
  - apply Qle_shift_div_l; [exact Hn | lra].
  - apply Qle_shift_div_r; [exact Hn | lra].
Qed.

Lemma confidence_bounds (np_exp : Q -> Q) (wr : WhisperResult) :
  0 <= calculate_confidence np_exp wr /\ calculate_confidence np_exp wr <= 1.
Proof.
  unfold calculate_confidence.
  destruct (wr_segments wr) as [segs|]; [|unfold default_confidence; split; lra].
  pose proof (segment_confidences_unit np_exp segs) as Hunit.
  destruct (segment_confidences np_exp segs) as [|c cs] eqn:E;
    [unfold default_confidence; split; lra|].
  assert (Hne : c :: cs <> []) by discriminate.
  destruct (mean_unit (c :: cs) Hne Hunit) as [H0 H1].
  exact (round2_unit _ H0 H1).
Qed.

(** X1.  Whatever [np.exp] returns, the confidence is between 0 and 1; it
    is the default 0.85 when the result has no ["segments"] or no segment
    carries ["avg_logprob"]. *)
Theorem confidence_in_unit_interval (np_exp : Q -> Q) (wr : WhisperResult) :
  0 <= calculate_confidence np_exp wr /\
  calculate_confidence np_exp wr <= 1 /\
  ((forall seg, In seg (get_segments wr) -> seg_avg_logprob seg = None) ->
   calculate_confidence np_exp wr = 85 # 100).
Proof.
  unfold calculate_confidence, get_segments.
  destruct (wr_segments wr) as [segs|].
  - pose proof (segment_confidences_unit np_exp segs) as Hunit.
    assert (Hnone : (forall seg, In seg segs -> seg_avg_logprob seg = None) ->
                    segment_confidences np_exp segs = []).
    { clear. induction segs as [|seg segs IH]; intros H; [reflexivity|].
      unfold segment_confidences. cbn [flat_map].
      rewrite (H seg (or_introl eq_refl)). apply IH.
      intros s Hs. apply H. right. exact Hs. }
    destruct (segment_confidences np_exp segs) as [|c cs] eqn:E.
    + repeat split; try reflexivity; unfold default_confidence; lra.
    + assert (Hne : c :: cs <> []) by discriminate.
      destruct (mean_unit (c :: cs) Hne Hunit) as [H0 H1].
      destruct (round2_unit _ H0 H1) as [R0 R1].
      split; [exact R0|]. split; [exact R1|].
      intros H. specialize (Hnone H). discriminate.
  - repeat split; try reflexivity; unfold default_confidence; lra.
Qed.

Lemma containing_owner (m : Q) (speaker_segments : SpeakerSegments) (o : string) :
  In o (containing m speaker_segments) ->
  exists ivs iv,
    In (o, ivs) speaker_segments /\ In iv ivs /\ fst iv <= m /\ m <= snd iv.
Proof.
  unfold containing. intros H. apply in_flat_map in H.
  destruct H as [[speaker_id ivs] [Hin Ho]].
  apply in_map_iff in Ho. destruct Ho as [iv [<- Hf]].
  apply filter_In in Hf. destruct Hf as [Hiv Hc].
  apply contains_spec in Hc. exists ivs, iv. tauto.
Qed.

Lemma assign_speaker_cases (speaker_segments : SpeakerSegments) (w : WordInfo) :
  assign_speaker speaker_segments w = default_speaker \/
  exists ivs iv,
    In (assign_speaker speaker_segments w, ivs) speaker_segments /\
    In iv ivs /\ fst iv <= word_mid w /\ word_mid w <= snd iv.
Proof.
  unfold assign_speaker. rewrite scan_speakers_spec. unfold first_other_label.
  destruct (List.find _ _) as [o|] eqn:Hf; [right | left; reflexivity].
  apply find_some in Hf. apply containing_owner, (proj1 Hf).
Qed.

Lemma timestamped_words_length (segs : list Segment) :
  length (timestamped_words segs) = list_sum (map timed_count segs).
Proof.
  induction segs as [|seg segs IH]; [reflexivity|].
  unfold timestamped_words in *. cbn [flat_map map list_sum].
  rewrite length_app, IH. unfold timed_count. destruct (seg_words seg); reflexivity.
Qed.

(** X2.  As soon as one segment carries a word with a timestamp, only the
    timestamped words are annotated: a segment without ["words"] then
    contributes nothing, whatever its text. *)
Theorem timed_segment_silences_plain_text (wr : WhisperResult)
  (speaker_segments : SpeakerSegments) (seg : Segment) (w : WordInfo)
  (ws : list WordInfo) :
  In seg (get_segments wr) ->
  seg_words seg = Some (w :: ws) ->
  assign_speakers_to_words wr speaker_segments =
    map (annotate speaker_segments) (timestamped_words (get_segments wr)) /\
  length (assign_speakers_to_words wr speaker_segments) =
    list_sum (map timed_count (get_segments wr)).
Proof.
  intros Hin Hw.
  assert (Hne : timestamped_words (get_segments wr) <> []).
  { intros E. assert (Hw' : In w (timestamped_words (get_segments wr))).
    { unfold timestamped_words. apply in_flat_map. exists seg.
      split; [exact Hin|]. rewrite Hw. left. reflexivity. }
    rewrite E in Hw'. contradiction. }
  assert (Hall : all_words wr = timestamped_words (get_segments wr)).
  { unfold all_words. destruct (timestamped_words (get_segments wr));
      [contradiction | reflexivity]. }
  unfold assign_speakers_to_words. rewrite Hall. split; [reflexivity|].
  rewrite length_map. apply timestamped_words_length.
Qed.

Lemma timed_segment_silences_plain_text_witness :
  let timed := mkSegment 0 1 "hi" (Some [mkWordInfo "hi" 0 1]) None in
  let plain := mkSegment 1 5 "never seen" None None in
  map word (assign_speakers_to_words
              (mkWhisperResult None (Some [plain; timed])) []) = ["hi"].
Proof.
  intros timed plain.
  rewrite (proj1 (timed_segment_silences_plain_text
                    (mkWhisperResult None (Some [plain; timed])) []
                    timed (mkWordInfo "hi" 0 1) []
                    (or_intror (or_introl eq_refl)) eq_refl)).
  reflexivity.
Defined.

(** X3.  A word is never given a label out of thin air: its label is the
    default ["speaker_1"], or a key of the mapping one of whose intervals
    contains the midpoint of the word. *)
Theorem label_is_default_or_owner (wr : WhisperResult)
  (speaker_segments : SpeakerSegments) :
  (forall w,
      assign_speaker speaker_segments w = "speaker_1" \/
      exists ivs iv,
        In (assign_speaker speaker_segments w, ivs) speaker_segments /\
        In iv ivs /\ fst iv <= word_mid w /\ word_mid w <= snd iv) /\
  Forall (fun e => speaker e = "speaker_1" \/
                   In (speaker e) (keys speaker_segments))
         (assign_speakers_to_words wr speaker_segments).
Proof.
  split; [intros w; apply assign_speaker_cases|].
  unfold assign_speakers_to_words. apply List.Forall_forall. intros e He.
  apply in_map_iff in He. destruct He as [w [<- _]]. cbn [annotate speaker].
  destruct (assign_speaker_cases speaker_segments w) as [H|[ivs [iv [H _]]]];
    [left; exact H | right].
  unfold keys. apply in_map_iff. exists (assign_speaker speaker_segments w, ivs).
  split; [reflexivity | exact H].
Qed.

Lemma spread_nth_inv (s wd : Q) (words : list string) (i0 : Z) (i : nat)
  (w : WordInfo) :
  nth_error (spread s wd i0 words) i = Some w ->
  exists tok,
    nth_error words i = Some tok /\
    w = mkWordInfo tok (fl (s + fl (inject_Z (i0 + Z.of_nat i) * wd)))
                       (fl (s + fl (inject_Z (i0 + Z.of_nat i + 1) * wd))).
Proof.
  intros H. destruct (nth_error words i) as [tok|] eqn:E.
  - exists tok. split; [reflexivity|].
    rewrite (spread_nth s wd words i0 i tok E) in H. congruence.
  - apply nth_error_None in E. rewrite <- (spread_length s wd i0) in E.
    apply nth_error_None in E. congruence.
Qed.

(** X4.  The words synthesized for a segment tile it: the first starts at
    the start of the segment (rounded to binary64, so at the start itself
    when that is a float), each ends exactly where the next starts, and the
    last ends at the end of the segment up to binary64 rounding, though not
    always on it; a text without tokens gives no word at all. *)
Theorem synthesized_words_tile_segment (seg : Segment) :
  (PyStr.split (seg_text seg) = [] -> synth_words seg = []) /\
  (forall w, nth_error (synth_words seg) 0 = Some w ->
             wi_start w = fl (seg_start seg)) /\
  (forall i a b,
      nth_error (synth_words seg) i = Some a ->
      nth_error (synth_words seg) (S i) = Some b ->
      wi_end a = wi_start b) /\
  (forall w,
      nth_error (synth_words seg) (length (synth_words seg) - 1) = Some w ->
      Qabs (wi_end w - seg_end seg)
      <= spread_tolerance seg (Z.of_nat (length (synth_words seg)))) /\
  (let short := mkSegment 0 (fl (21 # 100)) "a b c" None None in
   exists w, nth_error (synth_words short) 2 = Some w /\
             wi_end w < seg_end short /\
             round2 (wi_end w) == round2 (seg_end short)).
Proof.
  split; [unfold synth_words; intros E; rewrite E; reflexivity|].
  split; [|split; [|split]].
  - intros w H. unfold synth_words in H. cbv zeta in H.
    apply spread_nth_inv in H. destruct H as [tok [_ ->]].
    cbn [wi_start]. apply fl_comp.
    change (inject_Z (0 + Z.of_nat 0)) with 0.
    rewrite Qmult_0_l. change (fl 0) with 0. ring.
  - intros i a b Ha Hb. unfold synth_words in Ha, Hb. cbv zeta in Ha, Hb.
    apply spread_nth_inv in Ha, Hb.
    destruct Ha as [ta [_ ->]]. destruct Hb as [tb [_ ->]].
    cbn [wi_start wi_end].
    replace (0 + Z.of_nat (S i))%Z with (0 + Z.of_nat i + 1)%Z by lia.
    reflexivity.
  - intros w H.
    assert (Hlen : length (synth_words seg)
                   = length (PyStr.split (seg_text seg)))
      by (unfold synth_words; apply spread_length).
    rewrite Hlen in *.
    set (tokens := PyStr.split (seg_text seg)) in *.
    assert (Hpos : (0 < length tokens)%nat).
    { assert (Hs : nth_error (synth_words seg) (length tokens - 1) <> None)
        by congruence.
      apply nth_error_Some in Hs. lia. }
    destruct (nth_error tokens (length tokens - 1)) as [tok|] eqn:Htok;
      [|apply nth_error_None in Htok; lia].
    rewrite (synth_words_nth seg _ tok Htok) in H. injection H as <-.
    cbn [wi_end]. fold tokens.
    replace (Z.of_nat (length tokens - 1) + 1)%Z
      with (Z.of_nat (length tokens)) by lia.
    set (n := Z.of_nat (length tokens)).
    assert (Hn : (0 < n)%Z) by (unfold n; lia).
    assert (Hend : seg_end seg ==
                   seg_start seg
                   + inject_Z n * ((seg_end seg - seg_start seg) / inject_Z n)).
    { assert (~ inject_Z n == 0).
      { intros E. assert (0 < inject_Z n); [|lra].
        change 0 with (inject_Z 0). rewrite <- Zlt_Qlt. exact Hn. }
      field. assumption. }
    rewrite Hend at 2. apply spread_time_close; lia.
  - cbv zeta. eexists. split; [vm_compute; reflexivity|].
    split; vm_compute; reflexivity.
Qed.

Lemma only_default_key (speaker_segments : SpeakerSegments) (w : WordInfo) :
  (forall k, In k (keys speaker_segments) -> k = default_speaker) ->
  assign_speaker speaker_segments w = default_speaker.
Proof.
  intros Hk.
  destruct (assign_speaker_cases speaker_segments w) as [H|[ivs [iv [H _]]]];
    [exact H|].
  apply Hk. unfold keys. apply in_map_iff.
  exists (assign_speaker speaker_segments w, ivs). split; [reflexivity|exact H].
Qed.

(** A recording of at most 30 seconds gets no second window. *)
Lemma short_fallback_keys (duration : Q) (k : string) :
  duration <= 30 ->
  In k (keys (group_segments (fallback_windows duration))) ->
  k = default_speaker.
Proof.
  intros Hd Hk. apply group_segments_keys in Hk.
  unfold fallback_windows in Hk.
  destruct (fallback_loop _ _ _ _) as [windows|] eqn:E; [|contradiction].
  apply fallback_loop_alternation in E.
  destruct windows as [|[[l s] e] rest]; [contradiction|].
  cbn [alternation] in E.
  destruct E as [Hl [Hs [Hse [Hed [_ [Hcut Hrest]]]]]].
  destruct rest as [|[[l2 s2] e2] rest'].
  - destruct Hk as [<-|[]]. exact Hl.
  - cbn [alternation] in Hrest.
    destruct Hrest as [_ [Hs2 [Hse2 [He2 _]]]].
    exfalso. destruct Hcut as [Hc|Hc]; lra.
Qed.

Lemma nodup_constant (a : string) (l : list string) :
  List.NoDup l -> (forall x, In x l -> x = a) -> l = [] \/ l = [a].
Proof.
  intros Hnd Hall. destruct l as [|x [|y l]]; [left; reflexivity | right |].
  - rewrite (Hall x (or_introl eq_refl)). reflexivity.
  - exfalso. inversion Hnd as [|? ? Hnotin _]; subst. apply Hnotin.
    rewrite (Hall x (or_introl eq_refl)),
            (Hall y (or_intror (or_introl eq_refl))).
    left. reflexivity.
Qed.

(** One label in the transcript: one entry in the summary, with the whole
    speaking time. *)
Lemma single_label_summary (wr : WhisperResult)
  (speaker_segments : SpeakerSegments) :
  let ws := assign_speakers_to_words wr speaker_segments in
  Forall (fun e => speaker e = default_speaker) ws ->
  ws <> [] ->
  exists s, calculate_speaker_stats ws = [s] /\ id s = default_speaker /\
            total_sec s == total_time ws.
Proof.
  intros ws Hall Hne.
  pose proof (summary_exact_on_grid ws
                (engine_words_on_grid wr speaker_segments)) as Hsum.
  destruct Hsum as [Hnd [Hlab [_ [_ Htot]]]].
  assert (Hids : forall x, In x (map id (calculate_speaker_stats ws)) ->
                           x = default_speaker).
  { intros x Hx. apply Hlab in Hx. apply in_map_iff in Hx.
    destruct Hx as [e [<- He]].
    exact (proj1 (List.Forall_forall _ _) Hall e He). }
  destruct (nodup_constant default_speaker _ Hnd Hids) as [E|E].
  - exfalso. destruct ws as [|e ws'] eqn:Ews; [contradiction|].
    assert (Hin : In (speaker e) (map id (calculate_speaker_stats (e :: ws')))).
    { apply Hlab. left. reflexivity. }
    rewrite E in Hin. contradiction.
  - destruct (calculate_speaker_stats ws) as [|s [|s' rest]] eqn:Es;
      try discriminate.
    exists s. split; [reflexivity|]. cbn in E. split; [congruence|].
    cbn in Htot. lra.
Qed.

(** X5.  A recording of at most 30 seconds processed without a diarization
    pipeline, and any recording whose pipeline raises, comes out with the one
    label ["speaker_1"]: every word carries it, and the summary has exactly
    one entry, whose total is the speaking time of the whole transcript. *)
Theorem short_or_failed_diarization_single_speaker (np_exp : Q -> Q) (a : Audio)
  (r : Result) :
  process_audio np_exp a = Ok r ->
  (diarization_pipeline a = None /\
   exists duration, load_audio a = Ok duration /\ duration <= 30) \/
  (exists msg, diarization_pipeline a = Some (Raise msg)) ->
  Forall (fun e => speaker e = "speaker_1") (transcript r) /\
  (transcript r = [] -> speakers r = []) /\
  (transcript r <> [] ->
   exists s, speakers r = [s] /\ id s = "speaker_1" /\
             total_sec s == total_time (transcript r)).
Proof.
  intros Hr Hcase. unfold process_audio in Hr.
  destruct (load_audio a) as [duration|] eqn:El; [|discriminate].
  destruct (transcribe_with_whisper a) as [wr|] eqn:Ew; [|discriminate].
  cbn [bind] in Hr.
  assert (Hmap : exists speaker_segments,
             perform_diarization a = Ok speaker_segments /\
             forall k, In k (keys speaker_segments) -> k = default_speaker).
  { unfold perform_diarization.
    destruct Hcase as [[Hp [d [Hd Hle]]]|[msg Hp]]; rewrite Hp.
    - rewrite El. cbn [bind]. eexists. split; [reflexivity|].
      intros k Hk. rewrite ?El in Hd. injection Hd as <-.
      exact (short_fallback_keys duration k Hle Hk).
    - eexists. split; [reflexivity|]. intros k [<-|[]]. reflexivity. }
  destruct Hmap as [speaker_segments [Hd Hkeys]].
  rewrite Hd in Hr. cbn [bind] in Hr. injection Hr as <-.
  cbn [transcript speakers].
  assert (Hall : Forall (fun e => speaker e = default_speaker)
                        (assign_speakers_to_words wr speaker_segments)).
  { unfold assign_speakers_to_words. apply List.Forall_forall. intros e He.
    apply in_map_iff in He. destruct He as [w [<- _]].
    cbn [annotate speaker]. apply only_default_key, Hkeys. }
  split; [exact Hall|]. split.
  - intros E. rewrite E. reflexivity.
  - intros Hne. exact (single_label_summary wr speaker_segments Hall Hne).
Qed.

Lemma short_or_failed_diarization_single_speaker_witness :
  let wr := mkWhisperResult (Some "en")
              (Some [mkSegment 0 4 "one two" None None]) in
  let a := mkAudio (Ok 10) (Ok wr) None in
  exists r,
    process_audio (fun _ => 1) a = Ok r /\
    Forall (fun e => speaker e = "speaker_1") (transcript r).
Proof.
  intros wr a. eexists. split; [vm_compute; reflexivity|].
  refine (proj1 (short_or_failed_diarization_single_speaker
                   (fun _ => 1) a _ _ _)).
  - vm_compute. reflexivity.
  - left. split; [reflexivity|]. exists 10. split; [reflexivity|].
    vm_compute. discriminate.
Defined.

Lemma group_segments_nodup (ws : list (string * Q * Q)) :
  List.NoDup (keys (group_segments ws)).
Proof.
  induction ws as [|[[l s] e] ws IH] using rev_ind; [constructor|].
  rewrite group_segments_snoc. apply keys_dict_update_nodup, IH.
Qed.

Lemma after_last_underscore_plain (s : string) :
  has_underscore s = false -> after_last_underscore s = s.
Proof.
  unfold has_underscore. destruct s as [|c s]; [reflexivity|].
  cbn [list_ascii_of_string existsb after_last_underscore].
  intros H. apply orb_false_elim in H. destruct H as [Hc Hs].
  rewrite Ascii.eqb_sym in Hc. rewrite Hc, Hs. reflexivity.
Qed.

Lemma has_underscore_app (p s : string) :
  has_underscore (p ++ s) = has_underscore p || has_underscore s.
Proof.
  unfold has_underscore. induction p as [|c p IH]; [reflexivity|].
  change (String c p ++ s)%string with (String c (p ++ s)%string).
  cbn [list_ascii_of_string existsb]. rewrite IH. apply orb_assoc.
Qed.

Lemma after_last_underscore_app (p s : string) :
  has_underscore s = false ->
  after_last_underscore (p ++ String "_" s) = s.
Proof.
  intros Hs. induction p as [|c p IH].
  - change (after_last_underscore s = s).
    apply after_last_underscore_plain, Hs.
  - change (String c p ++ String "_" s)%string
      with (String c (p ++ String "_" s)%string).
    cbn [after_last_underscore].
    destruct (Ascii.eqb c "_"); [exact IH|].
    fold (has_underscore (p ++ String "_" s)).
    rewrite has_underscore_app.
    replace (has_underscore (String "_" s)) with true by reflexivity.
    rewrite orb_true_r. exact IH.
Qed.

Lemma prefix_app (p s : string) : String.prefix p (p ++ s) = true.
Proof.
  induction p as [|c p IH]; [destruct s; reflexivity|].
  change (String c p ++ s)%string with (String c (p ++ s)%string).
  cbn [String.prefix]. destruct (ascii_dec c c); [exact IH | contradiction].
Qed.

(** X6.  With a working pipeline every turn is kept: the mapping has one key
    per distinct speaker id, each key holds the turns of its speakers in
    track order, and every key starts with ["speaker_"].  The id keeps what
    follows the last underscore of the pipeline's label, so that labels
    which agree there share one key. *)
Theorem diarization_groups_every_turn (a : Audio)
  (tracks : list (Q * Q * string)) :
  diarization_pipeline a = Some (Ok tracks) ->
  exists mapping,
    perform_diarization a = Ok mapping /\
    List.NoDup (keys mapping) /\
    (forall l, In l (keys mapping) <->
               exists t, In t tracks /\ speaker_id_of (snd t) = l) /\
    (forall l, dict_get mapping l [] =
               map fst (List.filter
                          (fun t => String.eqb (speaker_id_of (snd t)) l)
                          tracks)) /\
    (forall l, In l (keys mapping) -> String.prefix "speaker_" l = true) /\
    (forall p s, has_underscore s = false ->
                 speaker_id_of (p ++ String "_" s) = ("speaker_" ++ s)%string) /\
    (forall s, has_underscore s = false ->
               speaker_id_of s = ("speaker_" ++ s)%string).
Proof.
  intros Hp. unfold perform_diarization. rewrite Hp.
  eexists. split; [reflexivity|].
  split; [apply group_segments_nodup|].
  assert (Hkeys : forall l,
             In l (keys (group_segments
                           (map (fun '(s, e, speaker) =>
                                   (speaker_id_of speaker, s, e)) tracks))) <->
             exists t, In t tracks /\ speaker_id_of (snd t) = l).
  { intros l. rewrite group_segments_keys, map_map, in_map_iff.
    split; intros [[[s e] sp] [H1 H2]].
    - exists (s, e, sp). split; [exact H2 | exact H1].
    - exists (s, e, sp). split; [exact H2 | exact H1]. }
  split; [exact Hkeys|]. split; [|split; [|split]].
  - intros l. rewrite group_segments_get. clear Hp Hkeys.
    induction tracks as [|[[s e] sp] tracks IH]; [reflexivity|].
    cbn [map List.filter fst snd].
    destruct (String.eqb (speaker_id_of sp) l); cbn [map fst snd];
      rewrite IH; reflexivity.
  - intros l Hl. apply Hkeys in Hl. destruct Hl as [t [_ <-]].
    unfold speaker_id_of. apply prefix_app.
  - intros p s Hs. unfold speaker_id_of.
    fold (has_underscore (p ++ String "_" s)). rewrite has_underscore_app.
    replace (has_underscore (String "_" s)) with true by reflexivity.
    rewrite orb_true_r, after_last_underscore_app by exact Hs. reflexivity.
  - intros s Hs. unfold speaker_id_of. fold (has_underscore s).
    rewrite Hs. reflexivity.
Qed.

Lemma diarization_groups_every_turn_witness :
  let tracks := [(0, 2, "SPEAKER_00"); (2, 5, "SPEAKER_01"); (5, 6, "A_00")] in
  exists mapping,
    perform_diarization (mkAudio (Ok 6) (Raise "unused") (Some (Ok tracks)))
      = Ok mapping /\
    dict_get mapping "speaker_00" [] = [(0, 2); (5, 6)].
Proof.
  intros tracks.
  destruct (diarization_groups_every_turn
              (mkAudio (Ok 6) (Raise "unused") (Some (Ok tracks))) tracks eq_refl)
    as [mapping [Hm [_ [_ [Hget _]]]]].
  exists mapping. split; [exact Hm|]. rewrite Hget. reflexivity.
Defined.

Lemma keys_dict_update_order {V : Type} (d : list (string * V)) (k : string)
  (init : V) (f : V -> V) :
  keys (dict_update d k init f) =
  if existsb (String.eqb k) (keys d) then keys d else (keys d ++ [k])%list.
Proof.
  induction d as [|[k' v] d IH]; [reflexivity|].
  cbn [dict_update keys map fst existsb]. rewrite (String.eqb_sym k k').
  destruct (String.eqb k' k); [reflexivity|].
  cbn [map fst orb]. fold (keys (dict_update d k init f)). fold (keys d).
  rewrite IH. destruct (existsb (String.eqb k) (keys d)); reflexivity.
Qed.

Lemma speaker_times_order (ws : list TranscriptEntry) :
  keys (speaker_times ws) = first_appearances (map speaker ws).
Proof.
  unfold speaker_times, first_appearances.
  assert (H : forall d : list (string * Q),
             keys (fold_left add_word_time ws d) =
             fold_left (fun seen l =>
                          if existsb (String.eqb l) seen then seen
                          else (seen ++ [l])%list)
                       (map speaker ws) (keys d)).
  { induction ws as [|w ws IH]; intros d; [reflexivity|].
    cbn [fold_left map]. rewrite IH. unfold add_word_time.
    rewrite keys_dict_update_order. reflexivity. }
  exact (H []).
Qed.

(** Inserting into a list sorted by descending total does not move an entry
    past another one with the same total. *)
Lemma insert_sorted_filter (t : Q) (x : SpeakerStat) (l : list SpeakerStat) :
  List.filter (has_total t) (insert_sorted by_total_desc x l) =
  List.filter (has_total t) (x :: l).
Proof.
  induction l as [|y l IH]; [reflexivity|].
  cbn [insert_sorted]. destruct (by_total_desc x y) eqn:E; [reflexivity|].
  cbn [List.filter]. rewrite IH. cbn [List.filter].
  destruct (has_total t x) eqn:Hx; [|reflexivity].
  destruct (has_total t y) eqn:Hy; [|reflexivity].
  exfalso. unfold has_total in Hx, Hy. apply Qeq_bool_iff in Hx, Hy.
  unfold by_total_desc in E. apply Qleb_gt in E. lra.
Qed.

Lemma stable_sort_filter (t : Q) (l : list SpeakerStat) :
  List.filter (has_total t) (stable_sort by_total_desc l) =
  List.filter (has_total t) l.
Proof.
  induction l as [|x l IH]; [reflexivity|].
  cbn [stable_sort fold_right]. fold (stable_sort by_total_desc l).
  rewrite insert_sorted_filter. cbn [List.filter]. rewrite IH. reflexivity.
Qed.

(** X7.  Ties in the summary are broken by first appearance: the dict of
    speaking times lists the speakers in the order in which they first
    appear in the transcript, and the sort keeps that order among the
    entries that have the same total. *)
Theorem equal_totals_keep_first_appearance_order (ws : list TranscriptEntry) :
  keys (speaker_times ws) = first_appearances (map speaker ws) /\
  forall t,
    List.filter (has_total t) (calculate_speaker_stats ws) =
    List.filter (has_total t) (map to_stat (speaker_times ws)).
Proof.
  split; [apply speaker_times_order|].
  intros t. unfold calculate_speaker_stats. apply stable_sort_filter.
Qed.

(** X8.  [process_audio] raises exactly when loading the audio or the
    transcription raises, with that exception; no failure of the diarization
    pipeline ever reaches the caller. *)
Theorem process_audio_raises_only_from_load_or_whisper (np_exp : Q -> Q)
  (a : Audio) (msg : string) :
  process_audio np_exp a = Raise msg <->
  load_audio a = Raise msg \/
  (exists duration, load_audio a = Ok duration /\
                    transcribe_with_whisper a = Raise msg).
Proof.
  unfold process_audio, perform_diarization.
  destruct (load_audio a) as [duration|m1] eqn:El; cbn [bind].
  - destruct (transcribe_with_whisper a) as [wr|m2]; cbn [bind].
    + destruct (diarization_pipeline a) as [[tracks|m3]|]; cbn [bind];
        (split; [discriminate|]);
        (intros [H|[d [_ H]]]; discriminate).
    + split.
      * intros H. right. exists duration. split; [reflexivity | congruence].
      * intros [H|[d [_ H]]]; [discriminate | congruence].
  - split.
    + intros H. left. congruence.
    + intros [H|[d [H _]]]; [congruence | discriminate].
Qed.

(** X9.  A result of [process_audio] is consistent with itself: the duration
    and every timestamp are multiples of 0.01, the confidence is between 0
    and 1, the summary names exactly the labels of the transcript, once
    each, and its totals add up to the speaking time of the transcript. *)
Theorem process_audio_result_consistent (np_exp : Q -> Q) (a : Audio)
  (r : Result) :
  process_audio np_exp a = Ok r ->
  on_grid (duration_sec r) /\
  0 <= confidence r /\ confidence r <= 1 /\
  Forall (fun e => on_grid (start e) /\ on_grid (end_ e)) (transcript r) /\
  List.NoDup (map id (speakers r)) /\
  (forall l, In l (map id (speakers r)) <-> In l (map speaker (transcript r))) /\
  Qsum (map total_sec (speakers r)) == total_time (transcript r).
Proof.
  intros Hr. unfold process_audio in Hr.
  destruct (load_audio a) as [duration|]; [|discriminate].
  destruct (transcribe_with_whisper a) as [wr|]; [|discriminate].
  destruct (perform_diarization a) as [speaker_segments|]; [|discriminate].
  cbn [bind] in Hr. injection Hr as <-.
  cbn [duration_sec confidence transcript speakers].
  pose proof (engine_words_on_grid wr speaker_segments) as Hgrid.
  destruct (summary_exact_on_grid _ Hgrid) as [Hnd [Hlab [_ [_ Htot]]]].
  destruct (confidence_bounds np_exp wr) as [Hc0 Hc1].
  split; [apply round2_on_grid|]. tauto.
Qed.

Lemma process_audio_result_consistent_witness :
  let wr := mkWhisperResult (Some "en")
              (Some [mkSegment 0 4 "one two" None (Some (-1 # 2))]) in
  let a := mkAudio (Ok (1234567 # 100000)) (Ok wr) None in
  exists r,
    process_audio (fun _ => 3 # 5) a = Ok r /\
    on_grid (duration_sec r) /\ 0 <= confidence r /\ confidence r <= 1.
Proof.
  intros wr a. eexists. split; [vm_compute; reflexivity|].
  refine ((fun H => conj (proj1 H) (conj (proj1 (proj2 H))
                                         (proj1 (proj2 (proj2 H)))))
            (process_audio_result_consistent (fun _ => 3 # 5) a _ _)).
  vm_compute. reflexivity.
Defined.

End CoreMore.

(** * Further properties of the store and of the background task *)

Module JobMore.
Import Num NumFacts PyList PyListFacts Core CoreSpec Store StoreFacts Tasks
       JobSpec TaskFacts.
Local Open Scope Q_scope.

Lemma filter_other_words (a b : string) (es : list TranscriptEntry) :
  a <> b ->
  List.filter (fun w => String.eqb (tw_session_id w) a) (map (word_row b) es) = [].
Proof.
  intros Hne. apply filter_none. intros x Hx. apply in_map_iff in Hx.
  destruct Hx as [e [<- _]]. cbn [word_row tw_session_id].
  apply String.eqb_neq. congruence.
Qed.

Lemma filter_other_speakers (a b : string) (stats : list SpeakerStat) :
  a <> b ->
  List.filter (fun s => String.eqb (sp_session_id s) a)
              (map (speaker_row b) stats) = [].
Proof.
  intros Hne. apply filter_none. intros x Hx. apply in_map_iff in Hx.
  destruct Hx as [e [<- _]]. cbn [speaker_row sp_session_id].
  apply String.eqb_neq. congruence.
Qed.

(** X10.  Saving the result of one task changes nothing in what is read
    back for any other task. *)
Theorem other_results_unchanged_by_save (d : Database) (a b : string)
  (r : Result) :
  a <> b ->
  get_transcription_result a (save_transcription_results d b r) =
  get_transcription_result a d.
Proof.
  intros Hne. unfold get_transcription_result, save_transcription_results.
  cbn [sessions words speaker_rows].
  rewrite !List.filter_app, filter_other_words, filter_other_speakers,
    !app_nil_r by exact Hne.
  reflexivity.
Qed.

Lemma other_results_unchanged_by_save_witness :
  let d := mkDatabase
             {[ "job-a" := mkSession "alice" "a.wav" "upload" completed 100 0%Z
                             None None None None None None ]}
             [mkWordRow "job-a" "hi" 0 1 "speaker_1"] [] in
  let r := mkResult "en" 2 [mkEntry "yo" 0 2 "speaker_2"]
                    [mkStat "speaker_2" 2] (1 # 2) in
  get_transcription_result "job-a" (save_transcription_results d "job-b" r) =
  get_transcription_result "job-a" d.
Proof.
  intros d r. apply other_results_unchanged_by_save. discriminate.
Defined.

Lemma sorted_map {A B : Type} (f : A -> B) (R : A -> A -> Prop)
  (R' : B -> B -> Prop) (l : list A) :
  (forall a b, R a b -> R' (f a) (f b)) ->
  Sorted R l -> Sorted R' (map f l).
Proof.
  intros HR. induction 1 as [|a l Hs IH Hhd]; [constructor|].
  cbn [map]. constructor; [exact IH|].
  destruct Hhd as [|b l' Hab]; constructor. apply HR, Hab.
Qed.

(** X11.  Whatever order the task stored them in, a result is read back
    with its words in non-decreasing order of start time and its speakers in
    non-increasing order of total time; no entry is lost or added. *)
Theorem read_back_is_sorted (d : Database) (task_id : string) (r : Result)
  (session : TranscriptionSession) :
  no_rows_for task_id d ->
  sessions d !! task_id = Some session ->
  exists stored,
    get_transcription_result task_id (save_transcription_results d task_id r)
      = Ok stored /\
    sorted_by_start (transcript stored) /\
    Permutation (transcript stored) (transcript r) /\
    sorted_desc (speakers stored) /\
    Permutation (speakers stored) (speakers r).
Proof.
  intros Hnone Hs. unfold get_transcription_result.
  replace (sessions (save_transcription_results d task_id r) !! task_id)
    with (Some session) by (symmetry; exact Hs).
  rewrite (saved_word_rows d task_id r Hnone),
          (saved_speaker_rows d task_id r Hnone).
  eexists. split; [reflexivity|]. cbn [transcript speakers].
  split; [|split; [|split]].
  - unfold sorted_by_start.
    apply (sorted_map _ (fun a b => by_start_time a b = true)).
    + intros a b Hab. unfold by_start_time in Hab. apply Qleb_le in Hab.
      exact Hab.
    + apply stable_sort_sorted, by_start_time_total.
  - rewrite <- (entries_of_word_rows task_id (transcript r)) at 2.
    apply Permutation_map, stable_sort_perm.
  - unfold sorted_desc.
    apply (sorted_map _ (fun a b => by_total_seconds_desc a b = true)).
    + intros a b Hab. unfold by_total_seconds_desc in Hab.
      apply Qleb_le in Hab. exact Hab.
    + apply stable_sort_sorted, by_total_seconds_desc_total.
  - rewrite <- (stats_of_speaker_rows task_id (speakers r)) at 2.
    apply Permutation_map, stable_sort_perm.
Qed.

Lemma read_back_is_sorted_witness :
  let session := mkSession "alice" "a.wav" "upload" completed 100 0%Z
                           None None None None None None in
  let d := mkDatabase {[ "job-a" := session ]} [] [] in
  let r := mkResult "en" 3 [mkEntry "late" 2 3 "speaker_1";
                            mkEntry "early" 0 1 "speaker_1"]
                    [mkStat "speaker_1" 2] (1 # 2) in
  exists stored,
    get_transcription_result "job-a" (save_transcription_results d "job-a" r)
      = Ok stored /\
    sorted_by_start (transcript stored).
Proof.
  intros session d r.
  destruct (read_back_is_sorted d "job-a" r session) as [stored [H1 [H2 _]]].
  - split; intros x [].
  - reflexivity.
  - exists stored. split; [exact H1 | exact H2].
Defined.

(** X12.  A task started for an id that has no job row raises and writes
    nothing: the database, the commit log and the clock are as before; the
    exception names the missing session unless the FAILURE notification
    itself raises. *)
Theorem unknown_task_changes_nothing (np_exp : Q -> Q) (wk : Worker)
  (task_id audio_source : string) (w : World) :
  sessions (db w) !! task_id = None ->
  let run := process_transcription np_exp wk task_id audio_source w in
  snd run = w /\
  (exists msg, fst run = Raise msg) /\
  (update_state wk FAILURE = Ok tt ->
   fst run = Raise ("Session " ++ task_id ++ " not found")).
Proof.
  intros Hnone. run_step. rewrite Hnone. red_world.
  destruct (record_failure wk); red_world; rewrite ?Hnone; red_world;
    destruct (update_state wk FAILURE) as [[]|m]; red_world;
    (split; [reflexivity|]); (split; [eexists; reflexivity|]);
    intros H; first [reflexivity | discriminate H].
Qed.

Lemma unknown_task_changes_nothing_witness :
  let wk := mkWorker (Ok tt) (fun _ => mkAudio (Ok 1) (Raise "unused") None)
                     (Ok tt) (fun _ => Ok tt) (Ok tt) in
  process_transcription (fun _ => 1) wk "ghost" "a.wav" empty_world =
  (Raise "Session ghost not found", empty_world).
Proof.
  intros wk.
  destruct (unknown_task_changes_nothing (fun _ => 1) wk "ghost" "a.wav"
              empty_world eq_refl) as [Hw [_ Hmsg]].
  specialize (Hmsg eq_refl).
  destruct (process_transcription (fun _ => 1) wk "ghost" "a.wav" empty_world)
    as [o w']. cbn [fst snd] in Hw, Hmsg. rewrite Hw, Hmsg. reflexivity.
Defined.

(** Splits a run of the task along every call that may raise. *)
Ltac split_outcomes :=
  repeat match goal with
  | |- context [match ?o with Ok _ => _ | Raise _ => _ end] =>
      destruct o; red_world; rewrite ?lookup_insert_eq; red_world
  end.

Ltac rows_appended :=
  first
    [ exists [], []; rewrite !app_nil_r; repeat split; constructor
    | eexists _, _; repeat split;
      apply List.Forall_forall; intros row Hrow; apply in_map_iff in Hrow;
      destruct Hrow as [e [<- _]]; reflexivity ].

(** X13.  Whatever raises during a run, the task writes to no job row but
    its own, never changes the owner, the source or the creation time of its
    job, deletes no child row, and adds child rows for its own id only. *)
Theorem task_writes_only_its_job (np_exp : Q -> Q) (wk : Worker)
  (task_id audio_source : string) (w : World) :
  let w' := snd (process_transcription np_exp wk task_id audio_source w) in
  (forall other, other <> task_id ->
                 sessions (db w') !! other = sessions (db w) !! other) /\
  (forall s, sessions (db w) !! task_id = Some s ->
             exists s', sessions (db w') !! task_id = Some s' /\
                        user_id s' = user_id s /\
                        Store.audio_source s' = Store.audio_source s /\
                        source_type s' = source_type s /\
                        created_at s' = created_at s) /\
  (exists new_words new_speakers,
      words (db w') = (words (db w) ++ new_words)%list /\
      speaker_rows (db w') = (speaker_rows (db w) ++ new_speakers)%list /\
      Forall (fun row => tw_session_id row = task_id) new_words /\
      Forall (fun row => sp_session_id row = task_id) new_speakers).
Proof.
  run_step. destruct (sessions (db w) !! task_id) as [s|] eqn:Hs; red_world.
  - split_outcomes; unfold save_transcription_results; red_world;
      (split; [intros other Hne;
               rewrite ?lookup_insert_ne by congruence; reflexivity|]);
      (split; [intros s0 [= <-]; eexists;
               rewrite ?lookup_insert_eq;
               split; [reflexivity | repeat split; reflexivity]|]);
      rows_appended.
  - destruct (record_failure wk); red_world; rewrite ?Hs; red_world;
      destruct (update_state wk FAILURE); red_world;
      (split; [reflexivity|]); (split; [intros s0 [=]|]); rows_appended.
Qed.

(** A run in which nothing raises, started on a job row in any state. *)
Lemma process_success (np_exp : Q -> Q) (wk : Worker)
  (task_id audio_source : string) (w : World) (s : TranscriptionSession)
  (r : Result) :
  sessions (db w) !! task_id = Some s ->
  all_ok np_exp wk audio_source r ->
  let run := process_transcription np_exp wk task_id audio_source w in
  fst run = Ok r /\
  exists s',
    db (snd run) =
    save_transcription_results
      (mkDatabase (<[task_id := s']> (sessions (db w)))
                  (words (db w)) (speaker_rows (db w)))
      task_id r /\
    status s' = completed /\ progress s' = 100%Z /\
    error_message s' = error_message s.
Proof.
  intros Hs (Hnotify & Hload & Haudio & Hsave). run_step.
  rewrite Hs. red_world.
  rewrite !Hnotify, Hload, Haudio, Hsave. red_world.
  split; [reflexivity|]. eexists. split;
    [unfold save_transcription_results; cbn [sessions words speaker_rows];
     f_equal; rewrite !insert_insert_eq; reflexivity
    | repeat split; reflexivity].
Qed.

Lemma filter_own_words (task_id : string) (es : list TranscriptEntry) :
  List.filter (fun w => String.eqb (tw_session_id w) task_id)
              (map (word_row task_id) es) = map (word_row task_id) es.
Proof.
  apply filter_all. intros x Hx. apply in_map_iff in Hx.
  destruct Hx as [e [<- _]]. apply String.eqb_refl.
Qed.

Lemma filter_own_speakers (task_id : string) (stats : list SpeakerStat) :
  List.filter (fun s => String.eqb (sp_session_id s) task_id)
              (map (speaker_row task_id) stats) = map (speaker_row task_id) stats.
Proof.
  apply filter_all. intros x Hx. apply in_map_iff in Hx.
  destruct Hx as [e [<- _]]. apply String.eqb_refl.
Qed.

(** X14.  The task does not look at the state of its job: run on a job that
    is already completed or failed, it processes the recording again, marks
    the job completed, keeps the old error message, and appends its rows to
    those already stored, so that the result read back holds the earlier
    entries and the new ones. *)
Theorem rerun_appends_to_stored_result (np_exp : Q -> Q) (wk : Worker)
  (task_id audio_source : string) (w : World) (s : TranscriptionSession)
  (r : Result) :
  sessions (db w) !! task_id = Some s ->
  all_ok np_exp wk audio_source r ->
  let run := process_transcription np_exp wk task_id audio_source w in
  fst run = Ok r /\
  (exists s', sessions (db (snd run)) !! task_id = Some s' /\
              status s' = completed /\ progress s' = 100%Z /\
              error_message s' = error_message s) /\
  words (db (snd run)) =
    (words (db w) ++ map (word_row task_id) (transcript r))%list /\
  speaker_rows (db (snd run)) =
    (speaker_rows (db w) ++ map (speaker_row task_id) (speakers r))%list /\
  forall before after,
    get_transcription_result task_id (db w) = Ok before ->
    get_transcription_result task_id (db (snd run)) = Ok after ->
    Permutation (transcript after) (transcript before ++ transcript r) /\
    Permutation (speakers after) (speakers before ++ speakers r).
Proof.
  intros Hs Hok run.
  destruct (process_success np_exp wk task_id audio_source w s r Hs Hok)
    as [Hr [s' [Hdb [Hst [Hpr Herr]]]]].
  fold run in Hr, Hdb.
  split; [exact Hr|]. split.
  { exists s'. rewrite Hdb. cbn [save_transcription_results sessions].
    rewrite lookup_insert_eq. repeat split; assumption. }
  split; [rewrite Hdb; reflexivity|]. split; [rewrite Hdb; reflexivity|].
  intros before after Hb Ha. rewrite Hdb in Ha.
  unfold get_transcription_result in Hb, Ha.
  rewrite Hs in Hb. injection Hb as <-.
  cbn [save_transcription_results sessions words speaker_rows] in Ha.
  rewrite lookup_insert_eq in Ha. injection Ha as <-.
  cbn [transcript speakers].
  rewrite !List.filter_app, filter_own_words, filter_own_speakers.
  split.
  - rewrite <- (entries_of_word_rows task_id (transcript r)) at 2.
    rewrite <- map_app. apply Permutation_map.
    rewrite stable_sort_perm. apply Permutation_app_tail.
    symmetry. apply stable_sort_perm.
  - rewrite <- (stats_of_speaker_rows task_id (speakers r)) at 2.
    rewrite <- map_app. apply Permutation_map.
    rewrite stable_sort_perm. apply Permutation_app_tail.
    symmetry. apply stable_sort_perm.
Qed.

Lemma rerun_appends_to_stored_result_witness :
  let wr := mkWhisperResult (Some "en")
              (Some [mkSegment 0 2 "hello" None None]) in
  let wk := mkWorker (Ok tt) (fun _ => mkAudio (Ok 2) (Ok wr) None) (Ok tt)
                     (fun _ => Ok tt) (Ok tt) in
  let done := mkSession "alice" "a.wav" "upload" completed 100 0%Z (Some 1%Z)
                        (Some 2%Z) (Some "en") (Some 2) (Some (1 # 2)) None in
  let w := mkWorld (mkDatabase {[ "job-1" := done ]}
                               [mkWordRow "job-1" "hello" 0 2 "speaker_1"]
                               [mkSpeakerRow "job-1" "speaker_1" 2]) [] 3%Z in
  map tw_word
      (words (db (snd (process_transcription (fun _ => 1) wk "job-1" "a.wav" w))))
  = ["hello"; "hello"].
Proof.
  intros wr wk done w.
  assert (Hok : exists r, all_ok (fun _ => 1) wk "a.wav" r /\
                          map word (transcript r) = ["hello"]).
  { eexists. split; [|shelve].
    split; [reflexivity|]. split; [reflexivity|].
    split; [vm_compute; reflexivity | reflexivity].
    Unshelve. reflexivity. }
  destruct Hok as [r [Hok Hwords]].
  destruct (rerun_appends_to_stored_result (fun _ => 1) wk "job-1" "a.wav" w
              done r eq_refl Hok) as [_ [_ [Hrows _]]].
  rewrite Hrows, map_app, map_map. cbn [word_row tw_word].
  change (map (fun x => word x) (transcript r)) with (map word (transcript r)).
  rewrite Hwords. reflexivity.
Defined.

(** X15.  When the model loading, the audio processing or the persistence
    step raises, the run leaves the two child tables as they were: a job
    that failed this way has no transcript and no speaker rows. *)
Theorem failed_pipeline_saves_no_rows (np_exp : Q -> Q) (wk : Worker)
  (task_id audio_source msg : string) (w : World) :
  pipeline_exception np_exp wk audio_source msg ->
  let w' := snd (process_transcription np_exp wk task_id audio_source w) in
  words (db w') = words (db w) /\ speaker_rows (db w') = speaker_rows (db w).
Proof.
  intros Hexc. run_step.
  destruct (sessions (db w) !! task_id) as [s|] eqn:Hs; red_world.
  - destruct Hexc as [H10 Hload | H10 Hload H20 Haudio
                     | result H10 Hload H20 Haudio H80 Hsave];
      rewrite ?H10, ?Hload, ?H20, ?Haudio, ?H80, ?Hsave; red_world;
      rewrite ?H10, ?Hload, ?H20, ?Haudio, ?H80, ?Hsave; red_world;
      split_outcomes; split; reflexivity.
  - destruct (record_failure wk); red_world; rewrite ?Hs; red_world;
      destruct (update_state wk FAILURE); red_world; split; reflexivity.
Qed.

Lemma failed_pipeline_saves_no_rows_witness :
  let wk := mkWorker (Ok tt)
              (fun _ => mkAudio (Ok 12) (Raise "whisper: out of memory") None)
              (Ok tt) (fun _ => Ok tt) (Ok tt) in
  words (db (snd (lifecycle (fun _ => 1) wk "job-1" "alice" "call.wav"
                            "upload" empty_world))) = [].
Proof.
  intros wk.
  assert (Hexc : pipeline_exception (fun _ => 1) wk "call.wav"
                                    "whisper: out of memory").
  { apply processing_failure; reflexivity. }
  unfold lifecycle, mbind.
  destruct (create_session "job-1" "alice" "call.wav" "upload" empty_world)
    as [[[]|m] w1] eqn:E; [|discriminate E].
  destruct (failed_pipeline_saves_no_rows (fun _ => 1) wk "job-1" "call.wav"
              "whisper: out of memory" w1 Hexc) as [Hw _].
  rewrite Hw. injection E as <-. reflexivity.
Defined.

End JobMore.

(** * Further properties of the rate limiter *)

Module WindowFacts.
Import RateLimiter RateLimiterFacts SlidingWindow.
Local Open Scope Z_scope.

(** A set whose members are the decimal texts of the seconds of a
    duplicate-free list has as many members as the list. *)
Lemma size_of_listed (L : list Z) (m : gmap string Z) :
  NoDup L ->
  (forall k v, m !! k = Some v <-> k = pretty v /\ v ∈ L) ->
  size m = length L.
Proof.
  intros Hnd Hm.
  assert (Hkeys : NoDup ((fun v : Z => (pretty v, v)) <$> L).*1).
  { rewrite <- list_fmap_compose. apply (NoDup_fmap_2 _), Hnd. }
  assert (E : m = list_to_map ((fun v : Z => (pretty v, v)) <$> L)).
  { apply map_eq. intros k. apply option_eq. intros v.
    rewrite Hm, <- (elem_of_list_to_map _ _ _ Hkeys), list_elem_of_fmap.
    split.
    - intros [-> Hv]. exists v. split; [reflexivity | exact Hv].
    - intros [v' [[= -> ->] Hv]]. split; [reflexivity | exact Hv]. }
  rewrite E, (map_size_list_to_map _ Hkeys), length_fmap. reflexivity.
Qed.

Lemma remembers_empty (rl : RateLimiter) (key : string) (r : Redis) :
  r !! key = None -> remembers rl key [] r.
Proof.
  intros Hr t _ k v. unfold live. rewrite Hr, zremrangebyscore_lookup.
  split.
  - intros [H _]. rewrite lookup_empty in H. discriminate.
  - intros [_ [H _]]. apply elem_of_nil in H. contradiction.
Qed.

Lemma remembers_step (rl : RateLimiter) (key : string) (seen : list Z) (t : Z)
  (r : Redis) :
  remembers rl key seen r ->
  Forall (fun s => 0 <= s <= t) seen ->
  0 <= t ->
  remembers rl key (t :: seen) (snd (check_rate_limit rl true key t r)).
Proof.
  intros Hrem Hseen Ht t' Hall k v.
  assert (Htt' : t <= t') by (inversion Hall; assumption).
  assert (Hle : Forall (fun s => s <= t) seen).
  { eapply Forall_impl; [exact Hseen|]. cbn. intros; lia. }
  specialize (Hrem t Hle).
  rewrite check_rate_limit_eq. cbn [snd]. rewrite live_after_call.
  rewrite zremrangebyscore_lookup, elem_of_cons.
  destruct (t + window_seconds rl <=? t') eqn:E.
  - apply Z.leb_le in E. split.
    + intros [H _]. rewrite lookup_empty in H. discriminate.
    + intros [_ [[->|Hin] Hlt]]; [lia|].
      rewrite Forall_forall in Hseen. apply Hseen in Hin. lia.
  - apply Z.leb_gt in E. rewrite lookup_insert_Some. split.
    + intros [[[<- <-]|[Hne Hs]] Hout].
      * split; [reflexivity|]. split; [left; reflexivity | lia].
      * apply Hrem in Hs. destruct Hs as [-> [Hin Hlt]].
        split; [reflexivity|]. split; [right; exact Hin|].
        rewrite Forall_forall in Hseen. apply Hseen in Hin. lia.
    + intros [-> [Hin Hlt]].
      assert (Hv : 0 <= v <= t).
      { destruct Hin as [->|Hin]; [lia|].
        rewrite Forall_forall in Hseen. apply Hseen in Hin. exact Hin. }
      split; [|lia].
      destruct (decide (v = t)) as [->|Hne]; [left; split; reflexivity|].
      right. split; [intros Heq; apply (inj pretty) in Heq; congruence|].
      apply Hrem. split; [reflexivity|]. split; [|lia].
      destruct Hin as [->|Hin]; [contradiction | exact Hin].
Qed.

Lemma verdict_by_count (rl : RateLimiter) (key : string) (seen : list Z)
  (t : Z) (r : Redis) :
  remembers rl key seen r ->
  Forall (fun s => s <= t) seen ->
  is_allowed (fst (check_rate_limit rl true key t r)) =
  negb (max_requests rl <=? Z.of_nat (length (counted rl t seen))).
Proof.
  intros Hrem Hle. rewrite check_rate_limit_eq. cbn [fst].
  rewrite (size_of_listed (counted rl t seen)).
  - destruct (max_requests rl <=? _); reflexivity.
  - apply NoDup_remove_dups.
  - intros k v. rewrite (Hrem t Hle). unfold counted.
    rewrite elem_of_remove_dups, list_elem_of_filter. tauto.
Qed.

Lemma calls_by_count (rl : RateLimiter) (key : string) (times : list Z) :
  forall (seen : list Z) (lo : Z) (r : Redis),
    remembers rl key seen r ->
    Forall (fun s => 0 <= s <= lo) seen ->
    0 <= lo ->
    ascending_from lo times ->
    map is_allowed (fst (calls rl key times r)) =
    verdicts_by_count rl seen times.
Proof.
  induction times as [|t rest IH]; intros seen lo r Hrem Hseen Hlo Hasc;
    [reflexivity|].
  destruct Hasc as [Hlt Hasc].
  assert (Hseen' : Forall (fun s => 0 <= s <= t) seen).
  { eapply Forall_impl; [exact Hseen|]. cbn. intros; lia. }
  cbn [calls fst map verdicts_by_count]. f_equal.
  - apply verdict_by_count; [exact Hrem|].
    eapply Forall_impl; [exact Hseen'|]. cbn. intros; lia.
  - apply (IH (t :: seen) t).
    + apply remembers_step; [exact Hrem | exact Hseen' | lia].
    + constructor; [lia | exact Hseen'].
    + lia.
    + exact Hasc.
Qed.

(** X16.  Every attempt counts for its second, allowed or not: on a fresh
    key, a call at second [t] is allowed exactly when fewer than
    [max_requests] distinct seconds of earlier attempts are less than
    [window_seconds] older than [t]. *)
Theorem attempts_counted_by_second (rl : RateLimiter) (key : string)
  (times : list Z) (r : Redis) :
  r !! key = None ->
  ascending_from 0 times ->
  map is_allowed (fst (calls rl key times r)) = verdicts_by_count rl [] times.
Proof.
  intros Hr Hasc. apply (calls_by_count rl key times [] 0).
  - apply remembers_empty, Hr.
  - constructor.
  - lia.
  - exact Hasc.
Qed.

Lemma attempts_counted_by_second_witness :
  map is_allowed
      (fst (calls (init 2 1) "user:alice:10.0.0.7" [100; 100; 130; 159; 191] ∅))
  = [true; true; true; false; true].
Proof.
  rewrite (attempts_counted_by_second (init 2 1) "user:alice:10.0.0.7"
             [100; 100; 130; 159; 191] ∅).
  - vm_compute. reflexivity.
  - reflexivity.
  - cbn. lia.
Defined.

Lemma ascending_seconds (lo t : Z) (n : nat) :
  lo <= t -> ascending_from lo (seconds_from t n).
Proof.
  revert lo t. induction n as [|n IH]; intros lo t Hle; [exact I|].
  cbn [seconds_from ascending_from]. split; [exact Hle | apply IH; lia].
Qed.

(** After [k] attempts in the [k] seconds before [t], a call at [t] counts
    [k] of them, or a window less one second if there are more. *)
Lemma counted_consecutive (rl : RateLimiter) (t k : Z) (seen : list Z) :
  0 <= k -> 0 < window_seconds rl ->
  (forall v, v ∈ seen <-> t - k <= v < t) ->
  Z.of_nat (length (counted rl t seen)) = Z.min k (window_seconds rl - 1).
Proof.
  intros Hk Hw Hseen.
  assert (Hperm : counted rl t seen ≡ₚ
                  seqZ (Z.max (t - k) (t - window_seconds rl + 1))
                       (Z.min k (window_seconds rl - 1))).
  { apply NoDup_Permutation.
    - apply NoDup_remove_dups.
    - apply NoDup_seqZ.
    - intros v. unfold counted.
      rewrite elem_of_remove_dups, list_elem_of_filter, Hseen, elem_of_seqZ.
      lia. }
  rewrite (Permutation_length Hperm), length_seqZ. lia.
Qed.

Lemma verdicts_consecutive (rl : RateLimiter) (n : nat) :
  0 < max_requests rl -> max_requests rl < window_seconds rl ->
  forall (k t : Z) (seen : list Z),
    0 <= k ->
    (forall v, v ∈ seen <-> t - k <= v < t) ->
    verdicts_by_count rl seen (seconds_from t n) =
    map (fun i => k + Z.of_nat i <? max_requests rl) (seq 0 n).
Proof.
  intros Hmax Hw. induction n as [|n IH]; intros k t seen Hk Hseen;
    [reflexivity|].
  cbn [seconds_from verdicts_by_count seq map]. f_equal.
  - rewrite (counted_consecutive rl t k seen Hk) by (exact Hseen || lia).
    destruct (Z.leb_spec (max_requests rl) (Z.min k (window_seconds rl - 1)));
      destruct (Z.ltb_spec (k + Z.of_nat 0) (max_requests rl));
      try reflexivity; lia.
  - rewrite (IH (k + 1) (t + 1) (t :: seen)).
    + rewrite <- seq_shift, map_map. apply map_ext. intros i.
      f_equal. lia.
    + lia.
    + intros v. rewrite elem_of_cons, Hseen. lia.
Qed.

(** X17.  A client that retries every second locks itself out: with a limit
    below the window length, the first [max_requests] calls are allowed and
    every later call is denied, however long the client goes on, because
    the denied attempts are counted too. *)
Theorem steady_retries_stay_denied (rl : RateLimiter) (key : string) (t0 : Z)
  (n : nat) (r : Redis) :
  r !! key = None ->
  0 <= t0 ->
  0 < max_requests rl ->
  max_requests rl < window_seconds rl ->
  map is_allowed (fst (calls rl key (seconds_from t0 n) r)) =
  map (fun i => Z.of_nat i <? max_requests rl) (seq 0 n).
Proof.
  intros Hr Ht0 Hmax Hw.
  rewrite (calls_by_count rl key (seconds_from t0 n) [] 0 r).
  - rewrite (verdicts_consecutive rl n Hmax Hw 0 t0 []).
    + reflexivity.
    + lia.
    + intros v. rewrite elem_of_nil. lia.
  - apply remembers_empty, Hr.
  - constructor.
  - lia.
  - apply ascending_seconds, Ht0.
Qed.

Lemma steady_retries_stay_denied_witness :
  map is_allowed
      (fst (calls (init 2 1) "user:alice:10.0.0.7" (seconds_from 1000 200) ∅))
  = ([true; true] ++ repeat false 198)%list.
Proof.
  rewrite (steady_retries_stay_denied (init 2 1) "user:alice:10.0.0.7" 1000
             200 ∅).
  - vm_compute. reflexivity.
  - reflexivity.
  - lia.
  - reflexivity.
  - reflexivity.
Defined.

Lemma calls_other_key (rl : RateLimiter) (key other : string) (times : list Z) :
  other <> key ->
  forall r : Redis, snd (calls rl key times r) !! other = r !! other.
Proof.
  intros Hne. induction times as [|t rest IH]; intros r; [reflexivity|].
  cbn [calls snd]. rewrite IH, check_rate_limit_eq. cbn [snd].
  apply lookup_insert_ne. congruence.
Qed.

Lemma verdict_depends_on_key (rl : RateLimiter) (up : bool) (key : string)
  (t : Z) (r r' : Redis) :
  r' !! key = r !! key ->
  fst (check_rate_limit rl up key t r') = fst (check_rate_limit rl up key t r).
Proof.
  intros H. unfold check_rate_limit, request_count, live. rewrite H.
  destruct up; [|reflexivity].
  destruct (max_requests rl <=? _); reflexivity.
Qed.

(** X18.  Keys are limited independently: calls for one key, however many,
    leave the set of every other key as it was, and with it the verdict of
    any later call for that other key. *)
Theorem keys_limited_independently (rl : RateLimiter) (key other : string)
  (times : list Z) (r : Redis) :
  other <> key ->
  snd (calls rl key times r) !! other = r !! other /\
  forall up t,
    fst (check_rate_limit rl up other t (snd (calls rl key times r))) =
    fst (check_rate_limit rl up other t r).
Proof.
  intros Hne. split; [apply calls_other_key, Hne|].
  intros up t. apply verdict_depends_on_key, calls_other_key, Hne.
Qed.

Lemma keys_limited_independently_witness :
  fst (check_rate_limit (init 1 1) true "user:bob:10.0.0.8" 1003
         (snd (calls (init 1 1) "user:alice:10.0.0.7" [1000; 1001; 1002] ∅)))
  = Allowed.
Proof.
  rewrite (proj2 (keys_limited_independently (init 1 1) "user:alice:10.0.0.7"
                    "user:bob:10.0.0.8" [1000; 1001; 1002] ∅
                    ltac:(discriminate))).
  reflexivity.
Defined.

End WindowFacts.

(** * Properties of the HTTP endpoints *)

Module ApiFacts.
Import Num NumFacts PyList Core CoreSpec Store StoreFacts Tasks JobSpec
       TaskFacts RateLimiter RateLimiterFacts Api.
Local Open Scope Z_scope.

(** X19.  Who gets in: a caller is authenticated as the subject of a token
    that verifies (as ["anonymous"] when the token has no subject), or as
    ["api_user"] when the credentials do not verify as a token and are the
    API key; every other caller gets the same 401, whatever made the token
    fail. *)
Theorem authentication_accepts_token_or_key
  (verify_jwt_token : string -> outcome (option string)) (credentials : string) :
  (forall u,
      get_current_user verify_jwt_token credentials = Returns u <->
      verify_jwt_token credentials = Ok (Some u) \/
      (verify_jwt_token credentials = Ok None /\ u = "anonymous") \/
      ((exists e, verify_jwt_token credentials = Raise e) /\
       credentials = SIMPLE_API_KEY /\ u = "api_user")) /\
  (forall code why,
      get_current_user verify_jwt_token credentials = Raises code why <->
      (exists e, verify_jwt_token credentials = Raise e) /\
      credentials <> SIMPLE_API_KEY /\
      code = 401 /\ why = "Invalid authentication token or API key").
Proof.
  unfold get_current_user, verify_simple_api_key.
  destruct (verify_jwt_token credentials) as [[sub|]|e].
  - split.
    + intros u. split.
      * intros [= <-]. left. reflexivity.
      * intros [[= <-]|[[H _]|[[e H] _]]]; [reflexivity | discriminate H..].
    + intros code why. split; [discriminate|]. intros [[e H] _]. discriminate H.
  - split.
    + intros u. split.
      * intros [= <-]. right. left. split; reflexivity.
      * intros [H|[[_ ->]|[[e H] _]]]; [discriminate H | reflexivity
                                          | discriminate H].
    + intros code why. split; [discriminate|]. intros [[e' H] _]. discriminate H.
  - destruct (String.eqb credentials SIMPLE_API_KEY) eqn:E.
    + apply String.eqb_eq in E. split.
      * intros u. split.
        -- intros [= <-]. right. right.
           split; [exists e; reflexivity | split; [exact E | reflexivity]].
        -- intros [H|[[H _]|[_ [_ ->]]]]; [discriminate H.. | reflexivity].
      * intros code why. split; [discriminate|]. intros [_ [H _]]. contradiction.
    + apply String.eqb_neq in E. split.
      * intros u. split; [discriminate|].
        intros [H|[[H _]|[_ [H _]]]]; [discriminate H.. | contradiction].
      * intros code why. split.
        -- intros [= <- <-].
           split; [exists e; reflexivity | split; [exact E | split; reflexivity]].
        -- intros [_ [_ [-> ->]]]. reflexivity.
Qed.

Ltac red_app :=
  cbn [fst snd redis world files dispatched db sessions words speaker_rows
       history clock].

(** The rate limiter raises nothing but 429. *)
Lemma limiter_raises_429 (rl : RateLimiter) (up : bool) (key : string) (t : Z)
  (r : Redis) (code : Z) (why : string) :
  fst (check_rate_limit rl up key t r) = HTTPException code why -> code = 429.
Proof.
  unfold check_rate_limit. destruct up; [|discriminate].
  destruct (max_requests rl <=? _); [|discriminate].
  intros [= <- _]. reflexivity.
Qed.

(** The upload branch raises no [HTTPException] but 400. *)
Lemma save_upload_raises_400 (srv : Server) (f : Upload) (fs : gmap string Z)
  (code : Z) (why : string) :
  fst (save_upload srv f fs) = Http code why -> code = 400.
Proof.
  unfold save_upload, validate_audio_file.
  repeat (case_match; cbn [fst]); intros [=]; congruence.
Qed.

Lemma limited_raises_429 (srv : Server) (rq : Request) (r : Redis) (code : Z)
  (why : string) :
  fst (limited srv rq r) = HTTPException code why -> code = 429.
Proof.
  unfold limited. destruct (rate_limiter srv); [|discriminate].
  apply limiter_raises_429.
Qed.

Lemma prepared_raises_400 (srv : Server) (rq : Request) (fs : gmap string Z)
  (code : Z) (why : string) :
  fst (prepared srv rq fs) = Http code why -> code = 400.
Proof.
  unfold prepared. destruct (file rq) as [f|]; [|discriminate]. cbn [fst].
  destruct (fst (save_upload srv f fs)) eqn:E; intros [= <- <-].
  exact (save_upload_raises_400 _ _ _ _ _ E).
Qed.

(** Opens [create_transcription_task] along the tests it makes. *)
Ltac open_create srv rq st :=
  unfold create_transcription_task; cbv zeta; red_app;
  destruct (fst (limited srv rq (redis st))) as [|lcode lwhy] eqn:Elim;
    [destruct (negb (has_file rq) && negb (has_url rq)) eqn:Enone;
     [|destruct (has_file rq && has_url rq) eqn:Eboth;
       [|destruct (fst (prepared srv rq (files st))) as [[src ty]|pcode pwhy|pe]
           eqn:Eprep;
         [destruct (dispatch rq) as [[]|de] eqn:Edis| |]]]|];
  red_app.

(** X20.  A request that is turned down creates nothing: the status is 429,
    400 or 500, no job is handed to the background, the child tables and
    the rows of all other jobs are as before, and unless the status is 500
    the whole database is as before. *)
Theorem rejected_request_creates_no_job (srv : Server) (rq : Request)
  (st : AppState) (code : Z) (why : string) :
  fst (create_transcription_task srv rq st) = Raises code why ->
  let st' := snd (create_transcription_task srv rq st) in
  (code = 429 \/ code = 400 \/ code = 500) /\
  dispatched st' = dispatched st /\
  words (db (world st')) = words (db (world st)) /\
  speaker_rows (db (world st')) = speaker_rows (db (world st)) /\
  (code <> 500 -> world st' = world st) /\
  (forall other, other <> new_task_id rq ->
                 sessions (db (world st')) !! other =
                 sessions (db (world st)) !! other).
Proof.
  open_create srv rq st; intros Hr; try discriminate Hr;
    injection Hr as <- <-;
    try (apply limited_raises_429 in Elim);
    try (apply prepared_raises_400 in Eprep);
    (split; [auto|]);
    unfold create_session, mbind, utcnow, commit; red_app;
    (split; [reflexivity|]); (split; [reflexivity|]); (split; [reflexivity|]);
    (split; [first [reflexivity | intros Hc; exfalso; apply Hc; reflexivity]|]);
    intros other Hne; rewrite ?lookup_insert_ne by congruence; reflexivity.
Qed.

Lemma save_upload_done (srv : Server) (f : Upload) (fs : gmap string Z)
  (src : string) :
  fst (save_upload srv f fs) = Done src ->
  src = file_path f /\
  exists n, content_length f = Ok n /\ n <= MAX_FILE_SIZE /\
            snd (save_upload srv f fs) =
            <[file_path f := n]> (<[file_path f := 0]> fs).
Proof.
  unfold save_upload.
  destruct (validate_audio_file srv f); [|discriminate].
  destruct (opened f); [|discriminate].
  destruct (content_length f) as [n|]; [|discriminate].
  destruct (MAX_FILE_SIZE <? n) eqn:E; [discriminate|].
  destruct (written f); [|discriminate].
  cbn [fst snd]. intros [= <-]. split; [reflexivity|].
  exists n. apply Z.ltb_ge in E. repeat split; [exact E].
Qed.

(** X21.  A request that is accepted creates exactly one job: exactly one
    of the file and the URL was given, the row is pending at progress 0 with
    no result and no error, it belongs to the caller and names the stored
    upload or the URL, that one job is handed to the background, and nothing
    else in the database changes. *)
Theorem accepted_request_creates_one_pending_job (srv : Server) (rq : Request)
  (st : AppState) (c : Created) :
  fst (create_transcription_task srv rq st) = Returns c ->
  let st' := snd (create_transcription_task srv rq st) in
  c_task_id c = new_task_id rq /\ c_status c = "pending" /\
  xorb (has_file rq) (has_url rq) = true /\
  (exists row,
      sessions (db (world st')) !! new_task_id rq = Some row /\
      status row = pending /\ progress row = 0 /\
      user_id row = current_user rq /\
      source_type row = (if has_file rq then "upload" else "url") /\
      (file rq = None -> url rq = Some (audio_source row)) /\
      (forall f, file rq = Some f ->
                 audio_source row = file_path f /\
                 exists n, content_length f = Ok n /\ n <= MAX_FILE_SIZE /\
                           files st' !! file_path f = Some n) /\
      started_at row = None /\ completed_at row = None /\
      Store.language row = None /\ duration_seconds row = None /\
      confidence_score row = None /\ error_message row = None /\
      dispatched st' =
        (dispatched st ++ [(via srv, new_task_id rq, audio_source row)])%list) /\
  (forall other, other <> new_task_id rq ->
                 sessions (db (world st')) !! other =
                 sessions (db (world st)) !! other) /\
  words (db (world st')) = words (db (world st)) /\
  speaker_rows (db (world st')) = speaker_rows (db (world st)).
Proof.
  open_create srv rq st; intros Hr; try discriminate Hr.
  injection Hr as <-. cbn [c_task_id c_status].
  split; [reflexivity|]. split; [reflexivity|].
  unfold create_session, mbind, utcnow, commit. red_app.
  unfold prepared, has_file, has_url in *.
  destruct (file rq) as [f|] eqn:Ef.
  - cbn [fst snd] in Eprep.
    destruct (fst (save_upload srv f (files st))) as [src'| |] eqn:Es;
      try discriminate Eprep.
    injection Eprep as <- <-.
    destruct (save_upload_done _ _ _ _ Es) as [-> [n [Hn [Hle Hfs]]]].
    cbn [negb andb] in Eboth. rewrite Eboth.
    split; [reflexivity|]. split.
    + eexists. rewrite lookup_insert_eq. split; [reflexivity|].
      cbn [status progress user_id source_type audio_source started_at
           completed_at Store.language duration_seconds confidence_score
           error_message].
      do 4 (split; [reflexivity|]). split; [discriminate|].
      split; [|repeat split; reflexivity].
      intros f0 [= <-]. split; [reflexivity|]. exists n.
      cbn [snd]. rewrite Hfs, lookup_insert_eq. repeat split; assumption.
    + split; [|split; reflexivity].
      intros other Hne. apply lookup_insert_ne. congruence.
  - cbn [fst snd] in Eprep. injection Eprep as <- <-.
    cbn [negb andb] in Enone.
    destruct (url rq) as [u|]; [|discriminate Enone].
    apply negb_false_iff in Enone. rewrite Enone.
    split; [reflexivity|]. split.
    + eexists. rewrite lookup_insert_eq. split; [reflexivity|].
      cbn [status progress user_id source_type audio_source started_at
           completed_at Store.language duration_seconds confidence_score
           error_message].
      do 4 (split; [reflexivity|]). split; [reflexivity|].
      split; [intros f0 [=] | repeat split; reflexivity].
    + split; [|split; reflexivity].
      intros other Hne. apply lookup_insert_ne. congruence.
Qed.

Lemma redis_after_create (srv : Server) (rq : Request) (st : AppState) :
  redis (snd (create_transcription_task srv rq st)) =
  snd (limited srv rq (redis st)).
Proof. open_create srv rq st; reflexivity. Qed.

(** X22.  The quota is charged before the request is looked at: with a
    limiter, Redis after any request, well-formed or not, accepted or not,
    is Redis after the limiter's check, and while Redis answers the attempt
    is on record under the key of the user and address.  Without a limiter,
    or when Redis raises, Redis is left alone and no request gets a 429. *)
Theorem quota_charged_before_validation (srv : Server) (rq : Request)
  (st : AppState) :
  let st' := snd (create_transcription_task srv rq st) in
  (forall rl, rate_limiter srv = Some rl ->
      redis st' = snd (check_rate_limit rl (redis_up rq) (limit_key rq)
                                        (current_time rq) (redis st)) /\
      (redis_up rq = true ->
       exists set, redis st' !! limit_key rq = Some set /\
                   members set !! pretty (current_time rq)
                   = Some (current_time rq))) /\
  (rate_limiter srv = None \/ redis_up rq = false ->
   redis st' = redis st /\
   forall why, fst (create_transcription_task srv rq st) <> Raises 429 why).
Proof.
  cbv zeta. rewrite redis_after_create. split.
  - intros rl Hrl. unfold limited. rewrite Hrl. split; [reflexivity|].
    intros Hup. rewrite Hup, check_rate_limit_eq. cbn [snd].
    eexists. rewrite lookup_insert_eq. split; [reflexivity|].
    cbn [members]. apply lookup_insert_eq.
  - intros Hoff.
    assert (Hlim : limited srv rq (redis st) = (Allowed, redis st)).
    { unfold limited, check_rate_limit.
      destruct Hoff as [-> | Hup]; [reflexivity|].
      rewrite Hup. destruct (rate_limiter srv); reflexivity. }
    rewrite Hlim. split; [reflexivity|]. intros why.
    open_create srv rq st; intros Hr; try discriminate Hr.
    + injection Hr as -> _. apply prepared_raises_400 in Eprep. discriminate.
    + rewrite Hlim in Elim. discriminate Elim.
Qed.

(** X23.  An upload that turns out too large once it is read is refused
    with a 400, and the empty file opened for it stays in the upload
    directory: only the 500 path unlinks. *)
Theorem oversize_upload_leaves_empty_file (srv : Server) (rq : Request)
  (st : AppState) (f : Upload) (n : Z) :
  fst (limited srv rq (redis st)) = Allowed ->
  file rq = Some f ->
  has_url rq = false ->
  validate_audio_file srv f = Returns tt ->
  opened f = Ok tt ->
  content_length f = Ok n ->
  MAX_FILE_SIZE < n ->
  let st' := snd (create_transcription_task srv rq st) in
  fst (create_transcription_task srv rq st) = Raises 400 file_too_large /\
  files st' = <[file_path f := 0]> (files st) /\
  world st' = world st /\
  dispatched st' = dispatched st.
Proof.
  intros Hlim Hf Hurl Hval Hopen Hlen Hbig.
  unfold create_transcription_task; cbv zeta; red_app.
  rewrite Hlim. unfold has_file, prepared. rewrite Hf, Hurl. cbn [negb andb].
  unfold save_upload. rewrite Hval, Hopen, Hlen.
  apply Z.ltb_lt in Hbig. rewrite Hbig. red_app.
  repeat split; reflexivity.
Qed.

Lemma oversize_upload_leaves_empty_file_witness :
  let f := mkUpload ".WAV" None "storage/audio/uploads/id-1_talk.WAV" (Ok tt)
                    (Ok (MAX_FILE_SIZE + 1)) (Ok tt) true in
  let rq := mkRequest (Some f) None "10.0.0.7" "alice" "id-1" 1000 true
                      (Ok tt) in
  let st := mkAppState ∅ empty_world ∅ [] in
  files (snd (create_transcription_task (mkServer None false ".wav, .mp3, .flac")
                                        rq st))
  = {[ "storage/audio/uploads/id-1_talk.WAV" := 0 ]}.
Proof.
  intros f rq st.
  pose proof (oversize_upload_leaves_empty_file
                (mkServer None false ".wav, .mp3, .flac") rq st f
                (MAX_FILE_SIZE + 1) eq_refl eq_refl eq_refl eq_refl eq_refl
                eq_refl eq_refl) as [_ [Hfiles _]].
  rewrite Hfiles. reflexivity.
Defined.

(** X24.  When the hand-over to the background raises, a request that
    would otherwise have been accepted gets a 500, but its row is already
    committed: the job stays in the database, pending, with nothing to
    process it, and the upload it names is unlinked. *)
Theorem failed_dispatch_leaves_pending_job (srv : Server) (rq : Request)
  (st : AppState) (c : Created) (e : string) :
  fst (create_transcription_task srv (with_dispatch rq (Ok tt)) st)
    = Returns c ->
  let accepted :=
    snd (create_transcription_task srv (with_dispatch rq (Ok tt)) st) in
  let st' :=
    snd (create_transcription_task srv (with_dispatch rq (Raise e)) st) in
  fst (create_transcription_task srv (with_dispatch rq (Raise e)) st)
    = Raises 500 ("Failed to create task: " ++ e) /\
  world st' = world accepted /\
  (exists row, sessions (db (world st')) !! new_task_id rq = Some row /\
               status row = pending) /\
  dispatched st' = dispatched st /\
  (forall f, file rq = Some f -> unlinked f = true ->
             files st' !! file_path f = None).
Proof.
  intros Hok. cbv zeta.
  revert Hok. unfold create_transcription_task; cbv zeta; red_app.
  change (limited srv (with_dispatch rq (Ok tt))) with (limited srv rq).
  change (limited srv (with_dispatch rq (Raise e))) with (limited srv rq).
  change (has_file (with_dispatch rq (Ok tt))) with (has_file rq).
  change (has_file (with_dispatch rq (Raise e))) with (has_file rq).
  change (has_url (with_dispatch rq (Ok tt))) with (has_url rq).
  change (has_url (with_dispatch rq (Raise e))) with (has_url rq).
  change (prepared srv (with_dispatch rq (Ok tt))) with (prepared srv rq).
  change (prepared srv (with_dispatch rq (Raise e))) with (prepared srv rq).
  cbn [with_dispatch dispatch new_task_id current_user].
  destruct (fst (limited srv rq (redis st))); [|discriminate].
  destruct (negb (has_file rq) && negb (has_url rq)); [discriminate|].
  destruct (has_file rq && has_url rq); [discriminate|].
  destruct (fst (prepared srv rq (files st))) as [[src ty]| |] eqn:Eprep;
    [|discriminate..].
  red_app. intros _. split; [reflexivity|]. split; [reflexivity|].
  unfold create_session, mbind, utcnow, commit. red_app. split.
  - eexists. rewrite lookup_insert_eq. split; reflexivity.
  - split; [reflexivity|]. intros f Hf Hun. unfold cleanup.
    cbn [with_dispatch file]. rewrite Hf, Hun. apply lookup_delete_eq.
Qed.

Lemma result_of_existing_job (task_id : string) (d : Database)
  (s : TranscriptionSession) :
  sessions d !! task_id = Some s ->
  exists r, get_transcription_result task_id d = Ok r.
Proof.
  intros Hs. unfold get_transcription_result. rewrite Hs.
  eexists. reflexivity.
Qed.

(** X25.  Jobs are read by their owner only.  The status endpoint answers
    404 for an unknown id and 403 for any user but the owner; an answer
    carries the status and progress of the row, a result exactly when the
    job is completed and an error exactly when it is failed.  The stream
    makes the same check before it sends anything. *)
Theorem reads_are_for_the_owner_only (task_id user : string) (d : Database) :
  (forall resp,
      get_transcription_status task_id user d = Returns resp ->
      exists s,
        sessions d !! task_id = Some s /\ user_id s = user /\
        r_status resp = status s /\ r_progress resp = progress s /\
        (r_result resp <> None <-> status s = completed) /\
        (forall r, r_result resp = Some r ->
                   get_transcription_result task_id d = Ok r) /\
        (r_error resp <> None <-> status s = failed) /\
        (forall e, r_error resp = Some e -> e = error_message s)) /\
  (forall code why,
      get_transcription_status task_id user d = Raises code why ->
      (code = 404 /\ sessions d !! task_id = None) \/
      (code = 403 /\ exists s, sessions d !! task_id = Some s /\
                               user_id s <> user)) /\
  (forall later,
      match stream_transcription_progress task_id user d later with
      | Returns _ =>
          exists s, sessions d !! task_id = Some s /\ user_id s = user
      | Raises code _ =>
          (code = 404 /\ sessions d !! task_id = None) \/
          (code = 403 /\ exists s, sessions d !! task_id = Some s /\
                                   user_id s <> user)
      end).
Proof.
  unfold get_transcription_status, stream_transcription_progress.
  destruct (sessions d !! task_id) as [s|] eqn:Hs.
  - destruct (String.eqb (user_id s) user) eqn:Hu; cbn [negb].
    + apply String.eqb_eq in Hu.
      destruct (result_of_existing_job task_id d s Hs) as [r Hr]. rewrite Hr.
      split; [|split].
      * intros resp Hresp. exists s. split; [reflexivity|]. split; [exact Hu|].
        destruct (status s); injection Hresp as <-;
          cbn [r_status r_progress r_result r_error];
          (split; [reflexivity|]); (split; [reflexivity|]);
          (split; [split; congruence|]); (split; [congruence|]);
          (split; [split; congruence|]); congruence.
      * intros code why Hresp. destruct (status s); discriminate Hresp.
      * intros later. exists s. split; [reflexivity | exact Hu].
    + apply String.eqb_neq in Hu. split; [|split].
      * intros resp Hresp. discriminate Hresp.
      * intros code why [= <- _]. right. split; [reflexivity|].
        exists s. split; [reflexivity | exact Hu].
      * intros later. right. split; [reflexivity|].
        exists s. split; [reflexivity | exact Hu].
  - split; [|split].
    + intros resp Hresp. discriminate Hresp.
    + intros code why [= <- _]. left. split; reflexivity.
    + intros later. left. split; reflexivity.
Qed.

(** The row of a job whose run raised nothing. *)
Lemma lifecycle_success_row (np_exp : Q -> Q) (wk : Worker)
  (task_id user src ty : string) (w0 : World) (r : Result) :
  all_ok np_exp wk src r ->
  exists s,
    sessions (db (snd (lifecycle np_exp wk task_id user src ty w0))) !! task_id
      = Some s /\
    user_id s = user /\ status s = completed /\ progress s = 100 /\
    created_at s = clock w0.
Proof.
  intros (Hnotify & Hload & Haudio & Hsave). run_step.
  rewrite !lookup_insert_eq. red_world.
  rewrite !Hnotify, Hload, Haudio, Hsave. red_world.
  unfold save_transcription_results. cbn [sessions].
  eexists. rewrite lookup_insert_eq. repeat split; reflexivity.
Qed.

(** A saved result as it is read back, whatever the order of the rows that
    share a key. *)
Lemma saved_result_read_back (d : Database) (task_id : string) (r : Result)
  (session : TranscriptionSession) :
  no_rows_for task_id d ->
  sessions d !! task_id = Some session ->
  exists stored,
    get_transcription_result task_id (save_transcription_results d task_id r)
      = Ok stored /\
    Permutation (transcript stored) (transcript r) /\
    sorted_by_start (transcript stored) /\
    Permutation (speakers stored) (speakers r) /\
    sorted_desc (speakers stored) /\
    Core.language stored = str_or (Store.language session) "en" /\
    duration_sec stored = float_or (duration_seconds session) 0%Q /\
    confidence stored = float_or (confidence_score session) default_confidence.
Proof.
  intros Hnone Hs. unfold get_transcription_result.
  replace (sessions (save_transcription_results d task_id r) !! task_id)
    with (Some session) by (symmetry; exact Hs).
  rewrite (saved_word_rows d task_id r Hnone),
          (saved_speaker_rows d task_id r Hnone).
  eexists. split; [reflexivity|].
  cbn [transcript speakers Core.language duration_sec confidence].
  split; [|split; [|split; [|split; [|repeat split]]]].
  - rewrite <- (entries_of_word_rows task_id (transcript r)) at 2.
    apply Permutation_map, PyListFacts.stable_sort_perm.
  - unfold sorted_by_start.
    apply (JobMore.sorted_map _ (fun a b => by_start_time a b = true)).
    + intros a b Hab. unfold by_start_time in Hab. apply Qleb_le in Hab.
      exact Hab.
    + apply PyListFacts.stable_sort_sorted, by_start_time_total.
  - rewrite <- (stats_of_speaker_rows task_id (speakers r)) at 2.
    apply Permutation_map, PyListFacts.stable_sort_perm.
  - unfold sorted_desc.
    apply (JobMore.sorted_map _ (fun a b => by_total_seconds_desc a b = true)).
    + intros a b Hab. unfold by_total_seconds_desc in Hab.
      apply Qleb_le in Hab. exact Hab.
    + apply PyListFacts.stable_sort_sorted, by_total_seconds_desc_total.
Qed.

(** X26.  From submission to the owner's read: for a job whose run raised
    nothing, the status endpoint answers the owner with completed, 100 and
    the result that [get_transcription_result] builds from the stored rows:
    the words of the fresh transcript in non-decreasing order of start time,
    the fresh speakers in non-increasing order of total time (rows that
    share a key may come in any order), and the three scalar fields passed
    through [or].  It answers every other user with a 403. *)
Theorem completed_job_status_carries_result (np_exp : Q -> Q) (wk : Worker)
  (task_id user src ty : string) (w0 : World) (r : Result) :
  all_ok np_exp wk src r ->
  no_rows_for task_id (db w0) ->
  let d := db (snd (lifecycle np_exp wk task_id user src ty w0)) in
  (exists stored,
      get_transcription_result task_id d = Ok stored /\
      get_transcription_status task_id user d =
        Returns (mkStatusResponse task_id completed 100 (clock w0)
                                  (Some stored) None) /\
      Permutation (transcript stored) (transcript r) /\
      sorted_by_start (transcript stored) /\
      Permutation (speakers stored) (speakers r) /\
      sorted_desc (speakers stored) /\
      Core.language stored = str_or (Some (Core.language r)) "en" /\
      duration_sec stored = float_or (Some (duration_sec r)) 0%Q /\
      confidence stored =
        float_or (Some (confidence r)) default_confidence) /\
  forall other, other <> user ->
    get_transcription_status task_id other d = Raises 403 "Access denied".
Proof.
  intros Hok Hnone d.
  destruct (lifecycle_success_row np_exp wk task_id user src ty w0 r Hok)
    as [s [Hs [Hu [Hst [Hpr Hcr]]]]].
  fold d in Hs. split.
  - destruct (lifecycle_success np_exp wk task_id user src ty w0 r Hok)
      as (_ & (session & Hdb & _ & _ & Hl & Hd & Hc & _) & _).
    fold d in Hdb.
    destruct (saved_result_read_back
                (mkDatabase (<[task_id := session]> (sessions (db w0)))
                            (words (db w0)) (speaker_rows (db w0)))
                task_id r session Hnone (lookup_insert_eq _ _ _))
      as (stored & Hread & Hp1 & Hs1 & Hp2 & Hs2 & Hlang & Hdur & Hconf).
    rewrite <- Hdb in Hread. rewrite Hl in Hlang. rewrite Hd in Hdur.
    rewrite Hc in Hconf.
    exists stored. split; [exact Hread|]. split.
    + unfold get_transcription_status. rewrite Hs, Hu, String.eqb_refl.
      cbn [negb]. rewrite Hst, Hread, Hpr, Hcr. reflexivity.
    + repeat split; assumption.
  - intros other Hne. apply String.eqb_neq in Hne.
    unfold get_transcription_status. rewrite Hs, Hu.
    rewrite String.eqb_sym, Hne. reflexivity.
Qed.

Lemma changes_only_after (last : option Status) (s : Status) (l : list Status) :
  same_status last s = false ->
  changes_only (s :: l) ->
  changes_only (option_list last ++ s :: l)%list.
Proof.
  intros Hne Hl. destruct last as [a|]; [|exact Hl].
  cbn [option_list app changes_only]. split; [|exact Hl].
  intros ->. cbn in Hne. destruct s; discriminate Hne.
Qed.

Lemma changes_only_last (last : option Status) :
  changes_only (option_list last ++ [])%list.
Proof. destruct last; exact I. Qed.

(** X27.  The stream reports changes of status and nothing else: no two
    successive updates carry the same status, so that progress made within
    one status is never sent; once the generator has returned, later rounds
    add nothing; and while it has not, every event sent is an update on a
    job that is pending or processing. *)
Theorem stream_reports_status_changes_only (polls : list Poll) :
  forall last : option Status,
    changes_only (option_list last
                  ++ statuses (fst (event_generator last polls)))%list /\
    (snd (event_generator last polls) = true ->
     forall more,
       event_generator last (polls ++ more)%list = event_generator last polls) /\
    (snd (event_generator last polls) = false ->
     Forall in_flight (fst (event_generator last polls))).
Proof.
  induction polls as [|p rest IH]; intros last.
  - cbn [event_generator fst snd statuses flat_map].
    split; [apply changes_only_last|]. split; [discriminate | constructor].
  - cbn [event_generator app].
    destruct (observed p) as [[s|]|e].
    + destruct (same_status last (status s)) eqn:Esame; [apply IH|].
      destruct (status s) eqn:Est.
      * destruct (IH (Some pending)) as [H1 [H2 H3]].
        cbn [fst snd statuses flat_map app]. split; [|split].
        -- apply changes_only_after; [exact Esame | exact H1].
        -- intros Hc more. rewrite (H2 Hc more). reflexivity.
        -- intros Hc. constructor; [|exact (H3 Hc)].
           exists (progress s). left. unfold reported_error. rewrite Est.
           reflexivity.
      * destruct (IH (Some processing)) as [H1 [H2 H3]].
        cbn [fst snd statuses flat_map app]. split; [|split].
        -- apply changes_only_after; [exact Esame | exact H1].
        -- intros Hc more. rewrite (H2 Hc more). reflexivity.
        -- intros Hc. constructor; [|exact (H3 Hc)].
           exists (progress s). right. unfold reported_error. rewrite Est.
           reflexivity.
      * destruct (fetched p); cbn [fst snd statuses flat_map app];
          (split; [apply changes_only_after; [exact Esame | exact I]|]);
          (split; [reflexivity | discriminate]).
      * cbn [fst snd statuses flat_map app].
        split; [apply changes_only_after; [exact Esame | exact I]|].
        split; [reflexivity | discriminate].
    + cbn [fst snd statuses flat_map].
      split; [apply changes_only_last|]. split; [reflexivity | discriminate].
    + cbn [fst snd statuses flat_map].
      split; [apply changes_only_last|]. split; [reflexivity | discriminate].
Qed.

(** Rounds that meet the held object send nothing more. *)
Lemma held_rounds_silent (task_id : string) (session : TranscriptionSession)
  (st : Status) (rest : list Database) :
  status session = st ->
  event_generator (Some st)
    (map (fun d => poll_of task_id (seen_through task_id session d)) rest)
  = ([], false).
Proof.
  intros Hst. induction rest as [|d rest IH]; [reflexivity|].
  cbn [map event_generator poll_of observed seen_through sessions].
  rewrite lookup_insert_eq, Hst.
  replace (same_status (Some st) st) with true
    by (destruct st; reflexivity).
  exact IH.
Qed.

(** The events of a stream depend on its first round only. *)
Lemma stream_one_state (task_id user : string) (d first : Database)
  (rest : list Database) (checked session : TranscriptionSession) :
  sessions d !! task_id = Some checked ->
  user_id checked = user ->
  sessions first !! task_id = Some session ->
  exists r,
    get_transcription_result task_id first = Ok r /\
    stream_transcription_progress task_id user d (first :: rest) =
    Returns
      match status session with
      | completed =>
          ([progress_event completed (progress session) None; result_event r],
           true)
      | failed =>
          ([progress_event failed (progress session) (reported_error session)],
           true)
      | st => ([progress_event st (progress session) None], false)
      end.
Proof.
  intros Hd Hu Hfirst.
  destruct (result_of_existing_job task_id first session Hfirst) as [r Hr].
  exists r. split; [exact Hr|].
  unfold stream_transcription_progress. rewrite Hd, Hu, String.eqb_refl.
  cbn [negb rounds]. rewrite Hfirst.
  cbn [event_generator poll_of observed fetched same_status].
  rewrite Hfirst, Hr. unfold reported_error.
  destruct (status session) eqn:Est; try reflexivity;
    rewrite (held_rounds_silent task_id session _ rest Est); reflexivity.
Qed.

(** X28.  A stream shows one state of the job.  The first round of the loop
    loads the row, and every later [db.get] of the request answers with that
    object, so that what is committed afterwards is never seen: the stream
    of a job met pending or processing sends one update and does not return,
    the stream of a job met completed sends the update and the result, and
    the stream of a job met failed sends the update with its error.  A
    stream opened on a job just submitted sends the pending update alone,
    also when a later round reads the database in which the job has
    completed, while a new request for the status is then answered with
    completed. *)
Theorem stream_shows_one_state (task_id user : string) :
  (forall d first rest checked session,
      sessions d !! task_id = Some checked ->
      user_id checked = user ->
      sessions first !! task_id = Some session ->
      exists r,
        get_transcription_result task_id first = Ok r /\
        stream_transcription_progress task_id user d (first :: rest) =
        Returns
          match status session with
          | completed =>
              ([progress_event completed (progress session) None;
                result_event r], true)
          | failed =>
              ([progress_event failed (progress session)
                               (reported_error session)], true)
          | st => ([progress_event st (progress session) None], false)
          end) /\
  (forall np_exp wk src ty w0 r rest,
      all_ok np_exp wk src r ->
      let submitted := db (snd (create_session task_id user src ty w0)) in
      let finished := db (snd (lifecycle np_exp wk task_id user src ty w0)) in
      stream_transcription_progress task_id user submitted
        (submitted :: rest ++ [finished]) =
        Returns ([progress_event pending 0 None], false) /\
      exists resp,
        get_transcription_status task_id user finished = Returns resp /\
        r_status resp = completed /\ r_progress resp = 100).
Proof.
  split; [apply stream_one_state|].
  intros np_exp wk src ty w0 r rest Hok submitted finished. split.
  - assert (Hrow : sessions submitted !! task_id =
                   Some (mkSession user src ty pending 0 (clock w0) None None
                                   None None None None)).
    { subst submitted. unfold create_session, mbind, utcnow, commit.
      cbn [fst snd db sessions clock]. apply lookup_insert_eq. }
    destruct (stream_one_state task_id user submitted submitted
                (rest ++ [finished]) _ _ Hrow eq_refl Hrow) as [r' [_ Hstream]].
    exact Hstream.
  - destruct (lifecycle_success_row np_exp wk task_id user src ty w0 r Hok)
      as [s [Hs [Hu [Hst [Hpr Hcr]]]]].
    fold finished in Hs.
    destruct (result_of_existing_job task_id finished s Hs) as [r' Hr'].
    unfold get_transcription_status.
    rewrite Hs, Hu, String.eqb_refl. cbn [negb]. rewrite Hst, Hr'.
    eexists. split; [reflexivity|]. split; [reflexivity | exact Hpr].
Qed.

Lemma rejected_request_creates_no_job_witness :
  let srv := mkServer (Some (init 30 1)) true ".wav, .mp3, .flac" in
  let rq := mkRequest None None "10.0.0.7" "alice" "id-1" 1000 true (Ok tt) in
  let st := mkAppState ∅ empty_world ∅ [] in
  world (snd (create_transcription_task srv rq st)) = empty_world.
Proof.
  intros srv rq st.
  assert (H : fst (create_transcription_task srv rq st) =
              Raises 400 "Either 'file' upload or 'url' parameter is required")
    by (vm_compute; reflexivity).
  destruct (rejected_request_creates_no_job srv rq st _ _ H)
    as (_ & _ & _ & _ & Hw & _).
  apply Hw. discriminate.
Defined.

Lemma accepted_request_creates_one_pending_job_witness :
  let srv := mkServer (Some (init 30 1)) true ".wav, .mp3, .flac" in
  let rq := mkRequest None (Some "https://example.org/a.wav") "10.0.0.7"
                      "alice" "id-1" 1000 true (Ok tt) in
  let st := mkAppState ∅ empty_world ∅ [] in
  exists row,
    sessions (db (world (snd (create_transcription_task srv rq st)))) !! "id-1"
      = Some row /\
    status row = pending /\ user_id row = "alice" /\
    audio_source row = "https://example.org/a.wav".
Proof.
  intros srv rq st.
  assert (H : fst (create_transcription_task srv rq st) =
              Returns (mkCreated "id-1" "pending"
                         "Transcription task created successfully"))
    by (vm_compute; reflexivity).
  destruct (accepted_request_creates_one_pending_job srv rq st _ H)
    as (_ & _ & _ & (row & Hrow & Hst & _ & Hu & _ & Hurl & _) & _).
  exists row. split; [exact Hrow|]. split; [exact Hst|]. split; [exact Hu|].
  specialize (Hurl eq_refl). injection Hurl as Hurl. symmetry. exact Hurl.
Defined.

Lemma failed_dispatch_leaves_pending_job_witness :
  let srv := mkServer (Some (init 30 1)) true ".wav, .mp3, .flac" in
  let f := mkUpload ".mp3" (Some 10) "storage/audio/uploads/id-1_a.mp3" (Ok tt)
                    (Ok 10) (Ok tt) true in
  let rq := mkRequest (Some f) None "10.0.0.7" "alice" "id-1" 1000 true
                      (Raise "broker unreachable") in
  let st := mkAppState ∅ empty_world ∅ [] in
  fst (create_transcription_task srv rq st) =
    Raises 500 "Failed to create task: broker unreachable" /\
  exists row,
    sessions (db (world (snd (create_transcription_task srv rq st)))) !! "id-1"
      = Some row /\ status row = pending.
Proof.
  intros srv f rq st.
  assert (H : fst (create_transcription_task srv (with_dispatch rq (Ok tt)) st)
              = Returns (mkCreated "id-1" "pending"
                           "Transcription task created successfully"))
    by (vm_compute; reflexivity).
  destruct (failed_dispatch_leaves_pending_job srv rq st _ "broker unreachable"
              H) as (Hresp & _ & Hrow & _).
  split; [exact Hresp | exact Hrow].
Defined.

Lemma completed_job_status_carries_result_witness :
  let wr := mkWhisperResult (Some "en")
              (Some [mkSegment 0 2 "hello" None None]) in
  let wk := mkWorker (Ok tt) (fun _ => mkAudio (Ok 2%Q) (Ok wr) None) (Ok tt)
                     (fun _ => Ok tt) (Ok tt) in
  let d := db (snd (lifecycle (fun _ => 1%Q) wk "job-1" "alice" "a.wav" "upload"
                              empty_world)) in
  (exists stored,
      get_transcription_status "job-1" "alice" d =
        Returns (mkStatusResponse "job-1" completed 100 0 (Some stored) None) /\
      length (transcript stored) = 1%nat) /\
  get_transcription_status "job-1" "bob" d = Raises 403 "Access denied".
Proof.
  intros wr wk d.
  assert (Hok : exists r, all_ok (fun _ => 1%Q) wk "a.wav" r /\
                          length (transcript r) = 1%nat).
  { eexists. split; [|shelve].
    split; [reflexivity|]. split; [reflexivity|].
    split; [vm_compute; reflexivity | reflexivity].
    Unshelve. reflexivity. }
  destruct Hok as [r [Hok Hlen]].
  assert (Hnone : no_rows_for "job-1" (db empty_world)) by (split; intros x []).
  destruct (completed_job_status_carries_result (fun _ => 1%Q) wk "job-1"
              "alice" "a.wav" "upload" empty_world r Hok Hnone)
    as [(stored & _ & Hstatus & Hperm & _) Hother].
  split.
  - exists stored. split; [exact Hstatus|].
    rewrite (Permutation_length Hperm). exact Hlen.
  - apply Hother. discriminate.
Defined.

Lemma stream_shows_one_state_witness :
  let wr := mkWhisperResult (Some "en")
              (Some [mkSegment 0 2 "hello" None None]) in
  let wk := mkWorker (Ok tt) (fun _ => mkAudio (Ok 2%Q) (Ok wr) None) (Ok tt)
                     (fun _ => Ok tt) (Ok tt) in
  let submitted := db (snd (create_session "job-1" "alice" "a.wav" "upload"
                                           empty_world)) in
  let finished := db (snd (lifecycle (fun _ => 1%Q) wk "job-1" "alice" "a.wav"
                                     "upload" empty_world)) in
  stream_transcription_progress "job-1" "alice" submitted
    [submitted; finished; finished] =
  Returns ([progress_event pending 0 None], false).
Proof.
  intros wr wk submitted finished.
  assert (Hok : exists r, all_ok (fun _ => 1%Q) wk "a.wav" r).
  { eexists.
    split; [reflexivity|]. split; [reflexivity|].
    split; [vm_compute; reflexivity | reflexivity]. }
  destruct Hok as [r Hok].
  exact (proj1 (proj2 (stream_shows_one_state "job-1" "alice")
                  (fun _ => 1%Q) wk "a.wav" "upload" empty_world r [finished]
                  Hok)).
Defined.

End ApiFacts.
